(** * universalmotif: the motif comparison engine (src/compare_motifs_helper.cpp)

    A shallow embedding of the comparison, alignment, merge and p-value
    code, and the properties of it that the specification states.

    Conventions of the embedding.
    - A C++ [double] is a real number ([R]); rounding, infinities and NaN are
      not represented, except where the code's behaviour hinges on one: the
      [0.0 / 0.0] of [calc_mic] (see there), and the quotients of the score
      of a window, for which the section "Scores that are no numbers" gives
      the alignment search a second time.  A statement that depends on how a
      product or a sum is rounded has among its hypotheses the condition
      under which the rounded value decides as the exact one does
      ([overlap_exact], [logs_clear_of_zero]).  [log], [exp], [sqrt],
      [pow(x, 2.0)] and [abs] on doubles are [ln], [exp], [sqrt], [Rsqr] and
      [Rabs] ([abs] is taken in its overload for [double]).
    - [vec_num_t] is [list R]; [list_num_t], a motif, is a list of columns,
      each a [list R] with one entry per alphabet symbol.  A padding column
      holds [-1.0] in every entry; the code recognises it by [col[0] < 0].
    - [std::size_t] values are [nat]; where the code lets one wrap around
      (the index [size / 2 - 1] of [score_median]) the wrap is written out.
      [int] values are [Z], with the overflow of [++] reported as an outcome.
    - A read past the end of a [std::vector] is undefined behaviour; the
      functions that can come to one return [option] or [outcome]. *)

From Stdlib Require Import String Reals Lra Lia ZArith Bool Arith List.
Import ListNotations.
Open Scope R_scope.

(** ** Doubles *)

Definition Rleb (x y : R) : bool := if Rle_dec x y then true else false.
Definition Rltb (x y : R) : bool := if Rlt_dec x y then true else false.
Definition Reqb (x y : R) : bool := if Req_dec_T x y then true else false.

(** [std::numeric_limits<double>::max()], the largest finite binary64. *)
Definition dbl_max : R := (2 - / 2 ^ 52) * 2 ^ 1023.

(** ** The name -> code tables

    [std::unordered_map<std::string, int>]; [operator[]] on a missing key
    yields a value-initialised [int], that is 0. *)

Definition enum_t := list (string * Z).

Fixpoint enum_get (tbl : enum_t) (key : string) : Z :=
  match tbl with
  | [] => 0%Z
  | (k, v) :: rest => if String.eqb k key then v else enum_get rest key
  end.

Definition METRICS_enum : enum_t :=
  [ ("EUCL", 1); ("KL", 2); ("HELL", 3); ("IS", 4); ("SEUCL", 5); ("MAN", 6);
    ("PCC", 7); ("SW", 8); ("ALLR", 9); ("BHAT", 10); ("ALLR_LL", 11) ]%string%Z.

Definition SCORESTRAT_enum : enum_t :=
  [ ("sum", 1); ("a.mean", 2); ("g.mean", 3); ("median", 4) ]%string%Z.

Definition STRATS_enum : enum_t :=
  [ ("normal", 1); ("logistic", 2); ("weibull", 3) ]%string%Z.

(** ** Outcomes of the code that indexes caller-supplied vectors *)

Inductive outcome (A : Type) : Type :=
| Ret (a : A)
| Stop (msg : string)      (* Rcpp::stop *)
| OutOfBounds              (* a vector read past its end *)
| SignedOverflow           (* ++ on an int that holds INT_MAX *)
| OutOfFuel.               (* the loop has not left within the given steps *)

Arguments Ret {A} a.
Arguments Stop {A} msg.
Arguments OutOfBounds {A}.
Arguments SignedOverflow {A}.
Arguments OutOfFuel {A}.

Definition obind {A B : Type} (m : outcome A) (f : A -> outcome B) : outcome B :=
  match m with
  | Ret a => f a
  | Stop s => Stop s
  | OutOfBounds => OutOfBounds
  | SignedOverflow => SignedOverflow
  | OutOfFuel => OutOfFuel
  end.

Notation "x <-- m ;; k" := (obind m (fun x => k))
  (at level 61, m at next level, right associativity).

(** [v[i]] for a [std::size_t] index. *)
Definition at_nat {A : Type} (v : list A) (i : nat) : outcome A :=
  match nth_error v i with
  | Some a => Ret a
  | None => OutOfBounds
  end.

(** [v[i]] for an [int] index: a negative one converts to a huge
    [std::size_t]. *)
Definition at_int {A : Type} (v : list A) (i : Z) : outcome A :=
  if (i <? 0)%Z then OutOfBounds else at_nat v (Z.to_nat i).

(** [v[v.size() - 1]]; on an empty vector the index wraps around. *)
Definition at_last {A : Type} (v : list A) : outcome A :=
  match v with
  | [] => OutOfBounds
  | _ => at_nat v (length v - 1)
  end.

(** ** P-value lookup *)

Definition INT_MAX : Z := 2147483647.

Record pval_table := {
  subject : list Z;
  target : list Z;
  paramA : list R;
  paramB : list R;
  distribution : list string
}.

Section PValue.

(** R's distribution functions [R::pnorm], [R::plogis], [R::pweibull],
    called with [log_p = 1]: score, the two parameters, lower_tail. *)
Variables pnorm plogis pweibull : R -> R -> R -> Z -> R.

Definition pval_calculator (score paramA paramB : R) (ltail : Z)
    (dist : string) : outcome R :=
  match enum_get STRATS_enum dist with
  | 1%Z => Ret (pnorm score paramA paramB ltail)
  | 2%Z => Ret (plogis score paramA paramB ltail)
  | 3%Z => Ret (pweibull score paramA paramB ltail)
  | _ => Stop "distribution must be one of normal, logistic, weibull"
  end.

(** The [for j] scan of the table for the row (n1, n2).  [target[j]] is
    read only when [n1 == subject[j]]. *)
Fixpoint find_row (subject_rest target : list Z) (n1 n2 : Z) (j : nat)
    : outcome (option Z) :=
  match subject_rest with
  | [] => Ret None
  | s :: rest =>
      if (n1 =? s)%Z then
        t <-- at_nat target j ;;
        if (n2 =? t)%Z then Ret (Some (Z.of_nat j))
        else find_row rest target n1 n2 (S j)
      else find_row rest target n1 n2 (S j)
  end.

(** [while (!ok) { ... }]: one unfolding per unit of fuel.  The loop is
    left only through [ok]; the test on the table's last widths assigns
    [row = -1] and nothing else. *)
Fixpoint row_search (fuel : nat) (subject target : list Z)
    (n1 n2 row : Z) : outcome Z :=
  match fuel with
  | O => OutOfFuel
  | S fuel' =>
      found <-- find_row subject target n1 n2 0 ;;
      let row1 := match found with Some j => j | None => row end in
      let ok := match found with Some _ => true | None => false end in
      if ((n1 =? INT_MAX) || (n2 =? INT_MAX))%Z then SignedOverflow
      else
        let n1' := (n1 + 1)%Z in
        let n2' := (n2 + 1)%Z in
        smax <-- at_last subject ;;
        tmax <-- at_last target ;;
        let row2 := if ((n1' >? smax) || (n2' >? tmax))%Z then (-1)%Z
                    else row1 in
        if ok then Ret row2
        else row_search fuel' subject target n1' n2' row2
  end.

(** Clamp a width into [first, last] of a table column. *)
Definition clamp_width (n : Z) (col : list Z) : outcome Z :=
  lo <-- at_nat col 0 ;;
  if (n <? lo)%Z then Ret lo
  else
    hi <-- at_last col ;;
    if (n >? hi)%Z then Ret hi else Ret n.

(** The body of the [for i] loop for one score.  [row] is declared
    outside the loop and keeps its value from one score to the next.
    The result is [None] after [continue] (the slot keeps its 0.0). *)
Definition pval_body (fuel : nat) (ncols indices1 indices2 : list Z)
    (tbl : pval_table) (ltail : Z) (score : R) (i : nat) (row : Z)
    : outcome (option R * Z) :=
  if Reqb (Rabs score) dbl_max then Ret (None, row)
  else
    i1 <-- at_nat indices1 i ;;
    m1 <-- at_int ncols i1 ;;
    i2 <-- at_nat indices2 i ;;
    m2 <-- at_int ncols i2 ;;
    n1 <-- clamp_width (Z.min m1 m2) (subject tbl) ;;
    n2 <-- clamp_width (Z.max m1 m2) (target tbl) ;;
    row' <-- row_search fuel (subject tbl) (target tbl) n1 n2 row ;;
    if (row' =? -1)%Z then Ret (None, row')
    else
      a <-- at_int (paramA tbl) row' ;;
      b <-- at_int (paramB tbl) row' ;;
      d <-- at_int (distribution tbl) row' ;;
      p <-- pval_calculator score a b ltail d ;;
      Ret (Some p, row').

Fixpoint pval_loop (fuel : nat) (ncols : list Z) (indices1 indices2 : list Z)
    (tbl : pval_table) (ltail : Z) (scores : list R) (i : nat) (row : Z)
    : outcome (list R) :=
  match scores with
  | [] => Ret []
  | s :: rest =>
      r <-- pval_body fuel ncols indices1 indices2 tbl ltail s i row ;;
      ps <-- pval_loop fuel ncols indices1 indices2 tbl ltail rest (S i)
               (snd r) ;;
      Ret (match fst r with Some p => p | None => 0 end :: ps)
  end.

Definition pval_ltail (method : string) : Z :=
  match enum_get METRICS_enum method with
  | 7%Z | 8%Z | 9%Z | 10%Z | 11%Z => 0%Z
  | _ => 1%Z
  end.

(** [row0] is the indeterminate value of the uninitialised [int row]. *)
Definition pval_extractor (fuel : nat) (row0 : Z) (ncols : list Z)
    (scores : list R) (indices1 indices2 : list Z) (method : string)
    (tbl : pval_table) : outcome (list R) :=
  pval_loop fuel ncols indices1 indices2 tbl (pval_ltail method) scores 0 row0.

End PValue.

(** ** Aggregator *)

Definition motif := list (list R).

Definition obnd {A B : Type} (m : option A) (f : A -> option B) : option B :=
  match m with
  | Some a => f a
  | None => None
  end.

Notation "x <-? m ;; k" := (obnd m (fun x => k))
  (at level 61, m at next level, right associativity).

(** [std::accumulate(v.begin(), v.end(), 0.0)]. *)
Definition accumulate (v : list R) : R := fold_left Rplus v 0.

Definition score_sum (scores : list R) : R := accumulate scores.

(** [n] is the comparable-column count; with [n = 0] the C++ quotient is
    NaN or an infinity, here it is [x * / 0]. *)
Definition score_amean (scores : list R) (n : nat) : R :=
  accumulate scores / INR n.

Definition score_gmean (scores : list R) : R :=
  let sum := fold_left (fun acc x => if Rltb 0 x then acc + ln x else acc)
               scores 0 in
  if Reqb sum 0 then 0 else exp (sum / INR (length scores)).

(** [std::sort] on doubles: the ascending arrangement of the values. *)
Fixpoint insert_sorted (x : R) (l : list R) : list R :=
  match l with
  | [] => [x]
  | y :: t => if Rleb x y then x :: l else y :: insert_sorted x t
  end.

Definition sort_R (l : list R) : list R := fold_right insert_sorted [] l.

(** [std::size_t] arithmetic, modulo 2^64. *)
Definition SIZE_MOD : Z := 2 ^ 64.
Definition size_sub (a b : Z) : Z := ((a - b) mod SIZE_MOD)%Z.

(** [v[i]] where [i] is a [std::size_t] given as the integer it holds. *)
Definition at_size {A : Type} (v : list A) (i : Z) : option A :=
  if ((0 <=? i) && (i <? Z.of_nat (length v)))%Z
  then nth_error v (Z.to_nat i) else None.

(** [None]: an element read outside the vector. *)
Definition score_median (scores : list R) : option R :=
  let size := Z.of_nat (length scores) in
  if (size =? 1)%Z then at_size scores 0
  else
    let sorted := sort_R scores in
    if (size mod 2 =? 0)%Z then
      a <-? at_size sorted (size_sub (size / 2) 1) ;;
      b <-? at_size sorted (size / 2) ;;
      Some ((a + b) / 2)
    else at_size sorted (size / 2).

(** [good] has one flag per score (both come from the same column loop);
    the third argument [n] of the C++ function only reserves capacity. *)
Fixpoint keep_good (scores : list R) (good : list bool) : list R :=
  match scores, good with
  | s :: ss, g :: gs => if g then s :: keep_good ss gs else keep_good ss gs
  | _, _ => []
  end.

Definition calc_final_score (scores : list R) (strat : string) (n : nat)
    (good : list bool) : option R :=
  match enum_get SCORESTRAT_enum strat with
  | 1%Z => Some (score_sum scores)
  | 2%Z => Some (score_amean scores n)
  | 3%Z => Some (score_gmean (keep_good scores good))
  | 4%Z => score_median (keep_good scores good)
  | _ => Some (-333.333)
  end.

(** ** Metric library

    Every [compare_*] has the same frame: mark the columns where both
    motifs hold data ([mot1[i][0] >= 0 && mot2[i][0] >= 0]), count them,
    compute the per-column value for those and leave 0.0 elsewhere, and
    hand the array to [calc_final_score].  The two motifs have the same
    width and every column has [nrow] entries. *)

(** [col[0]]. *)
Definition col0 (col : list R) : R := nth 0 col 0.

Definition is_data (col : list R) : bool := Rleb 0 (col0 col).

Definition good_mask (mot1 mot2 : motif) : list bool :=
  map (fun cc => is_data (fst cc) && is_data (snd cc)) (combine mot1 mot2).

Definition count_true (good : list bool) : nat :=
  length (filter (fun b => b) good).

(** [ans[i] += f(mot1[i][j], mot2[i][j])] over the rows [j]. *)
Definition sum_rows (f : R -> R -> R) (c1 c2 : list R) : R :=
  fold_left (fun acc ab => acc + f (fst ab) (snd ab)) (combine c1 c2) 0.

Definition per_column (f : list R -> list R -> R) (mot1 mot2 : motif)
    : list R :=
  map (fun cc => if is_data (fst cc) && is_data (snd cc)
                 then f (fst cc) (snd cc) else 0)
      (combine mot1 mot2).

Definition compare_with (f : list R -> list R -> R) (mot1 mot2 : motif)
    (strat : string) : option R :=
  let good := good_mask mot1 mot2 in
  calc_final_score (per_column f mot1 mot2) strat (count_true good) good.

Definition col_hell (c1 c2 : list R) : R :=
  sqrt (sum_rows (fun a b => Rsqr (sqrt a - sqrt b)) c1 c2) / sqrt 2.

Definition col_is (c1 c2 : list R) : R :=
  sum_rows (fun a b => a / b - ln (a / b) - 1) c1 c2.

Definition col_seucl (c1 c2 : list R) : R :=
  sum_rows (fun a b => Rsqr (a - b)) c1 c2.

Definition col_man (c1 c2 : list R) : R :=
  sum_rows (fun a b => Rabs (a - b)) c1 c2.

Definition col_bhat (c1 c2 : list R) : R :=
  sum_rows (fun a b => sqrt (a * b)) c1 c2.

Definition col_eucl (c1 c2 : list R) : R :=
  sqrt (sum_rows (fun a b => Rsqr (a - b)) c1 c2).

Definition col_pcc (c1 c2 : list R) : R :=
  let nrow := INR (length c1) in
  let mmat := map (fun ab => fst ab * snd ab) (combine c1 c2) in
  let pmat1 := map Rsqr c1 in
  let pmat2 := map Rsqr c2 in
  let top := nrow * accumulate mmat - accumulate c1 * accumulate c2 in
  let bot := sqrt ((nrow * accumulate pmat1 - Rsqr (accumulate c1))
                   * (nrow * accumulate pmat2 - Rsqr (accumulate c2))) in
  if Reqb bot 0 then 0 else top / bot.

(** The two terms of a row are added to the running sum one after the
    other. *)
Definition col_kl (c1 c2 : list R) : R :=
  fold_left (fun acc ab =>
               acc + fst ab * ln (fst ab / snd ab)
               + snd ab * ln (snd ab / fst ab))
            (combine c1 c2) 0
  * 0.5.

(** [left[i][j]] and [right[i][j]] of the ALLR functions, summed over [j].
    [bkg1[j]] and [bkg2[j]] run along the rows. *)
Definition col_allr (bkg1 bkg2 : list R) (nsites1 nsites2 : R)
    (c1 c2 : list R) : R :=
  let left := map (fun x => (snd (fst x) * nsites2) * ln (fst (fst x) / snd x))
                  (combine (combine c1 c2) bkg1) in
  let right := map (fun x => (fst (fst x) * nsites1) * ln (snd (fst x) / snd x))
                   (combine (combine c1 c2) bkg2) in
  (0 + accumulate left + accumulate right) / (nsites1 + nsites2).

Definition col_allr_ll (bkg1 bkg2 : list R) (nsites1 nsites2 : R)
    (c1 c2 : list R) : R :=
  let a := col_allr bkg1 bkg2 nsites1 nsites2 c1 c2 in
  if Rltb a (-2) then -2 else a.

Definition col_sw (c1 c2 : list R) : R :=
  2 - sum_rows (fun a b => Rsqr (a - b)) c1 c2.

Definition compare_hell := compare_with col_hell.
Definition compare_is := compare_with col_is.
Definition compare_seucl := compare_with col_seucl.
Definition compare_man := compare_with col_man.
Definition compare_bhat := compare_with col_bhat.
Definition compare_eucl := compare_with col_eucl.
Definition compare_pcc := compare_with col_pcc.
Definition compare_kl := compare_with col_kl.
Definition compare_sw := compare_with col_sw.

Definition compare_allr (mot1 mot2 : motif) (bkg1 bkg2 : list R)
    (nsites1 nsites2 : R) (strat : string) : option R :=
  compare_with (col_allr bkg1 bkg2 nsites1 nsites2) mot1 mot2 strat.

Definition compare_allr_ll (mot1 mot2 : motif) (bkg1 bkg2 : list R)
    (nsites1 nsites2 : R) (strat : string) : option R :=
  compare_with (col_allr_ll bkg1 bkg2 nsites1 nsites2) mot1 mot2 strat.

(** ** Smoothing *)

(** [mot[i][j] += 0.01] for [j < mot[0].size()]. *)
Definition klfix (mot : motif) : motif :=
  let nrow := length (nth 0 mot []) in
  map (fun col => map (fun x => x + 0.01) (firstn nrow col) ++ skipn nrow col)
      mot.

Definition bkgfix (bkg : list R) : list R :=
  let fix_ := existsb (fun x => Reqb x 0) bkg in
  if fix_ then map (fun x => x + 0.01 * (1 / INR (length bkg))) bkg else bkg.

Definition fix_mot_bkg_zeros (mot : motif) (bkg : list R) (method : string)
    : motif * list R :=
  match enum_get METRICS_enum method with
  | 2%Z | 4%Z | 9%Z | 11%Z => (klfix mot, bkgfix bkg)
  | _ => (mot, bkg)
  end.

(** ** Column equalizer *)

(** Conversion of a non-negative [double] to [std::size_t]: truncation. *)
Definition to_size_t (x : R) : nat := Z.to_nat (Int_part x).

(** [overlap1], [overlap2]. *)
Definition overlap_targets (overlap : R) (ncol1 ncol2 : nat) : nat * nat :=
  if Rltb overlap 1
  then (to_size_t (overlap * INR ncol1), to_size_t (overlap * INR ncol2))
  else (to_size_t overlap, to_size_t overlap).

(** [overlap_k > ncol_other ? 0 : ncol_other - overlap_k]. *)
Definition ncol_toadd (overlap_k ncol_other : nat) : nat :=
  if (ncol_other <? overlap_k)%nat then 0%nat else (ncol_other - overlap_k)%nat.

Definition padding_col (nrow : nat) : list R := repeat (-1) nrow.

(** [newmot(toadd * 2 + ncol, vec_num_t(nrow, -1.0))] with the motif's
    columns assigned at [toadd .. toadd + ncol - 1]. *)
Definition pad_motif (nrow toadd : nat) (mot : motif) : motif :=
  repeat (padding_col nrow) toadd ++ mot ++ repeat (padding_col nrow) toadd.

(** [newic(toadd * 2 + ncol, 0.0)] with the motif's values (one per
    column) in the middle. *)
Definition pad_ic (toadd : nat) (ic : list R) : list R :=
  repeat 0 toadd ++ ic ++ repeat 0 toadd.

Definition equalize_mot_cols (mot1 mot2 : motif) (ic1 ic2 : list R)
    (overlap : R) : motif * motif * list R * list R :=
  let nrow := length (nth 0 mot1 []) in
  let ncol1 := length mot1 in
  let ncol2 := length mot2 in
  let (overlap1, overlap2) := overlap_targets overlap ncol1 ncol2 in
  let ncol1_toadd := ncol_toadd overlap1 ncol2 in
  let ncol2_toadd := ncol_toadd overlap2 ncol1 in
  if ((ncol1_toadd =? 0) || (ncol2_toadd =? 0))%nat then (mot1, mot2, ic1, ic2)
  else if (ncol1 <? ncol2)%nat
  then (pad_motif nrow ncol1_toadd mot1, mot2, pad_ic ncol1_toadd ic1, ic2)
  else (mot1, pad_motif nrow ncol2_toadd mot2, ic1, pad_ic ncol2_toadd ic2).

(** ** Information content *)

Definition log2 (x : R) : R := ln x / ln 2.

Definition internal_posIC (pos bkg : list R) (type : Z) (relative : bool) : R :=
  if (type =? 2)%Z then accumulate pos
  else if relative then
    accumulate
      (map (fun pb =>
              let tmp := fst pb / snd pb in
              let v := fst pb * (if Rleb 0 tmp then log2 tmp else 0) in
              if Rltb v 0 then 0 else v)
           (combine pos bkg))
  else
    let heights := map (fun p => if Rltb 0 p then - p * log2 p else 0) pos in
    log2 (INR (length pos)) - accumulate heights.

Definition calc_ic_motif (mot : motif) (bkg : list R) (relative : bool)
    : list R :=
  map (fun col => internal_posIC col bkg 1 relative) mot.

(** [out] and [counter] after the loop of [calc_mic]. *)
Definition mic_sums (tic : list R) : R * nat :=
  fold_left (fun st x => if Rleb 0 x then (fst st + x, S (snd st)) else st)
            tic (0, 0%nat).

(** [out / double(counter)].  With [counter == 0] this is [0.0 / 0.0], a
    NaN, given here as [None]: what matters of it is that [NaN < minic] is
    false. *)
Definition calc_mic (tic : list R) : option R :=
  let (out, counter) := mic_sums tic in
  if (counter =? 0)%nat then None else Some (out / INR counter).

Definition mic_below (mic : option R) (minic : R) : bool :=
  match mic with
  | Some m => Rltb m minic
  | None => false
  end.

(** ** Alignment search *)

Definition get_alignlen (mot1 mot2 : motif) : nat :=
  count_true (good_mask mot1 mot2).

Definition get_motif_rc (mot : motif) : motif := map (@rev R) (rev mot).

(** One side of [fix_lowic_pos]: a column whose IC is under [posic] gets
    -1.0 in its first [nrow] entries and -1.0 as its IC. *)
Definition fix_lowic_side (nrow : nat) (posic : R) (tmot : motif)
    (tic : list R) : motif * list R :=
  split (map (fun ci => if Rltb (snd ci) posic
                        then (padding_col nrow ++ skipn nrow (fst ci), -1)
                        else ci)
             (combine tmot tic)).

Definition fix_lowic_pos (tmot1 tmot2 : motif) (tic1 tic2 : list R)
    (posic : R) : motif * motif * list R * list R :=
  let nrow := length (nth 0 tmot1 []) in
  let (m1, i1) := fix_lowic_side nrow posic tmot1 tic1 in
  let (m2, i2) := fix_lowic_side nrow posic tmot2 tic2 in
  (m1, m2, i1, i2).

Definition is_distance (code : Z) : bool := ((1 <=? code) && (code <=? 6))%Z.
Definition is_similarity (code : Z) : bool := ((7 <=? code) && (code <=? 11))%Z.

(** The value [get_compare_ans] stores in [ans[i]].  [ans] is created
    value-initialised, so a method outside the table leaves 0.0 there.  The
    metric is not evaluated when [lowic] holds.  The C++ function also
    takes [norm], which it does not read: the caller has already put the
    choice into [alignlen]. *)
Definition get_compare_ans (tmot1 tmot2 : motif) (lowic : bool)
    (alignlen tlen : nat) (method : string) (nsites1 nsites2 : R)
    (bkg1 bkg2 : list R) (strat : string) : option R :=
  let up s := s * INR tlen / INR alignlen in
  let down s := s * INR alignlen / INR tlen in
  let dist f k := if lowic then Some dbl_max else (s <-? f ;; Some (k s)) in
  let simi f k := if lowic then Some (- dbl_max) else (s <-? f ;; Some (k s)) in
  match enum_get METRICS_enum method with
  | 1%Z => dist (compare_eucl tmot1 tmot2 strat) up
  | 2%Z => dist (compare_kl tmot1 tmot2 strat) up
  | 7%Z => simi (compare_pcc tmot1 tmot2 strat) down
  | 8%Z => simi (compare_sw tmot1 tmot2 strat) down
  | 9%Z => simi (compare_allr tmot1 tmot2 bkg1 bkg2 nsites1 nsites2 strat) down
  | 10%Z => simi (compare_bhat tmot1 tmot2 strat) down
  | 3%Z => dist (compare_hell tmot1 tmot2 strat) down
  | 4%Z => dist (compare_is tmot1 tmot2 strat) down
  | 5%Z => dist (compare_seucl tmot1 tmot2 strat) down
  | 6%Z => dist (compare_man tmot1 tmot2 strat) down
  | 11%Z => simi (compare_allr_ll tmot1 tmot2 bkg1 bkg2 nsites1 nsites2 strat)
                 down
  | _ => Some 0
  end.

(** [std::min_element]: the position of the first smallest element;
    [best] is the current position and value, [i] the position of the head
    of [rest]. *)
Fixpoint min_element_from (rest : list R) (i best : nat) (bestv : R) : nat :=
  match rest with
  | [] => best
  | x :: t => if Rltb x bestv then min_element_from t (S i) i x
              else min_element_from t (S i) best bestv
  end.

Fixpoint max_element_from (rest : list R) (i best : nat) (bestv : R) : nat :=
  match rest with
  | [] => best
  | x :: t => if Rltb bestv x then max_element_from t (S i) i x
              else max_element_from t (S i) best bestv
  end.

Definition min_element (v : list R) : nat :=
  match v with
  | [] => 0%nat
  | x :: t => min_element_from t 1 0 x
  end.

Definition max_element (v : list R) : nat :=
  match v with
  | [] => 0%nat
  | x :: t => max_element_from t 1 0 x
  end.

Definition return_best_ans_which (ans : list R) (method : string) : Z :=
  let code := enum_get METRICS_enum method in
  if is_distance code then Z.of_nat (min_element ans)
  else if is_similarity code then Z.of_nat (max_element ans)
  else (-1)%Z.

(** [*std::min_element(...)]; [ans] is never empty. *)
Definition return_best_ans (ans : list R) (method : string) : R :=
  let code := enum_get METRICS_enum method in
  if is_distance code then nth (min_element ans) ans 0
  else if is_similarity code then nth (max_element ans) ans 0
  else -1111.0.

(** [tmot[k] = mot[k + i]] for [k < minw]. *)
Definition window {A : Type} (i minw : nat) (v : list A) : list A :=
  firstn minw (skipn i v).

(** The pairs [(i, j)] in the order of the two nested loops. *)
Definition offsets (fori forj : nat) : list (nat * nat) :=
  flat_map (fun i => map (fun j => (i, j)) (seq 0 forj)) (seq 0 fori).

(** The two windows and their IC values as the body of the loops has
    them after [fix_lowic_pos]. *)
Definition alignment_window (mot1 mot2 : motif) (ic1 ic2 : list R)
    (minw : nat) (posic : R) (ij : nat * nat)
    : motif * motif * list R * list R :=
  let tmot1 := window (fst ij) minw mot1 in
  let tmot2 := window (snd ij) minw mot2 in
  let tic1 := window (fst ij) minw ic1 in
  let tic2 := window (snd ij) minw ic2 in
  if Rltb 0 posic then fix_lowic_pos tmot1 tmot2 tic1 tic2 posic
  else (tmot1, tmot2, tic1, tic2).

(** One pass of the loop body: the score stored at [ans[counter]]. *)
Definition alignment_score (mot1 mot2 : motif) (ic1 ic2 : list R)
    (minw tlen : nat) (method : string) (minic : R) (norm : bool) (posic : R)
    (bkg1 bkg2 : list R) (nsites1 nsites2 : R) (strat : string)
    (ij : nat * nat) : option R :=
  let '(tmot1, tmot2, tic1, tic2) :=
    alignment_window mot1 mot2 ic1 ic2 minw posic ij in
  let alignlen := if norm then get_alignlen tmot1 tmot2 else tlen in
  let mic1 := calc_mic tic1 in
  let mic2 := calc_mic tic2 in
  let lowic := mic_below mic1 minic || mic_below mic2 minic in
  get_compare_ans tmot1 tmot2 lowic alignlen tlen method nsites1 nsites2
    bkg1 bkg2 strat.

Fixpoint map_opt {A B : Type} (f : A -> option B) (l : list A)
    : option (list B) :=
  match l with
  | [] => Some []
  | a :: t => b <-? f a ;; bs <-? map_opt f t ;; Some (b :: bs)
  end.

(** The scores of all offsets, in loop order: [ans[0 .. fori * forj - 1]]
    when the loops are done. *)
Definition alignment_scores (mot1 mot2 : motif) (method : string)
    (moverlap : R) (ic1 ic2 : list R) (minic : R) (norm : bool) (posic : R)
    (bkg1 bkg2 : list R) (nsites1 nsites2 : R) (strat : string)
    : option (list R) :=
  let tlen := Nat.max (length mot1) (length mot2) in
  let '(mot1, mot2, ic1, ic2) := equalize_mot_cols mot1 mot2 ic1 ic2 moverlap in
  let minw := Nat.min (length mot1) (length mot2) in
  let fori := (1 + length mot1 - minw)%nat in
  let forj := (1 + length mot2 - minw)%nat in
  map_opt (alignment_score mot1 mot2 ic1 ic2 minw tlen method minic norm
             posic bkg1 bkg2 nsites1 nsites2 strat)
          (offsets fori forj).

(** The array [ans] of [compare_motif_pair] just before
    [return_best_ans], and the value returned.  The function calls itself
    for the reverse complement, passing [RC = false]; [depth] bounds the
    nesting of calls ([None] when it is used up). *)
Fixpoint compare_motif_pair_rec (depth : nat) (mot1 mot2 : motif)
    (method : string) (moverlap : R) (RC : bool) (ic1 ic2 : list R)
    (minic : R) (norm : bool) (posic : R) (bkg1 bkg2 : list R)
    (nsites1 nsites2 : R) (strat : string) : option (list R * R) :=
  match depth with
  | O => None
  | S depth' =>
      ans_rc <-? (if RC then
                    r <-? compare_motif_pair_rec depth' mot1
                            (get_motif_rc mot2) method moverlap false ic1
                            (rev ic2) minic norm posic bkg1 bkg2 nsites1
                            nsites2 strat ;;
                    Some [snd r]
                  else Some []) ;;
      ans <-? alignment_scores mot1 mot2 method moverlap ic1 ic2 minic norm
                posic bkg1 bkg2 nsites1 nsites2 strat ;;
      Some (ans ++ ans_rc, return_best_ans (ans ++ ans_rc) method)
  end.

(** Two levels are all the code can use: the outer call and the one for
    the reverse complement. *)
Definition compare_motif_pair_ans (mot1 mot2 : motif) (method : string)
    (moverlap : R) (RC : bool) (ic1 ic2 : list R) (minic : R) (norm : bool)
    (posic : R) (bkg1 bkg2 : list R) (nsites1 nsites2 : R) (strat : string)
    : option (list R) :=
  option_map fst
    (compare_motif_pair_rec 2 mot1 mot2 method moverlap RC ic1 ic2 minic norm
       posic bkg1 bkg2 nsites1 nsites2 strat).

Definition compare_motif_pair (mot1 mot2 : motif) (method : string)
    (moverlap : R) (RC : bool) (ic1 ic2 : list R) (minic : R) (norm : bool)
    (posic : R) (bkg1 bkg2 : list R) (nsites1 nsites2 : R) (strat : string)
    : option R :=
  option_map snd
    (compare_motif_pair_rec 2 mot1 mot2 method moverlap RC ic1 ic2 minic norm
       posic bkg1 bkg2 nsites1 nsites2 strat).

(** ** Merger *)

Definition is_padding (col : list R) : bool := Rltb (col0 col) 0.

(** Columns that are padding in both motifs are not pushed. *)
Definition get_merged_motif (mot1 mot2 : motif) (weight : Z) : motif :=
  flat_map
    (fun cc =>
       let c1 := fst cc in
       let c2 := snd cc in
       if is_padding c1 && is_data c2 then [c2]
       else if is_padding c2 && is_data c1 then [c1]
       else if is_data c1 && is_data c2 then
         [map (fun ab => (fst ab * IZR weight + snd ab) / (IZR weight + 1))
              (combine c1 c2)]
       else [])
    (combine mot1 mot2).

(** The offsets' scores as [merge_motif_pair_subworker] collects them (the
    same loops as in [compare_motif_pair], without a reverse-complement
    slot), and its two results [score] and [offset]. *)
Definition merge_motif_pair_subworker (mot1 mot2 : motif) (method : string)
    (minoverlap : R) (ic1 ic2 : list R) (norm : bool) (posic minic : R)
    (nsites1 nsites2 : R) (bkg1 bkg2 : list R) (strat : string)
    : option (R * Z) :=
  ans <-? alignment_scores mot1 mot2 method minoverlap ic1 ic2 minic norm
            posic bkg1 bkg2 nsites1 nsites2 strat ;;
  Some (return_best_ans ans method, return_best_ans_which ans method).

(** [out(tlen, padding)] with [mot] written at [add .. add + size - 1];
    [None] when a write falls outside [out]. *)
Definition add_motif_columns (mot : motif) (tlen : nat) (add : Z)
    : option motif :=
  let nrow := length (nth 0 mot []) in
  if ((0 <=? add) && (add + Z.of_nat (length mot) <=? Z.of_nat tlen))%Z then
    Some (repeat (padding_col nrow) (Z.to_nat add) ++ mot
          ++ repeat (padding_col nrow) (tlen - Z.to_nat add - length mot))
  else None.

Definition both_padding (cc : list R * list R) : bool :=
  is_padding (fst cc) && is_padding (snd cc).

(** First loop of [trim_both_motifs]: [cols] are the columns from index
    [i] on; the result is [(mlen, tleft)].  The bound [mlen] shrinks while
    [i] grows. *)
Fixpoint trim_left_loop (cols : list (list R * list R)) (i mlen tleft : Z)
    : Z * Z :=
  match cols with
  | [] => (mlen, tleft)
  | cc :: rest =>
      if (i <? mlen)%Z then
        if both_padding cc then trim_left_loop rest (i + 1) (mlen - 1) (tleft + 1)
        else (mlen, tleft)
      else (mlen, tleft)
  end.

(** Second loop: [cols_down] are the columns at [mlen - 1], [mlen - 2],
    ..., 0 for the [mlen] the first loop left. *)
Fixpoint trim_right_loop (cols_down : list (list R * list R)) (mlen : Z) : Z :=
  match cols_down with
  | [] => mlen
  | cc :: rest => if both_padding cc then trim_right_loop rest (mlen - 1)
                  else mlen
  end.

Definition trim_both_motifs (m1 m2 : motif) : motif * motif :=
  let cols := combine m1 m2 in
  let (mlen1, tleft) := trim_left_loop cols 0 (Z.of_nat (length m1)) 0 in
  let mlen := trim_right_loop (rev (firstn (Z.to_nat mlen1) cols)) mlen1 in
  if (0 <? mlen)%Z then
    (firstn (Z.to_nat mlen) (skipn (Z.to_nat tleft) m1),
     firstn (Z.to_nat mlen) (skipn (Z.to_nat tleft) m2))
  else (m1, m2).

(** [offset % size - offset / size], the shift handed to
    [add_motif_columns]. *)
Definition offset_shift (offset : Z) (size : nat) : Z :=
  (offset mod Z.of_nat size - offset / Z.of_nat size)%Z.

Definition merge_motif_pair (mot1 mot2 : motif) (method : string)
    (minoverlap : R) (RC : bool) (ic1 ic2 : list R) (weight : Z)
    (norm : bool) (posic minic : R) (nsites1 nsites2 : R)
    (bkg1 bkg2 : list R) (strat : string) : option motif :=
  fwd <-? merge_motif_pair_subworker mot1 mot2 method minoverlap ic1 ic2 norm
            posic minic nsites1 nsites2 bkg1 bkg2 strat ;;
  chosen <-? (if RC then
                let rcmot2 := get_motif_rc mot2 in
                rc <-? merge_motif_pair_subworker mot1 rcmot2 method minoverlap
                         ic1 (rev ic2) norm posic minic nsites1 nsites2 bkg1
                         bkg2 strat ;;
                Some (if Rltb (fst fwd) (fst rc) then (snd rc, rcmot2)
                      else (snd fwd, mot2))
              else Some (snd fwd, mot2)) ;;
  let offset := fst chosen in
  let '(mot1, mot2, _, _) :=
    equalize_mot_cols mot1 (snd chosen) ic1 ic2 minoverlap in
  aligned <-? (if (length mot2 <? length mot1)%nat then
                 m <-? add_motif_columns mot2 (length mot1)
                         (offset_shift offset (length mot1)) ;;
                 Some (mot1, m)
               else if (length mot1 <? length mot2)%nat then
                 m <-? add_motif_columns mot1 (length mot2)
                         (offset_shift offset (length mot2)) ;;
                 Some (m, mot2)
               else Some (mot1, mot2)) ;;
  let (m1, m2) := trim_both_motifs (fst aligned) (snd aligned) in
  Some (get_merged_motif m1 m2 weight).

(** ** Entry points *)

(** [vmots[i] = ...; fix_mot_bkg_zeros(vmots[i], bkg[i], method)] for every
    motif; [Stop] on an empty one.  [mots] and [bkg] have the same length. *)
Fixpoint prepare_motifs (who : string) (mots : list motif)
    (bkg : list (list R)) (method : string)
    : outcome (list motif * list (list R)) :=
  match mots, bkg with
  | m :: ms, b :: bs =>
      if (length m =? 0)%nat then Stop who
      else
        rest <-- prepare_motifs who ms bs method ;;
        let (m', b') := fix_mot_bkg_zeros m b method in
        Ret (m' :: fst rest, b' :: snd rest)
  | _, _ => Ret ([], [])
  end.

Definition icscores_of (vmots : list motif) (bkg : list (list R)) (type : Z)
    (relative : bool) : list (list R) :=
  map (fun mb => map (fun col => internal_posIC col (snd mb) type relative)
                     (fst mb))
      (combine vmots bkg).

Definition lift {A : Type} (o : option A) : outcome A :=
  match o with
  | Some a => Ret a
  | None => OutOfBounds
  end.

Fixpoint map_out {A B : Type} (f : A -> outcome B) (l : list A)
    : outcome (list B) :=
  match l with
  | [] => Ret []
  | a :: t => b <-- f a ;; bs <-- map_out f t ;; Ret (b :: bs)
  end.

Definition check_common (type : Z) (minic posic : R) (mots : list motif)
    (bkg : list (list R)) : outcome unit :=
  if negb ((type =? 1) || (type =? 2))%Z then Stop "type must be 1 or 2"
  else if Rltb minic 0 then Stop "min.mean.ic must be positive"
  else if Rltb posic 0 then Stop "min.position.ic must be positive"
  else if (length mots =? 0)%nat then Stop "empty motif list"
  else if (length bkg =? 0)%nat then Stop "empty bkg list"
  else if negb (length mots =? length bkg)%nat
       then Stop "different motif and bkg lengths"
  else Ret tt.

(** The tasks of [RcppThread::parallelFor] write disjoint slots and read
    shared data only, so the result is that of running them in order. *)
Definition compare_motifs_cpp (mots : list motif) (index1 index2 : list Z)
    (method : string) (minoverlap : R) (RC : bool) (bkg : list (list R))
    (type : Z) (relative : bool) (minic : R) (norm : bool) (posic : R)
    (nsites : list R) (strat : string) : outcome (list R) :=
  let minoverlap := if Rltb minoverlap 0 then 1 else minoverlap in
  _ <-- check_common type minic posic mots bkg ;;
  if negb (length index1 =? length index2)%nat
  then Stop "lengths of indices do not match [compare_motifs_cpp()]"
  else
    prep <-- prepare_motifs "encountered an empty motif [compare_motifs_cpp()]"
               mots bkg method ;;
    let vmots := fst prep in
    let bkg := snd prep in
    let icscores := icscores_of vmots bkg type relative in
    map_out
      (fun ii =>
         let i1 := fst ii in
         let i2 := snd ii in
         m1 <-- at_int vmots i1 ;;
         m2 <-- at_int vmots i2 ;;
         ic1 <-- at_int icscores i1 ;;
         ic2 <-- at_int icscores i2 ;;
         b1 <-- at_int bkg i1 ;;
         b2 <-- at_int bkg i1 ;;
         n1 <-- at_int nsites i1 ;;
         n2 <-- at_int nsites i2 ;;
         lift (compare_motif_pair m1 m2 method minoverlap RC ic1 ic2 minic
                 norm posic b1 b2 n1 n2 strat))
      (combine index1 index2).

(** [answers[i]] holds the scores of motif [i] against motifs [i], [i+1],
    ... *)
Definition compare_motifs_all_cpp (mots : list motif) (method : string)
    (minoverlap : R) (RC : bool) (bkg : list (list R)) (type : Z)
    (relative : bool) (minic : R) (norm : bool) (posic : R) (nsites : list R)
    (strat : string) : outcome (list (list R)) :=
  let minoverlap := if Rltb minoverlap 0 then 1 else minoverlap in
  _ <-- check_common type minic posic mots bkg ;;
  prep <-- prepare_motifs "encountered an empty motif [compare_motifs_all_cpp()]"
             mots bkg method ;;
  let vmots := fst prep in
  let bkg := snd prep in
  let icscores := icscores_of vmots bkg type relative in
  map_out
    (fun i =>
       map_out
         (fun j =>
            m1 <-- at_nat vmots i ;;
            m2 <-- at_nat vmots j ;;
            ic1 <-- at_nat icscores i ;;
            ic2 <-- at_nat icscores j ;;
            b1 <-- at_nat bkg i ;;
            b2 <-- at_nat bkg j ;;
            n1 <-- at_nat nsites i ;;
            n2 <-- at_nat nsites j ;;
            lift (compare_motif_pair m1 m2 method minoverlap RC ic1 ic2 minic
                    norm posic b1 b2 n1 n2 strat))
         (seq i (length vmots - i)))
    (seq 0 (length vmots)).

Definition compare_columns_cpp (p1 p2 b1 b2 : list R) (n1 n2 : R)
    (m : string) : outcome R :=
  if (length p1 <? 2)%nat then Stop "columns should have at least 2 entries"
  else if negb (length p1 =? length p2)%nat
       then Stop "both columns must be equal in size"
  else
    let pp1 := [p1] in
    let pp2 := [p2] in
    let allr_checks (k : outcome R) : outcome R :=
      if negb (length b1 =? length p1)%nat || negb (length b2 =? length p1)%nat
      then Stop "incorrect background vector length"
      else if Rleb n1 1 || Rleb n2 1
           then Stop "nsites1/nsites2 should be greater than 1"
      else k in
    match enum_get METRICS_enum m with
    | 1%Z => lift (compare_eucl pp1 pp2 "sum")
    | 2%Z => lift (compare_kl pp1 pp2 "sum")
    | 7%Z => lift (compare_pcc pp1 pp2 "sum")
    | 8%Z => lift (compare_sw pp1 pp2 "sum")
    | 9%Z => allr_checks (lift (compare_allr pp1 pp2 b1 b2 n1 n2 "sum"))
    | 10%Z => lift (compare_bhat pp1 pp2 "sum")
    | 3%Z => lift (compare_hell pp1 pp2 "sum")
    | 4%Z => lift (compare_is pp1 pp2 "sum")
    | 5%Z => lift (compare_seucl pp1 pp2 "sum")
    | 6%Z => lift (compare_man pp1 pp2 "sum")
    | 11%Z => allr_checks (lift (compare_allr_ll pp1 pp2 b1 b2 n1 n2 "sum"))
    | _ => Stop "unknown metric"
    end.

(** ** Further functions of the merger and of the entry points *)

(** [newbkg[i] = (bkg1[i] * weight + bkg2[i]) / (weight + 1)] for
    [i < bkg1.size()]; [None] when [bkg2] is the shorter one and is read
    past its end. *)
Definition merge_bkg_pair (bkg1 bkg2 : list R) (weight : Z)
    : option (list R) :=
  if (length bkg1 <=? length bkg2)%nat then
    Some (map (fun ab => (fst ab * IZR weight + snd ab) / (IZR weight + 1))
              (combine bkg1 bkg2))
  else None.

(** [if (mot[i][j] < 0) mot[i][j] = 0] for [j < mot[0].size()]. *)
Definition neg_one_to_zero (mot : motif) : motif :=
  let nrow := length (nth 0 mot []) in
  map (fun col => map (fun x => if Rltb x 0 then 0 else x) (firstn nrow col)
                  ++ skipn nrow col)
      mot.

(** The number of leading columns with [m[i][0] < 0]. *)
Fixpoint count_left_empty (m : motif) : nat :=
  match m with
  | [] => 0%nat
  | col :: rest => if is_padding col then S (count_left_empty rest) else 0%nat
  end.


(** A square [Rcpp::NumericMatrix]: its side and its cells.  [operator()]
    does not check its indices; a cell outside the matrix is reported as
    [OutOfBounds]. *)
Record matrix := { side : nat; cell : nat -> nat -> R }.

Definition matrix_zero (n : nat) : matrix :=
  {| side := n; cell := fun _ _ => 0 |}.

Definition matrix_set (m : matrix) (i j : Z) (v : R) : outcome matrix :=
  if ((0 <=? i) && (i <? Z.of_nat (side m)) && (0 <=? j)
      && (j <? Z.of_nat (side m)))%Z
  then Ret {| side := side m;
              cell := fun a b =>
                        if ((a =? Z.to_nat i) && (b =? Z.to_nat j))%nat
                        then v else cell m a b |}
  else OutOfBounds.

(** The loop of [get_comparison_matrix] from position [i] on: [rest] holds
    [ans[i], ans[i+1], ...]. *)
Fixpoint comparison_matrix_loop (rest : list R) (index1 index2 : list Z)
    (i : nat) (out : matrix) : outcome matrix :=
  match rest with
  | [] => Ret out
  | a :: rest' =>
      i1 <-- at_nat index1 i ;;
      i2 <-- at_nat index2 i ;;
      out1 <-- matrix_set out i1 i2 a ;;
      out2 <-- matrix_set out1 i2 i1 a ;;
      comparison_matrix_loop rest' index1 index2 (S i) out2
  end.

(** [motnames] enters by its length only (the names label the rows and
    columns). *)
Definition get_comparison_matrix (ans : list R) (index1 index2 : list Z)
    (nnames : nat) : outcome matrix :=
  comparison_matrix_loop ans index1 index2 0 (matrix_zero nnames).

(** The first loop of [view_motifs_prep] and [merge_motifs_cpp]: as
    [prepare_motifs], but these two entry points do not compare the lengths
    of [mots] and [bkg] beforehand, so [bkg[i]] can be a read past the
    end.  Entries of [bkg] beyond the motifs stay as they are. *)
Fixpoint prepare_motifs_unchecked (who : string) (mots : list motif)
    (bkg : list (list R)) (method : string)
    : outcome (list motif * list (list R)) :=
  match mots with
  | [] => Ret ([], bkg)
  | m :: ms =>
      if (length m =? 0)%nat then Stop who
      else
        match bkg with
        | [] => OutOfBounds
        | b :: bs =>
            rest <-- prepare_motifs_unchecked who ms bs method ;;
            let (m', b') := fix_mot_bkg_zeros m b method in
            Ret (m' :: fst rest, b' :: snd rest)
        end
  end.

(** The state of the fold of [merge_motifs_cpp]: [merged], [mergedbkg],
    [mergedic], [weight] and [nnsites]. *)
Record merge_state := {
  ms_merged : motif;
  ms_bkg : list R;
  ms_ic : list R;
  ms_weight : Z;
  ms_nsites : R
}.

(** One pass of [for (i = 2; ...)]: [mot], [ic], [bkg], [nsites] are
    [vmots[i]], [icscores[i]], [bkg[i]], [nsites[i]]. *)
Definition merge_step (method : string) (minoverlap : R) (RC : bool)
    (norm : bool) (posic minic : R) (relative : bool) (strat : string)
    (st : merge_state) (mot : motif) (ic bkg : list R) (nsites : R)
    : option merge_state :=
  let weight := (ms_weight st + 1)%Z in
  merged <-? merge_motif_pair (ms_merged st) mot method minoverlap RC
               (ms_ic st) ic weight norm posic minic (ms_nsites st) nsites
               (ms_bkg st) bkg strat ;;
  mergedbkg <-? merge_bkg_pair (ms_bkg st) bkg weight ;;
  Some {| ms_merged := merged;
          ms_bkg := mergedbkg;
          ms_ic := calc_ic_motif merged mergedbkg relative;
          ms_weight := weight;
          ms_nsites := ms_nsites st + nsites |}.

(** The loop from index [i] on; [rest] holds [vmots[i], vmots[i+1], ...]. *)
Fixpoint merge_fold (method : string) (minoverlap : R) (RC : bool)
    (norm : bool) (posic minic : R) (relative : bool) (strat : string)
    (icscores bkg : list (list R)) (nsites : list R) (rest : list motif)
    (i : nat) (st : merge_state) : outcome merge_state :=
  match rest with
  | [] => Ret st
  | mot :: rest' =>
      ic <-- at_nat icscores i ;;
      ns <-- at_nat nsites i ;;
      b <-- at_nat bkg i ;;
      st' <-- lift (merge_step method minoverlap RC norm posic minic relative
                      strat st mot ic b ns) ;;
      merge_fold method minoverlap RC norm posic minic relative strat
        icscores bkg nsites rest' (S i) st'
  end.

Definition merge_motifs_cpp (mots : list motif) (method : string) (RC : bool)
    (minoverlap minic posic : R) (bkg : list (list R)) (relative norm : bool)
    (nsites : list R) (strat : string) : outcome (motif * list R) :=
  let minoverlap := if Rltb minoverlap 0 then 1 else minoverlap in
  if Rltb minic 0 then Stop "min.mean.ic must be positive"
  else if Rltb posic 0 then Stop "min.position.ic must be positive"
  else if (length mots =? 0)%nat then Stop "empty motif list"
  else
    prep <-- prepare_motifs_unchecked
               "encountered an empty motif [compare_motifs_all_cpp()]"
               mots bkg method ;;
    let vmots := fst prep in
    let bkg := snd prep in
    let icscores := icscores_of vmots bkg 1 relative in
    n0 <-- at_nat nsites 0 ;;
    n1 <-- at_nat nsites 1 ;;
    m0 <-- at_nat vmots 0 ;;
    m1 <-- at_nat vmots 1 ;;
    ic0 <-- at_nat icscores 0 ;;
    ic1 <-- at_nat icscores 1 ;;
    b0 <-- at_nat bkg 0 ;;
    b1 <-- at_nat bkg 1 ;;
    merged <-- lift (merge_motif_pair m0 m1 method minoverlap RC ic0 ic1 1
                       norm posic minic n0 n1 b0 b1 strat) ;;
    mergedbkg <-- lift (merge_bkg_pair b0 b1 1) ;;
    st <-- merge_fold method minoverlap RC norm posic minic relative strat
             icscores bkg nsites (skipn 2 vmots) 2
             {| ms_merged := merged;
                ms_bkg := mergedbkg;
                ms_ic := calc_ic_motif merged mergedbkg relative;
                ms_weight := 1;
                ms_nsites := n0 + n1 |} ;;
    Ret (ms_merged st, ms_bkg st).

(** ** Scores that are no numbers

    In the definitions above a [double] is a real number, and a quotient
    by [0.0] is the real number [x * / 0].  This section gives
    [calc_final_score], [get_compare_ans], [return_best_ans] and
    [compare_motif_pair] once more, with the values of a [double] that are
    no numbers at the two places where these functions divide by a number
    of columns: the quotient of "a.mean" and the scaling of a score by
    [tlen] and [alignlen]. *)

Inductive score : Type :=
| Number (x : R)
| Infinite (negative : bool)
| NaN.

(** [x / double(n)]: [0.0 / 0.0] is a NaN, another quotient by [0.0] an
    infinity. *)
Definition quotient (x : R) (n : nat) : score :=
  if (n =? 0)%nat then
    if Reqb x 0 then NaN else Infinite (Rltb x 0)
  else Number (x / INR n).

(** [s * double(a) / double(b)]. *)
Definition scaled (s : score) (a b : nat) : score :=
  match s with
  | Number x => quotient (x * INR a) b
  | Infinite negative => if (a =? 0)%nat then NaN else Infinite negative
  | NaN => NaN
  end.

(** [a < b] on doubles: it is false when one of them is a NaN. *)
Definition score_lt (a b : score) : bool :=
  match a, b with
  | Number x, Number y => Rltb x y
  | Number _, Infinite negative => negb negative
  | Infinite negative, Number _ => negative
  | Infinite na, Infinite nb => na && negb nb
  | _, _ => false
  end.

Definition score_amean_x (scores : list R) (n : nat) : score :=
  quotient (accumulate scores) n.

Definition calc_final_score_x (scores : list R) (strat : string) (n : nat)
    (good : list bool) : option score :=
  match enum_get SCORESTRAT_enum strat with
  | 2%Z => Some (score_amean_x scores n)
  | _ => option_map Number (calc_final_score scores strat n good)
  end.

Definition compare_with_x (f : list R -> list R -> R) (mot1 mot2 : motif)
    (strat : string) : option score :=
  let good := good_mask mot1 mot2 in
  calc_final_score_x (per_column f mot1 mot2) strat (count_true good) good.

Definition get_compare_ans_x (tmot1 tmot2 : motif) (lowic : bool)
    (alignlen tlen : nat) (method : string) (nsites1 nsites2 : R)
    (bkg1 bkg2 : list R) (strat : string) : option score :=
  let up s := scaled s tlen alignlen in
  let down s := scaled s alignlen tlen in
  let dist f k :=
    if lowic then Some (Number dbl_max)
    else (s <-? compare_with_x f tmot1 tmot2 strat ;; Some (k s)) in
  let simi f k :=
    if lowic then Some (Number (- dbl_max))
    else (s <-? compare_with_x f tmot1 tmot2 strat ;; Some (k s)) in
  match enum_get METRICS_enum method with
  | 1%Z => dist col_eucl up
  | 2%Z => dist col_kl up
  | 7%Z => simi col_pcc down
  | 8%Z => simi col_sw down
  | 9%Z => simi (col_allr bkg1 bkg2 nsites1 nsites2) down
  | 10%Z => simi col_bhat down
  | 3%Z => dist col_hell down
  | 4%Z => dist col_is down
  | 5%Z => dist col_seucl down
  | 6%Z => dist col_man down
  | 11%Z => simi (col_allr_ll bkg1 bkg2 nsites1 nsites2) down
  | _ => Some (Number 0)
  end.

Fixpoint min_element_from_x (rest : list score) (i best : nat)
    (bestv : score) : nat :=
  match rest with
  | [] => best
  | x :: t => if score_lt x bestv then min_element_from_x t (S i) i x
              else min_element_from_x t (S i) best bestv
  end.

Fixpoint max_element_from_x (rest : list score) (i best : nat)
    (bestv : score) : nat :=
  match rest with
  | [] => best
  | x :: t => if score_lt bestv x then max_element_from_x t (S i) i x
              else max_element_from_x t (S i) best bestv
  end.

Definition min_element_x (v : list score) : nat :=
  match v with
  | [] => 0%nat
  | x :: t => min_element_from_x t 1 0 x
  end.

Definition max_element_x (v : list score) : nat :=
  match v with
  | [] => 0%nat
  | x :: t => max_element_from_x t 1 0 x
  end.

Definition return_best_ans_x (ans : list score) (method : string) : score :=
  let code := enum_get METRICS_enum method in
  if is_distance code then nth (min_element_x ans) ans (Number 0)
  else if is_similarity code then nth (max_element_x ans) ans (Number 0)
  else Number (-1111.0).

Definition alignment_score_x (mot1 mot2 : motif) (ic1 ic2 : list R)
    (minw tlen : nat) (method : string) (minic : R) (norm : bool) (posic : R)
    (bkg1 bkg2 : list R) (nsites1 nsites2 : R) (strat : string)
    (ij : nat * nat) : option score :=
  let '(tmot1, tmot2, tic1, tic2) :=
    alignment_window mot1 mot2 ic1 ic2 minw posic ij in
  let alignlen := if norm then get_alignlen tmot1 tmot2 else tlen in
  let mic1 := calc_mic tic1 in
  let mic2 := calc_mic tic2 in
  let lowic := mic_below mic1 minic || mic_below mic2 minic in
  get_compare_ans_x tmot1 tmot2 lowic alignlen tlen method nsites1 nsites2
    bkg1 bkg2 strat.

Definition alignment_scores_x (mot1 mot2 : motif) (method : string)
    (moverlap : R) (ic1 ic2 : list R) (minic : R) (norm : bool) (posic : R)
    (bkg1 bkg2 : list R) (nsites1 nsites2 : R) (strat : string)
    : option (list score) :=
  let tlen := Nat.max (length mot1) (length mot2) in
  let '(mot1, mot2, ic1, ic2) := equalize_mot_cols mot1 mot2 ic1 ic2 moverlap in
  let minw := Nat.min (length mot1) (length mot2) in
  let fori := (1 + length mot1 - minw)%nat in
  let forj := (1 + length mot2 - minw)%nat in
  map_opt (alignment_score_x mot1 mot2 ic1 ic2 minw tlen method minic norm
             posic bkg1 bkg2 nsites1 nsites2 strat)
          (offsets fori forj).

Fixpoint compare_motif_pair_rec_x (depth : nat) (mot1 mot2 : motif)
    (method : string) (moverlap : R) (RC : bool) (ic1 ic2 : list R)
    (minic : R) (norm : bool) (posic : R) (bkg1 bkg2 : list R)
    (nsites1 nsites2 : R) (strat : string) : option (list score * score) :=
  match depth with
  | O => None
  | S depth' =>
      ans_rc <-? (if RC then
                    r <-? compare_motif_pair_rec_x depth' mot1
                            (get_motif_rc mot2) method moverlap false ic1
                            (rev ic2) minic norm posic bkg1 bkg2 nsites1
                            nsites2 strat ;;
                    Some [snd r]
                  else Some []) ;;
      ans <-? alignment_scores_x mot1 mot2 method moverlap ic1 ic2 minic norm
                posic bkg1 bkg2 nsites1 nsites2 strat ;;
      Some (ans ++ ans_rc, return_best_ans_x (ans ++ ans_rc) method)
  end.

Definition compare_motif_pair_x (mot1 mot2 : motif) (method : string)
    (moverlap : R) (RC : bool) (ic1 ic2 : list R) (minic : R) (norm : bool)
    (posic : R) (bkg1 bkg2 : list R) (nsites1 nsites2 : R) (strat : string)
    : option score :=
  option_map snd
    (compare_motif_pair_rec_x 2 mot1 mot2 method moverlap RC ic1 ic2 minic
       norm posic bkg1 bkg2 nsites1 nsites2 strat).

(** ** Notions used in the statements, and the specification's wording *)

(** Geometric mean as the specification words it: the exponential of the
    mean of the natural logarithms of the strictly positive comparable
    values, and 0 when there is none. *)
Definition gmean_as_specified (scores : list R) (good : list bool) : R :=
  let positive := filter (Rltb 0) (keep_good scores good) in
  match positive with
  | [] => 0
  | _ => exp (accumulate (map ln positive) / INR (length positive))
  end.

(** The logarithms of the positive values of [l] do not cancel: their sum
    is away from 0 by more than the rounding of the logarithms and of the
    additions of the running sum can amount to, each of them being off by
    one unit in the last place at most.  The guard [sum == 0.0] of
    [score_gmean] is evaluated on the running sum as rounded. *)
Definition logs_clear_of_zero (l : list R) : Prop :=
  let logs := map ln (filter (Rltb 0) l) in
  / 2 ^ 50 * INR (length logs) * accumulate (map Rabs logs)
  < Rabs (accumulate logs).

(** A number that a [double] holds: [m * 2 ^ e] with [|m| < 2 ^ 53]. *)
Definition is_double (x : R) : Prop :=
  exists m e : Z, (Z.abs m < 2 ^ 53)%Z /\ x = IZR m * powerRZ 2 e.

(** The product [overlap * ncol] is rounded to a [double] before it is
    converted to [std::size_t].  The conversion of the rounded product
    gives the integer part of the exact one when the exact product lies
    under the next integer by more than the rounding can add. *)
Definition truncates_as_exact (overlap : R) (ncol : nat) : Prop :=
  overlap * INR ncol
  < (INR (to_size_t (overlap * INR ncol)) + 1) * (1 - / 2 ^ 52).

(** The minimum overlaps for which [overlap1] and [overlap2] are the
    integer parts that [overlap_targets] gives: a [double] in the range of
    [std::size_t], whose products with the two widths, when it is a
    fraction, are converted as the exact products are. *)
Definition overlap_exact (overlap : R) (ncol1 ncol2 : nat) : Prop :=
  is_double overlap /\ 0 <= overlap < 2 ^ 64
  /\ (overlap < 1 ->
      truncates_as_exact overlap ncol1 /\ truncates_as_exact overlap ncol2).

(** The padding each side asks for: [ncol1_toadd] and [ncol2_toadd] of
    [equalize_mot_cols]. *)
Definition toadd_pair (mot1 mot2 : motif) (overlap : R) : nat * nat :=
  let (overlap1, overlap2) :=
    overlap_targets overlap (length mot1) (length mot2) in
  (ncol_toadd overlap1 (length mot2), ncol_toadd overlap2 (length mot1)).

(** The no-op condition of the column equalizer as the specification words
    it: the widths satisfy the minimum-overlap target for both sides, that
    is, neither side asks for padding. *)
Definition both_sides_satisfied (mot1 mot2 : motif) (overlap : R) : Prop :=
  fst (toadd_pair mot1 mot2 overlap) = 0%nat
  /\ snd (toadd_pair mot1 mot2 overlap) = 0%nat.

(** Every column has as many entries as the first one. *)
Definition rectangular (mot : motif) : Prop :=
  Forall (fun col => length col = length (nth 0 mot [])) mot.

(** The metrics for which [fix_mot_bkg_zeros] has a case. *)
Definition needs_smoothing (method : string) : Prop :=
  method = "KL"%string \/ method = "IS"%string \/ method = "ALLR"%string
  \/ method = "ALLR_LL"%string.

(** A window's mean information content as the specification words it:
    the mean of the IC values of the columns that are not padding; [None]
    when there is no such column. *)
Definition mean_ic_as_specified (tmot : motif) (tic : list R) : option R :=
  let kept := map snd (filter (fun ci => is_data (fst ci)) (combine tmot tic)) in
  if (length kept =? 0)%nat then None
  else Some (accumulate kept / INR (length kept)).

(** A motif as the entry points build it, with its IC values: columns of
    [nrow] non-negative entries and one IC value per column. *)
Definition motif_with_ic (nrow : nat) (mot : motif) (ic : list R) : Prop :=
  mot <> [] /\ length ic = length mot
  /\ Forall (fun col => length col = nrow /\ is_data col = true) mot.

Definition distance_metrics : list string :=
  ["EUCL"; "KL"; "HELL"; "IS"; "SEUCL"; "MAN"]%string.

Definition similarity_metrics : list string :=
  ["PCC"; "SW"; "ALLR"; "BHAT"; "ALLR_LL"]%string.

(** The number of offsets the two loops of the alignment search visit. *)
Definition offset_count (mot1 mot2 : motif) (ic1 ic2 : list R) (moverlap : R)
    : nat :=
  let '(m1, m2, _, _) := equalize_mot_cols mot1 mot2 ic1 ic2 moverlap in
  let minw := Nat.min (length m1) (length m2) in
  ((1 + length m1 - minw) * (1 + length m2 - minw))%nat.

(** Every window of the alignment search has a column at which both
    motifs hold data.  The number of these columns is the divisor of
    "a.mean" and, with [norm] set, of the scaling of EUCL and KL. *)
Definition windows_comparable (mot1 mot2 : motif) (ic1 ic2 : list R)
    (moverlap posic : R) : Prop :=
  let '(m1, m2, e1, e2) := equalize_mot_cols mot1 mot2 ic1 ic2 moverlap in
  let minw := Nat.min (length m1) (length m2) in
  Forall (fun ij =>
            let '(tm1, tm2, _, _) :=
              alignment_window m1 m2 e1 e2 minw posic ij in
            (0 < get_alignlen tm1 tm2)%nat)
         (offsets (1 + length m1 - minw) (1 + length m2 - minw)).


(** A column with its IC value before [fix_lowic_pos]: a column of [nrow]
    entries that holds data, or one whose IC is under the threshold. *)
Definition col_ok (nrow : nat) (posic : R) (col : list R) (ic : R) : Prop :=
  length col = nrow /\ (is_data col = true \/ ic < posic).





(** Two motifs as the metric functions read them: as many columns in the
    second as in the first, which has one at least, and [nrow] entries in
    every column. *)
Definition same_shape (nrow : nat) (mot1 mot2 : motif) : Prop :=
  mot1 <> [] /\ length mot1 = length mot2
  /\ Forall (fun col => length col = nrow) mot1
  /\ Forall (fun col => length col = nrow) mot2.

(** Every column that holds data has entries above [lo] only ([lo <= x]
    when [strict] is false). *)
Definition data_above (strict : bool) (lo : R) (mot : motif) : Prop :=
  Forall (fun col => is_data col = true ->
                     Forall (fun x => if strict then lo < x else lo <= x) col)
         mot.

(** A list of doubles in ascending order. *)
Inductive ascending : list R -> Prop :=
| ascending_nil : ascending []
| ascending_cons x l :
    Forall (fun y => x <= y) l -> ascending l -> ascending (x :: l).

(** ** Concrete inputs used by the examples below *)

(** A table with the rows (5, 5) and (6, 6). *)
Definition table_56 : pval_table :=
  {| subject := [5; 6]%Z; target := [5; 6]%Z; paramA := [0; 0];
     paramB := [1; 1]; distribution := ["normal"; "normal"]%string |}.

Definition table_empty : pval_table :=
  {| subject := []; target := []; paramA := []; paramB := [];
     distribution := [] |}.

Definition cdf_zero : R -> R -> R -> Z -> R := fun _ _ _ _ => 0.

(** A motif of [n] equal columns over four symbols. *)
Definition flat_motif (n : nat) : motif := repeat [1; 0; 0; 0] n.

(** Two one-column motifs over two symbols and two different
    backgrounds. *)
Definition motif_A : motif := [[0.49; 0.49]].
Definition bkg_A : list R := [0.5; 0.5].
Definition bkg_B : list R := [0.25; 0.75].

(** A motif of two different columns over four symbols. *)
Definition motif_cd : motif := [[1; 0; 0; 0]; [0; 1; 0; 0]].

(** * Properties *)

(** ** Doubles and decisions *)

Lemma Rleb_true (x y : R) : Rleb x y = true <-> x <= y.
Proof. unfold Rleb; destruct (Rle_dec x y); split; intros; try easy; lra. Qed.

Lemma Rleb_false (x y : R) : Rleb x y = false <-> y < x.
Proof. unfold Rleb; destruct (Rle_dec x y); split; intros; try easy; lra. Qed.

Lemma Rltb_true (x y : R) : Rltb x y = true <-> x < y.
Proof. unfold Rltb; destruct (Rlt_dec x y); split; intros; try easy; lra. Qed.

Lemma Rltb_false (x y : R) : Rltb x y = false <-> y <= x.
Proof. unfold Rltb; destruct (Rlt_dec x y); split; intros; try easy; lra. Qed.

Lemma Reqb_true (x y : R) : Reqb x y = true <-> x = y.
Proof. unfold Reqb; destruct (Req_dec_T x y); split; intros; easy. Qed.

Lemma Reqb_false (x y : R) : Reqb x y = false <-> x <> y.
Proof. unfold Reqb; destruct (Req_dec_T x y); split; intros; easy. Qed.

(** Decide the comparisons of a goal whose operands are numerals. *)
Ltac rdecide :=
  repeat
    (match goal with
     | |- context [Rleb ?a ?b] =>
         first [ replace (Rleb a b) with true
                   by (symmetry; apply Rleb_true; lra)
               | replace (Rleb a b) with false
                   by (symmetry; apply Rleb_false; lra) ]
     | |- context [Rltb ?a ?b] =>
         first [ replace (Rltb a b) with true
                   by (symmetry; apply Rltb_true; lra)
               | replace (Rltb a b) with false
                   by (symmetry; apply Rltb_false; lra) ]
     | |- context [Reqb ?a ?b] =>
         first [ replace (Reqb a b) with true
                   by (symmetry; apply Reqb_true; lra)
               | replace (Reqb a b) with false
                   by (symmetry; apply Reqb_false; lra) ]
     end; cbn [andb orb negb]).

Lemma dbl_max_gt_1 : 1 < dbl_max.
Proof.
  unfold dbl_max.
  assert (H1 : 1 < 2 ^ 1023) by (apply Rlt_pow_R1; [lra | lia]).
  assert (H2 : 1 < 2 ^ 52) by (apply Rlt_pow_R1; [lra | lia]).
  assert (H3 : / 2 ^ 52 < 1).
  { rewrite <- Rinv_1. apply Rinv_lt_contravar; lra. }
  generalize dependent (2 ^ 1023). generalize dependent (2 ^ 52).
  intros; nra.
Qed.

(** ** P-value lookup: the row search *)

Section PValueFacts.

Variables pnorm plogis pweibull : R -> R -> R -> Z -> R.

(** A width pair one apart finds no row in the table of the rows (5, 5)
    and (6, 6). *)
Lemma find_row_56_none (n : Z) :
  find_row [5; 6]%Z [5; 6]%Z n (n + 1) 0 = Ret None.
Proof.
  cbn [find_row at_nat nth_error obind].
  destruct (n =? 5)%Z eqn:E5; destruct (n =? 6)%Z eqn:E6;
    destruct (n + 1 =? 5)%Z eqn:F5; destruct (n + 1 =? 6)%Z eqn:F6;
    try reflexivity; lia.
Qed.

Lemma row_search_56_never_leaves (fuel : nat) :
  forall n row,
    row_search fuel [5; 6]%Z [5; 6]%Z n (n + 1) row = OutOfFuel
    \/ row_search fuel [5; 6]%Z [5; 6]%Z n (n + 1) row = SignedOverflow.
Proof.
  induction fuel as [|fuel IH]; intros n row; [now left|].
  cbn [row_search]. rewrite find_row_56_none. cbn [obind].
  destruct ((n =? INT_MAX) || (n + 1 =? INT_MAX))%Z; [now right|].
  cbn [at_last at_nat length Nat.sub nth_error obind].
  apply IH.
Qed.

End PValueFacts.

Section PValueClaims.

Variables pnorm plogis pweibull : R -> R -> R -> Z -> R.

Lemma pval_body_sentinel fuel ncols indices1 indices2 tbl ltail s i row :
  Rabs s = dbl_max ->
  pval_body pnorm plogis pweibull fuel ncols indices1 indices2 tbl ltail s i
    row = Ret (None, row).
Proof.
  intros H. unfold pval_body.
  replace (Reqb (Rabs s) dbl_max) with true; [reflexivity|].
  symmetry; now apply Reqb_true.
Qed.

Lemma pval_loop_sentinel_slot fuel ncols indices1 indices2 tbl ltail :
  forall scores k row pvals i s,
    pval_loop pnorm plogis pweibull fuel ncols indices1 indices2 tbl ltail
      scores k row = Ret pvals ->
    nth_error scores i = Some s ->
    Rabs s = dbl_max ->
    nth_error pvals i = Some 0.
Proof.
  induction scores as [|x rest IH]; intros k row pvals i s Hrun Hi Hs.
  - destruct i; discriminate.
  - cbn [pval_loop] in Hrun.
    destruct i as [|i]; cbn [nth_error] in Hi.
    + injection Hi as ->.
      rewrite pval_body_sentinel in Hrun by assumption.
      cbn [obind fst snd] in Hrun.
      destruct (pval_loop _ _ _ _ _ _ _ _ _ _ _ _) as [ps| | | |];
        cbn [obind] in Hrun; try discriminate.
      injection Hrun as <-. reflexivity.
    + destruct (pval_body _ _ _ _ _ _ _ _ _ _ _ _) as [r| | | |];
        cbn [obind] in Hrun; try discriminate.
      destruct (pval_loop _ _ _ _ _ _ _ _ _ rest _ _) as [ps| | | |] eqn:E;
        cbn [obind] in Hrun; try discriminate.
      injection Hrun as <-. cbn [nth_error].
      eapply IH; eassumption.
Qed.

(** C1 (the code departs from the specification).  With the table of the rows
    (5, 5) and (6, 6) and two motifs of widths 5 and 6, the search starts
    at (5, 6), finds no row, and passing the table's last widths only
    assigns [row = -1]: the [while (!ok)] loop is never left, whatever the
    number of steps granted, so [pval_extractor] returns no p-values. *)
Theorem pval_extractor_unmatched_widths_never_returns :
  forall fuel row0 pvals,
    pval_extractor pnorm plogis pweibull fuel row0 [5; 6]%Z [1] [0%Z] [1%Z]
      "PCC" table_56 <> Ret pvals.
Proof.
  intros fuel row0 pvals.
  unfold pval_extractor. cbn [pval_loop]. unfold pval_body.
  replace (Reqb (Rabs 1) dbl_max) with false.
  2:{ symmetry; apply Reqb_false. rewrite Rabs_R1.
      pose proof dbl_max_gt_1; lra. }
  cbn -[row_search dbl_max].
  change (Pos.to_nat 1) with 1%nat. cbn -[row_search dbl_max].
  destruct (row_search_56_never_leaves fuel 5 row0) as [E|E];
    cbn [Z.add Pos.add Pos.succ] in E; rewrite E; discriminate.
Qed.

(** The same slip at the other end: two motifs of width 6 have the row
    (6, 6), the scan finds it, and the test that follows the increments
    replaces the row found by -1, so the p-value stays 0. *)
Lemma pval_extractor_last_row_dropped :
  forall fuel row0,
    pval_extractor pnorm plogis pweibull (S fuel) row0 [6; 6]%Z [1] [0%Z]
      [1%Z] "PCC" table_56 = Ret [0].
Proof.
  intros fuel row0.
  unfold pval_extractor. cbn [pval_loop]. unfold pval_body.
  replace (Reqb (Rabs 1) dbl_max) with false.
  2:{ symmetry; apply Reqb_false. rewrite Rabs_R1.
      pose proof dbl_max_gt_1; lra. }
  cbn -[row_search dbl_max].
  change (Pos.to_nat 1) with 1%nat. cbn -[dbl_max]. reflexivity.
Qed.

(** C8.  A score whose absolute value is the largest double is passed
    over before any index or table is read: the loop body leaves at its
    [continue] whatever the table, the indices and the steps granted, and
    in every result of [pval_extractor] its p-value is 0. *)
Theorem pval_sentinel_score_skipped :
  forall fuel row0 ncols scores indices1 indices2 method tbl i s,
    nth_error scores i = Some s ->
    Rabs s = dbl_max ->
    (forall row,
        pval_body pnorm plogis pweibull fuel ncols indices1 indices2 tbl
          (pval_ltail method) s i row = Ret (None, row))
    /\ (forall pvals,
           pval_extractor pnorm plogis pweibull fuel row0 ncols scores
             indices1 indices2 method tbl = Ret pvals ->
           nth_error pvals i = Some 0).
Proof.
  intros fuel row0 ncols scores indices1 indices2 method tbl i s Hi Hs.
  split.
  - intros row. now apply pval_body_sentinel.
  - intros pvals Hrun. unfold pval_extractor in Hrun.
    eapply pval_loop_sentinel_slot; eassumption.
Qed.

End PValueClaims.

Lemma Rabs_dbl_max : Rabs dbl_max = dbl_max.
Proof. apply Rabs_right. pose proof dbl_max_gt_1; lra. Qed.

Lemma Rabs_neg_dbl_max : Rabs (- dbl_max) = dbl_max.
Proof. rewrite Rabs_Ropp. apply Rabs_dbl_max. Qed.

(** Both sentinels, an empty table, no indices and no steps: the call
    returns, and both p-values are 0. *)
Lemma pval_sentinel_score_skipped_witness :
  pval_extractor cdf_zero cdf_zero cdf_zero 0 0 [] [dbl_max; - dbl_max] [] []
    "EUCL" table_empty = Ret [0; 0]
  /\ nth_error [0; 0] 1 = Some 0.
Proof.
  assert (Hrun : pval_extractor cdf_zero cdf_zero cdf_zero 0 0 []
                   [dbl_max; - dbl_max] [] [] "EUCL" table_empty
                 = Ret [0; 0]).
  { unfold pval_extractor. cbn [pval_loop].
    rewrite pval_body_sentinel by apply Rabs_dbl_max.
    cbn [obind fst snd].
    rewrite pval_body_sentinel by apply Rabs_neg_dbl_max.
    reflexivity. }
  split; [exact Hrun|].
  exact (proj2 (pval_sentinel_score_skipped cdf_zero cdf_zero cdf_zero
                  0 0 [] [dbl_max; - dbl_max] [] [] "EUCL" table_empty
                  1%nat (- dbl_max) eq_refl Rabs_neg_dbl_max)
               [0; 0] Hrun).
Defined.

(** ** Aggregator: median *)

Lemma enum_median : enum_get SCORESTRAT_enum "median" = 4%Z.
Proof. reflexivity. Qed.

Lemma enum_gmean : enum_get SCORESTRAT_enum "g.mean" = 3%Z.
Proof. reflexivity. Qed.

Lemma enum_sum : enum_get SCORESTRAT_enum "sum" = 1%Z.
Proof. reflexivity. Qed.

Lemma insert_sorted_length (x : R) (l : list R) :
  length (insert_sorted x l) = S (length l).
Proof.
  induction l as [|y t IH]; cbn [insert_sorted]; [reflexivity|].
  destruct (Rleb x y); cbn [length]; [reflexivity | now rewrite IH].
Qed.

Lemma sort_R_length (l : list R) : length (sort_R l) = length l.
Proof.
  unfold sort_R. induction l as [|x t IH]; cbn [fold_right length];
    [reflexivity|].
  now rewrite insert_sorted_length, IH.
Qed.

Lemma at_size_in_range {A : Type} (v : list A) (i : Z) :
  (0 <= i < Z.of_nat (length v))%Z -> exists a, at_size v i = Some a.
Proof.
  intros Hi. unfold at_size.
  replace ((0 <=? i) && (i <? Z.of_nat (length v)))%Z with true
    by (symmetry; apply andb_true_iff; split;
        [apply Z.leb_le | apply Z.ltb_lt]; lia).
  destruct (nth_error v (Z.to_nat i)) as [a|] eqn:E; [now exists a|].
  apply nth_error_None in E. lia.
Qed.


Lemma score_median_empty : score_median [] = None.
Proof. reflexivity. Qed.

Lemma score_median_nonempty (l : list R) :
  l <> [] -> exists v, score_median l = Some v.
Proof.
  intros Hne. unfold score_median.
  assert (Hlen : (0 < Z.of_nat (length l))%Z) by (destruct l; cbn; [easy | lia]).
  destruct (Z.of_nat (length l) =? 1)%Z eqn:E1.
  - apply at_size_in_range. lia.
  - apply Z.eqb_neq in E1.
    assert (Hhalf : (0 <= Z.of_nat (length l) / 2 < Z.of_nat (length l))%Z).
    { split; [apply Z.div_pos; lia | apply Z.div_lt; lia]. }
    destruct (Z.of_nat (length l) mod 2 =? 0)%Z eqn:E2.
    + apply Z.eqb_eq in E2.
      assert (H1 : (1 <= Z.of_nat (length l) / 2)%Z)
        by (apply Z.div_le_lower_bound; lia).
      assert (Hidx : (0 <= size_sub (Z.of_nat (length l) / 2) 1
                      < Z.of_nat (length (sort_R l)))%Z).
      { rewrite sort_R_length. unfold size_sub.
        pose proof (Z.mod_pos_bound (Z.of_nat (length l) / 2 - 1) SIZE_MOD
                      eq_refl) as Hb.
        pose proof (Z.mod_le (Z.of_nat (length l) / 2 - 1) SIZE_MOD
                      ltac:(lia) eq_refl) as Hle.
        lia. }
      destruct (at_size_in_range _ _ Hidx) as [a ->].
      destruct (at_size_in_range (sort_R l) (Z.of_nat (length l) / 2))
        as [b ->]; [rewrite sort_R_length; lia|].
      cbn [obnd]. eauto.
    + apply at_size_in_range. rewrite sort_R_length. lia.
Qed.

Lemma score_median_none_iff (l : list R) : score_median l = None <-> l = [].
Proof.
  split; [|intros ->; apply score_median_empty].
  intros H. destruct l as [|x t]; [reflexivity|].
  destruct (score_median_nonempty (x :: t)) as [v Hv]; [easy | congruence].
Qed.

Lemma keep_good_length :
  forall scores good,
    length scores = length good ->
    length (keep_good scores good) = count_true good.
Proof.
  unfold count_true.
  induction scores as [|s ss IH]; intros [|g gs] Hlen; cbn in Hlen;
    try discriminate; [reflexivity|].
  cbn [keep_good filter]. destruct g; cbn [length]; rewrite IH by lia;
    reflexivity.
Qed.

(** C10.  With the median strategy [calc_final_score] fails, by a read
    outside the vector, exactly when no column is comparable: [keep_good]
    then yields the empty vector, on which [score_median] takes the
    even-count branch and reads index [0 / 2 - 1], which wraps around to
    2^64 - 1, and index [0 / 2].  With one comparable column or more every
    read is inside the vector. *)
Theorem median_fails_iff_no_comparable_column :
  forall (scores : list R) (good : list bool) (n : nat),
    length scores = length good ->
    (count_true good = 0%nat -> keep_good scores good = [])
    /\ size_sub (Z.of_nat (length (@nil R)) / 2) 1 = (2 ^ 64 - 1)%Z
    /\ at_size (sort_R []) (size_sub (Z.of_nat (length (@nil R)) / 2) 1) = None
    /\ at_size (sort_R []) (Z.of_nat (length (@nil R)) / 2) = None
    /\ (calc_final_score scores "median" n good = None
        <-> count_true good = 0%nat).
Proof.
  intros scores good n Hlen.
  pose proof (keep_good_length scores good Hlen) as Hk.
  assert (Hnil : count_true good = 0%nat <-> keep_good scores good = []).
  { rewrite <- Hk. split; [apply length_zero_iff_nil | now intros ->]. }
  repeat split; try reflexivity; try apply Hnil.
  - unfold calc_final_score. rewrite enum_median.
    intros H. apply Hnil. now apply score_median_none_iff.
  - unfold calc_final_score. rewrite enum_median.
    intros H. apply score_median_none_iff. now apply Hnil.
Qed.

Lemma median_fails_iff_no_comparable_column_witness :
  calc_final_score [0; 0] "median" 0 [false; false] = None
  <-> count_true [false; false] = 0%nat.
Proof.
  exact (proj2 (proj2 (proj2 (proj2
           (median_fails_iff_no_comparable_column [0; 0] [false; false] 0
              eq_refl))))).
Defined.

(** ** Aggregator: geometric mean *)

Lemma fold_left_Rplus_acc (l : list R) (a : R) :
  fold_left Rplus l a = a + accumulate l.
Proof.
  unfold accumulate. revert a.
  induction l as [|x t IH]; intros a; cbn [fold_left]; [lra|].
  rewrite (IH (a + x)), (IH (0 + x)). lra.
Qed.

Lemma accumulate_cons (x : R) (l : list R) :
  accumulate (x :: l) = x + accumulate l.
Proof.
  unfold accumulate at 1. cbn [fold_left].
  rewrite fold_left_Rplus_acc. lra.
Qed.

Lemma accumulate_nil : accumulate [] = 0.
Proof. reflexivity. Qed.

Lemma accumulate_nonneg (l : list R) :
  Forall (fun x => 0 <= x) l -> 0 <= accumulate l.
Proof.
  induction 1 as [|x t Hx _ IH]; [rewrite accumulate_nil; lra|].
  rewrite accumulate_cons. lra.
Qed.

(** The [sum] of [score_gmean] is the total of the logarithms of the
    positive entries. *)
Lemma gmean_log_sum (l : list R) (a : R) :
  fold_left (fun acc x => if Rltb 0 x then acc + ln x else acc) l a
  = a + accumulate (map ln (filter (Rltb 0) l)).
Proof.
  revert a. induction l as [|x t IH]; intros a; cbn [fold_left filter].
  - cbn [map]. rewrite accumulate_nil. lra.
  - destruct (Rltb 0 x); rewrite IH; cbn [map];
      [rewrite accumulate_cons; lra | reflexivity].
Qed.

Lemma filter_none_positive (l : list R) :
  Forall (fun x => x <= 0) l -> filter (Rltb 0) l = [].
Proof.
  induction 1 as [|x t Hx _ IH]; cbn [filter]; [reflexivity|].
  replace (Rltb 0 x) with false by (symmetry; now apply Rltb_false).
  exact IH.
Qed.

Lemma ln_2_pos : 0 < ln 2.
Proof. rewrite <- ln_1. apply ln_increasing; lra. Qed.

Lemma ln_4 : ln 4 = ln 2 + ln 2.
Proof. replace 4 with (2 * 2) by lra. apply ln_mult; lra. Qed.

Lemma score_gmean_nonzero (l : list R) :
  accumulate (map ln (filter (Rltb 0) l)) <> 0 ->
  score_gmean l
  = exp (accumulate (map ln (filter (Rltb 0) l)) / INR (length l)).
Proof.
  intros HS. unfold score_gmean. rewrite gmean_log_sum, Rplus_0_l.
  replace (Reqb _ 0) with false by (symmetry; now apply Reqb_false).
  reflexivity.
Qed.

Lemma score_gmean_none_positive (l : list R) :
  Forall (fun x => x <= 0) l -> score_gmean l = 0.
Proof.
  intros Hnone. unfold score_gmean. rewrite gmean_log_sum, Rplus_0_l.
  rewrite (filter_none_positive _ Hnone).
  cbn [map]. rewrite accumulate_nil.
  replace (Reqb 0 0) with true by (symmetry; now apply Reqb_true).
  reflexivity.
Qed.

Lemma score_gmean_ones (l : list R) :
  Forall (fun x => x <= 0 \/ x = 1) l -> score_gmean l = 0.
Proof.
  intros H. unfold score_gmean. rewrite gmean_log_sum, Rplus_0_l.
  assert (HS : accumulate (map ln (filter (Rltb 0) l)) = 0).
  { induction H as [|x t Hx _ IH]; cbn [filter]; [apply accumulate_nil|].
    destruct (Rltb 0 x) eqn:E; [|exact IH]. apply Rltb_true in E.
    destruct Hx as [Hx | ->]; [lra|].
    cbn [map]. rewrite accumulate_cons, IH, ln_1. lra. }
  rewrite HS.
  replace (Reqb 0 0) with true by (symmetry; now apply Reqb_true).
  reflexivity.
Qed.

Lemma logs_clear_nonzero (l : list R) :
  logs_clear_of_zero l -> accumulate (map ln (filter (Rltb 0) l)) <> 0.
Proof.
  unfold logs_clear_of_zero. cbv zeta. intros H HS.
  rewrite HS, Rabs_R0 in H.
  assert (Hp : 0 < 2 ^ 50) by (apply pow_lt; lra).
  assert (Hi : 0 < / 2 ^ 50) by now apply Rinv_0_lt_compat.
  assert (Hn : 0 <= INR (length (map ln (filter (Rltb 0) l))))
    by apply pos_INR.
  assert (Ha : 0 <= accumulate (map Rabs (map ln (filter (Rltb 0) l)))).
  { apply accumulate_nonneg. apply Forall_map. apply Forall_forall.
    intros x _. apply Rabs_pos. }
  assert (0 <= / 2 ^ 50 * INR (length (map ln (filter (Rltb 0) l)))
               * accumulate (map Rabs (map ln (filter (Rltb 0) l))))
    by (apply Rmult_le_pos; [apply Rmult_le_pos; lra | exact Ha]).
  lra.
Qed.

(** C3, as amended.  With S the sum of the natural logarithms of the
    strictly positive comparable values and n the number of comparable
    values (positive or not), the geometric-mean strategy returns
    [exp (S / n)] whenever S is clear of 0, by more than the rounding of
    the running sum can amount to ([logs_clear_of_zero]), and returns 0
    when every comparable value is 1 or is not positive.  The guard of the
    code is on the running sum of the logarithms: values whose logarithms
    cancel in it give 0 as well.  There is one flag in [good] per score. *)
Theorem gmean_value :
  forall (scores : list R) (good : list bool) (n : nat),
    length good = length scores ->
    (logs_clear_of_zero (keep_good scores good) ->
     calc_final_score scores "g.mean" n good
     = Some (exp (accumulate (map ln (filter (Rltb 0) (keep_good scores good)))
                  / INR (length (keep_good scores good)))))
    /\ (Forall (fun x => x <= 0 \/ x = 1) (keep_good scores good) ->
        calc_final_score scores "g.mean" n good = Some 0).
Proof.
  intros scores good n _.
  unfold calc_final_score. rewrite enum_gmean.
  split; intros H.
  - rewrite score_gmean_nonzero; [reflexivity|].
    now apply logs_clear_nonzero.
  - now rewrite score_gmean_ones.
Qed.

Lemma keep_4_0 : keep_good [4; 0] [true; true] = [4; 0].
Proof. reflexivity. Qed.

Lemma positive_4_0 : filter (Rltb 0) [4; 0] = [4].
Proof. cbn [filter]. rdecide. reflexivity. Qed.

Lemma log_sum_4_0 :
  accumulate (map ln (filter (Rltb 0) [4; 0])) = ln 2 + ln 2.
Proof.
  rewrite positive_4_0. cbn [map].
  rewrite accumulate_cons, accumulate_nil, ln_4. lra.
Qed.

Lemma exp_half_log_sum_4_0 : exp ((ln 2 + ln 2) / INR 2) = 2.
Proof.
  replace ((ln 2 + ln 2) / INR 2) with (ln 2) by (cbn [INR]; lra).
  apply exp_ln; lra.
Qed.

Lemma gmean_4_0 : calc_final_score [4; 0] "g.mean" 2 [true; true] = Some 2.
Proof.
  unfold calc_final_score. rewrite enum_gmean, keep_4_0.
  rewrite score_gmean_nonzero; rewrite log_sum_4_0.
  - cbn [length]. now rewrite exp_half_log_sum_4_0.
  - pose proof ln_2_pos; lra.
Qed.

Lemma logs_clear_4_0 : logs_clear_of_zero (keep_good [4; 0] [true; true]).
Proof.
  unfold logs_clear_of_zero. rewrite keep_4_0, positive_4_0.
  cbn [map length]. rewrite !accumulate_cons, accumulate_nil.
  pose proof ln_2_pos as H2. rewrite ln_4.
  rewrite Rabs_pos_eq by lra. rewrite Rabs_pos_eq by lra.
  assert (Hp : 1 < 2 ^ 50) by (apply Rlt_pow_R1; [lra | lia]).
  assert (Hi : / 2 ^ 50 < 1).
  { rewrite <- Rinv_1. apply Rinv_lt_contravar; lra. }
  assert (Hi0 : 0 < / 2 ^ 50) by (apply Rinv_0_lt_compat; lra).
  cbn [INR]. nra.
Qed.

Lemma gmean_value_witness :
  calc_final_score [4; 0] "g.mean" 2 [true; true] = Some 2
  /\ calc_final_score [1; -1] "g.mean" 2 [true; true] = Some 0.
Proof.
  split.
  - rewrite (proj1 (gmean_value [4; 0] [true; true] 2 eq_refl)
               logs_clear_4_0).
    rewrite keep_4_0, log_sum_4_0. cbn [length].
    now rewrite exp_half_log_sum_4_0.
  - apply (proj2 (gmean_value [1; -1] [true; true] 2 eq_refl)).
    cbn [keep_good].
    apply Forall_cons; [right; reflexivity|].
    apply Forall_cons; [left; lra | apply Forall_nil].
Defined.

(** C3, as the specification states it, fails on the code.  One comparable
    score 1: it is positive, yet the result is 0 and not [exp (ln 1 / 1) = 1].
    Comparable scores 4 and 0: the result is [exp (ln 4 / 2) = 2], the
    logarithm of the one positive value divided by the count of both, and not
    [exp (ln 4 / 1) = 4]. *)
Lemma gmean_counterexample :
  (calc_final_score [1] "g.mean" 1 [true] = Some 0
   /\ Exists (fun x => 0 < x) (keep_good [1] [true])
   /\ gmean_as_specified [1] [true] = 1)
  /\ (calc_final_score [4; 0] "g.mean" 2 [true; true] = Some 2
      /\ gmean_as_specified [4; 0] [true; true] = 4).
Proof.
  split; [split; [|split]|split].
  - unfold calc_final_score. rewrite enum_gmean.
    cbn [keep_good]. unfold score_gmean. cbn [fold_left].
    rdecide. rewrite ln_1. rdecide. reflexivity.
  - cbn [keep_good]. constructor; lra.
  - unfold gmean_as_specified. cbn [keep_good filter]. rdecide.
    cbn [map length]. rewrite accumulate_cons, accumulate_nil, ln_1.
    replace ((0 + 0) / INR 1) with 0 by (cbn [INR]; lra).
    apply exp_0.
  - exact gmean_4_0.
  - unfold gmean_as_specified. rewrite keep_4_0, positive_4_0.
    cbn [map length]. rewrite accumulate_cons, accumulate_nil.
    replace ((ln 4 + 0) / INR 1) with (ln 4) by (cbn [INR]; lra).
    apply exp_ln; lra.
Qed.

(** ** Column equalizer *)

Lemma to_size_t_INR (n : nat) : to_size_t (INR n) = n.
Proof. unfold to_size_t. rewrite Int_part_INR. apply Nat2Z.id. Qed.

Lemma pad_motif_length (nrow toadd : nat) (mot : motif) :
  length (pad_motif nrow toadd mot) = (toadd * 2 + length mot)%nat.
Proof. unfold pad_motif. rewrite !length_app, !repeat_length. lia. Qed.

Lemma padding_col_is_padding (nrow : nat) :
  (0 < nrow)%nat -> is_padding (padding_col nrow) = true.
Proof.
  intros H. destruct nrow as [|k]; [lia|].
  unfold is_padding, col0, padding_col. cbn [repeat nth].
  apply Rltb_true. lra.
Qed.

(** The equalizer in terms of the two paddings asked for. *)
Lemma equalize_mot_cols_cases (mot1 mot2 : motif) (ic1 ic2 : list R)
    (overlap : R) :
  equalize_mot_cols mot1 mot2 ic1 ic2 overlap
  = let t1 := fst (toadd_pair mot1 mot2 overlap) in
    let t2 := snd (toadd_pair mot1 mot2 overlap) in
    let nrow := length (nth 0 mot1 []) in
    if ((t1 =? 0) || (t2 =? 0))%nat then (mot1, mot2, ic1, ic2)
    else if (length mot1 <? length mot2)%nat
         then (pad_motif nrow t1 mot1, mot2, pad_ic t1 ic1, ic2)
         else (mot1, pad_motif nrow t2 mot2, ic1, pad_ic t2 ic2).
Proof.
  unfold equalize_mot_cols, toadd_pair.
  destruct (overlap_targets overlap (length mot1) (length mot2)) as [o1 o2].
  reflexivity.
Qed.

(** C6, as amended.  Side k asks for [toadd_k] columns, computed from its
    own target: the truncated overlap when the overlap is 1 or more, the
    truncated product of the overlap and that motif's own width when it is
    under 1.  The product is a product of doubles: its truncation is the
    one given here when the overlap is [overlap_exact] for the two widths,
    that is, when the rounding of the product does not carry it to the next
    integer.  The equalizer changes nothing exactly when at least one side
    asks for none.  Otherwise it pads one motif only, with the same number
    of padding columns (every entry -1, IC 0) on both ends and the motif's
    own columns between them: the first motif when it is strictly
    narrower, else the second (also at equal widths).  The motifs come
    with one IC value per column, and the first one has a column. *)
Theorem equalize_mot_cols_spec :
  forall (mot1 mot2 : motif) (ic1 ic2 : list R) (overlap : R),
    mot1 <> [] -> length ic1 = length mot1 -> length ic2 = length mot2 ->
    overlap_exact overlap (length mot1) (length mot2) ->
    let t1 := fst (toadd_pair mot1 mot2 overlap) in
    let t2 := snd (toadd_pair mot1 mot2 overlap) in
    let nrow := length (nth 0 mot1 []) in
    let pad := repeat (-1) nrow in
    (1 <= overlap ->
     t1 = ncol_toadd (to_size_t overlap) (length mot2)
     /\ t2 = ncol_toadd (to_size_t overlap) (length mot1))
    /\ (overlap < 1 ->
        t1 = ncol_toadd (to_size_t (overlap * INR (length mot1))) (length mot2)
        /\ t2 = ncol_toadd (to_size_t (overlap * INR (length mot2)))
                  (length mot1))
    /\ (equalize_mot_cols mot1 mot2 ic1 ic2 overlap = (mot1, mot2, ic1, ic2)
        <-> t1 = 0%nat \/ t2 = 0%nat)
    /\ (t1 <> 0%nat -> t2 <> 0%nat -> (length mot1 < length mot2)%nat ->
        equalize_mot_cols mot1 mot2 ic1 ic2 overlap
        = (repeat pad t1 ++ mot1 ++ repeat pad t1, mot2,
           repeat 0 t1 ++ ic1 ++ repeat 0 t1, ic2))
    /\ (t1 <> 0%nat -> t2 <> 0%nat -> (length mot2 <= length mot1)%nat ->
        equalize_mot_cols mot1 mot2 ic1 ic2 overlap
        = (mot1, repeat pad t2 ++ mot2 ++ repeat pad t2,
           ic1, repeat 0 t2 ++ ic2 ++ repeat 0 t2)).
Proof.
  intros mot1 mot2 ic1 ic2 overlap _ _ _ _ t1 t2 nrow pad.
  rewrite equalize_mot_cols_cases. fold t1 t2 nrow.
  repeat split.
  - subst t1. unfold toadd_pair, overlap_targets.
    replace (Rltb overlap 1) with false
      by (symmetry; now apply Rltb_false). reflexivity.
  - subst t2. unfold toadd_pair, overlap_targets.
    replace (Rltb overlap 1) with false
      by (symmetry; now apply Rltb_false). reflexivity.
  - subst t1. unfold toadd_pair, overlap_targets.
    replace (Rltb overlap 1) with true
      by (symmetry; now apply Rltb_true). reflexivity.
  - subst t2. unfold toadd_pair, overlap_targets.
    replace (Rltb overlap 1) with true
      by (symmetry; now apply Rltb_true). reflexivity.
  - cbv zeta.
    destruct (t1 =? 0)%nat eqn:E1; [apply Nat.eqb_eq in E1; now left|].
    destruct (t2 =? 0)%nat eqn:E2; [apply Nat.eqb_eq in E2; now right|].
    apply Nat.eqb_neq in E1, E2. cbn [orb].
    destruct (length mot1 <? length mot2)%nat; intros H.
    + assert (Hl : length (pad_motif nrow t1 mot1) = length mot1)
        by congruence.
      rewrite pad_motif_length in Hl. lia.
    + assert (Hl : length (pad_motif nrow t2 mot2) = length mot2)
        by congruence.
      rewrite pad_motif_length in Hl. lia.
  - cbv zeta. intros [H|H]; rewrite H; [reflexivity|].
    now rewrite orb_true_r.
  - intros H1 H2 Hlt. cbv zeta.
    apply Nat.eqb_neq in H1, H2. rewrite H1, H2. cbn [orb].
    apply Nat.ltb_lt in Hlt. rewrite Hlt. reflexivity.
  - intros H1 H2 Hle. cbv zeta.
    apply Nat.eqb_neq in H1, H2. rewrite H1, H2. cbn [orb].
    apply Nat.ltb_ge in Hle. rewrite Hle. reflexivity.
Qed.

Lemma toadd_pair_absolute (mot1 mot2 : motif) (k : nat) :
  (1 <= k)%nat ->
  toadd_pair mot1 mot2 (INR k)
  = (ncol_toadd k (length mot2), ncol_toadd k (length mot1)).
Proof.
  intros Hk. unfold toadd_pair, overlap_targets.
  replace (Rltb (INR k) 1) with false.
  - now rewrite to_size_t_INR.
  - symmetry. apply Rltb_false. change 1 with (INR 1). apply le_INR. lia.
Qed.

Lemma toadd_pair_4_6_half :
  toadd_pair (flat_motif 4) (flat_motif 6) 0.5 = (4%nat, 1%nat).
Proof.
  unfold toadd_pair, overlap_targets, flat_motif. rewrite !repeat_length.
  rdecide.
  replace (0.5 * INR 4) with (INR 2) by (cbn [INR]; lra).
  replace (0.5 * INR 6) with (INR 3) by (cbn [INR]; lra).
  rewrite !to_size_t_INR. reflexivity.
Qed.

Lemma toadd_pair_4_6_five :
  toadd_pair (flat_motif 4) (flat_motif 6) 5 = (1%nat, 0%nat).
Proof.
  replace 5 with (INR 5) by (cbn [INR]; lra).
  rewrite toadd_pair_absolute by lia. reflexivity.
Qed.

Lemma toadd_pair_4_4_two :
  toadd_pair (flat_motif 4) (flat_motif 4) 2 = (2%nat, 2%nat).
Proof.
  replace 2 with (INR 2) by (cbn [INR]; lra).
  rewrite toadd_pair_absolute by lia. reflexivity.
Qed.

Lemma tiny_52 : 0 < / 2 ^ 52 <= / 8.
Proof.
  assert (Hp : 2 ^ 3 <= 2 ^ 52) by (apply Rle_pow; [lra | lia]).
  replace (2 ^ 3) with 8 in Hp by (cbn [pow]; lra).
  split; [apply Rinv_0_lt_compat; lra |].
  apply Rinv_le_contravar; lra.
Qed.

Lemma small_64 (x : R) : 0 <= x <= 8 -> 0 <= x < 2 ^ 64.
Proof.
  intros H.
  assert (Hp : 2 ^ 4 <= 2 ^ 64) by (apply Rle_pow; [lra | lia]).
  replace (2 ^ 4) with 16 in Hp by (cbn [pow]; lra).
  lra.
Qed.

(** An absolute overlap of [k] columns, for a [k] of up to 8. *)
Lemma overlap_exact_count (k ncol1 ncol2 : nat) :
  (1 <= k <= 8)%nat -> overlap_exact (INR k) ncol1 ncol2.
Proof.
  intros Hk.
  assert (H1 : 1 <= INR k) by (change 1 with (INR 1); apply le_INR; lia).
  assert (H8 : INR k <= 8).
  { replace 8 with (INR 8) by (cbn [INR]; lra). apply le_INR. lia. }
  split; [|split].
  - exists (Z.of_nat k), 0%Z. split.
    + rewrite Z.abs_eq by lia.
      apply Z.le_lt_trans with 8%Z; [lia | reflexivity].
    + rewrite <- INR_IZR_INZ. cbn [powerRZ]. lra.
  - apply small_64. lra.
  - intros Hlt. lra.
Qed.

(** The overlap fraction 0.5 for even widths of up to 6 columns. *)
Lemma overlap_exact_half (h1 h2 : nat) :
  (h1 <= 3)%nat -> (h2 <= 3)%nat ->
  overlap_exact 0.5 (2 * h1) (2 * h2).
Proof.
  intros Hh1 Hh2.
  assert (Hhalf : forall h, (h <= 3)%nat -> truncates_as_exact 0.5 (2 * h)).
  { intros h Hh3. unfold truncates_as_exact.
    replace (0.5 * INR (2 * h)) with (INR h)
      by (rewrite mult_INR; cbn [INR]; lra).
    rewrite to_size_t_INR.
    pose proof tiny_52 as Ht. pose proof (pos_INR h) as Hh.
    assert (INR h <= 3).
    { replace 3 with (INR 3) by (cbn [INR]; lra). now apply le_INR. }
    nra. }
  split; [|split].
  - exists 1%Z, (-1)%Z. split; [reflexivity|].
    unfold powerRZ. change (Pos.to_nat 1) with 1%nat. cbn [pow]. lra.
  - apply small_64. lra.
  - intros _. split; now apply Hhalf.
Qed.

(** Widths 4 and 6 with the overlap fraction 0.5: the targets are 2 and 3
    columns, the sides ask for 6 - 2 = 4 and 4 - 3 = 1 columns, and the
    first motif, the narrower one, gets 4 padding columns on each end.
    With the absolute overlap 5 the second side asks for none and nothing
    changes. *)
Lemma equalize_mot_cols_spec_witness :
  equalize_mot_cols (flat_motif 4) (flat_motif 6) [2; 2; 2; 2]
    [2; 2; 2; 2; 2; 2] 0.5
  = (repeat [-1; -1; -1; -1] 4 ++ flat_motif 4 ++ repeat [-1; -1; -1; -1] 4,
     flat_motif 6,
     [0; 0; 0; 0] ++ [2; 2; 2; 2] ++ [0; 0; 0; 0],
     [2; 2; 2; 2; 2; 2])
  /\ equalize_mot_cols (flat_motif 4) (flat_motif 6) [2; 2; 2; 2]
       [2; 2; 2; 2; 2; 2] 5
     = (flat_motif 4, flat_motif 6, [2; 2; 2; 2], [2; 2; 2; 2; 2; 2])
  /\ equalize_mot_cols (flat_motif 4) (flat_motif 4) [2; 2; 2; 2]
       [2; 2; 2; 2] 2
     = (flat_motif 4,
        repeat [-1; -1; -1; -1] 2 ++ flat_motif 4 ++ repeat [-1; -1; -1; -1] 2,
        [2; 2; 2; 2], [0; 0] ++ [2; 2; 2; 2] ++ [0; 0])
  /\ fst (toadd_pair (flat_motif 4) (flat_motif 6) 0.5)
     = ncol_toadd (to_size_t (0.5 * INR 4)) 6
  /\ fst (toadd_pair (flat_motif 4) (flat_motif 6) 5)
     = ncol_toadd (to_size_t 5) 6.
Proof.
  assert (Hhalf : overlap_exact 0.5 (length (flat_motif 4))
                    (length (flat_motif 6))).
  { unfold flat_motif. rewrite !repeat_length.
    apply (overlap_exact_half 2 3); lia. }
  assert (Hfive : overlap_exact 5 (length (flat_motif 4))
                    (length (flat_motif 6))).
  { replace 5 with (INR 5) by (cbn [INR]; lra).
    apply overlap_exact_count. lia. }
  assert (Htwo : overlap_exact 2 (length (flat_motif 4))
                   (length (flat_motif 4))).
  { replace 2 with (INR 2) by (cbn [INR]; lra).
    apply overlap_exact_count. lia. }
  assert (Hne : flat_motif 4 <> [])
    by (unfold flat_motif; cbn [repeat]; discriminate).
  split; [|split; [|split; [|split]]]; cycle 2.
  - pose proof (equalize_mot_cols_spec (flat_motif 4) (flat_motif 4)
                  [2; 2; 2; 2] [2; 2; 2; 2] 2 Hne eq_refl eq_refl Htwo) as H.
    cbv zeta in H. rewrite toadd_pair_4_4_two in H. cbn [fst snd] in H.
    destruct H as (_ & _ & _ & _ & H).
    rewrite H; [reflexivity | discriminate | discriminate |].
    unfold flat_motif. rewrite !repeat_length. lia.
  - apply (proj1 (proj2 (equalize_mot_cols_spec (flat_motif 4) (flat_motif 6)
                           [2; 2; 2; 2] [2; 2; 2; 2; 2; 2] 0.5 Hne eq_refl eq_refl Hhalf))).
    lra.
  - apply (proj1 (equalize_mot_cols_spec (flat_motif 4) (flat_motif 6)
                    [2; 2; 2; 2] [2; 2; 2; 2; 2; 2] 5 Hne eq_refl eq_refl Hfive)).
    lra.
  - pose proof (equalize_mot_cols_spec (flat_motif 4) (flat_motif 6)
                  [2; 2; 2; 2] [2; 2; 2; 2; 2; 2] 0.5 Hne eq_refl eq_refl Hhalf) as H.
    cbv zeta in H. rewrite toadd_pair_4_6_half in H. cbn [fst snd] in H.
    destruct H as (_ & _ & _ & H & _).
    rewrite H; [reflexivity | discriminate | discriminate |].
    unfold flat_motif. rewrite !repeat_length. lia.
  - pose proof (equalize_mot_cols_spec (flat_motif 4) (flat_motif 6)
                  [2; 2; 2; 2] [2; 2; 2; 2; 2; 2] 5 Hne eq_refl eq_refl Hfive) as H.
    cbv zeta in H. rewrite toadd_pair_4_6_five in H. cbn [fst snd] in H.
    destruct H as (_ & _ & H & _).
    apply H. now right.
Defined.

(** C6, as the specification states it, fails on the code.  Widths 4 and 6
    with the absolute overlap 5: the first side still asks for one column, so
    the target is not met for both sides, yet nothing is padded.  Widths 4 and
    4 with the overlap 2: neither motif is narrower, yet the second one is
    padded, to 8 columns. *)
Lemma equalize_mot_cols_counterexample :
  (equalize_mot_cols (flat_motif 4) (flat_motif 6) [2; 2; 2; 2]
     [2; 2; 2; 2; 2; 2] 5
   = (flat_motif 4, flat_motif 6, [2; 2; 2; 2], [2; 2; 2; 2; 2; 2])
   /\ ~ both_sides_satisfied (flat_motif 4) (flat_motif 6) 5)
  /\ (let '(m1, m2, _, _) :=
        equalize_mot_cols (flat_motif 4) (flat_motif 4) [2; 2; 2; 2]
          [2; 2; 2; 2] 2 in
      length (flat_motif 4) = length (flat_motif 4)
      /\ m1 = flat_motif 4 /\ length m2 = 8%nat).
Proof.
  split; [split|].
  - rewrite equalize_mot_cols_cases, toadd_pair_4_6_five. reflexivity.
  - unfold both_sides_satisfied. rewrite toadd_pair_4_6_five.
    cbn [fst snd]. intros [H _]. discriminate.
  - rewrite equalize_mot_cols_cases, toadd_pair_4_4_two.
    cbn [fst snd Nat.eqb orb]. unfold flat_motif at 1 2.
    rewrite repeat_length. cbn [Nat.ltb Nat.leb].
    split; [reflexivity | split; [reflexivity|]].
    rewrite pad_motif_length. reflexivity.
Qed.

(** ** Smoothing *)

Lemma klfix_rectangular (mot : motif) :
  rectangular mot -> klfix mot = map (map (fun x => x + 0.01)) mot.
Proof.
  unfold rectangular, klfix. generalize (length (nth 0 mot [])) as nrow.
  intros nrow H. apply map_ext_Forall.
  induction H as [|col t Hc _ IH]; constructor; [|exact IH].
  rewrite <- Hc, firstn_all, skipn_all. apply app_nil_r.
Qed.


Lemma bkgfix_without_zero (bkg : list R) :
  Forall (fun x => x <> 0) bkg -> bkgfix bkg = bkg.
Proof.
  intros H. unfold bkgfix.
  replace (existsb (fun x => Reqb x 0) bkg) with false; [reflexivity|].
  symmetry. apply not_true_is_false. intros Hex.
  apply existsb_exists in Hex. destruct Hex as (x & Hin & Hx).
  apply Reqb_true in Hx. rewrite Forall_forall in H. now apply (H x).
Qed.

Lemma fix_mot_bkg_zeros_smooths (mot : motif) (bkg : list R)
    (method : string) :
  needs_smoothing method ->
  fix_mot_bkg_zeros mot bkg method = (klfix mot, bkgfix bkg).
Proof. intros [-> | [-> | [-> | ->]]]; reflexivity. Qed.

(** What the batch entry points hold in [vmots] and [bkg] once their
    first loop is done. *)
Lemma prepare_motifs_all (who : string) (method : string) :
  forall (mots : list motif) (bkg : list (list R)),
    Forall (fun m => m <> []) mots ->
    prepare_motifs who mots bkg method
    = Ret (map (fun mb => fst (fix_mot_bkg_zeros (fst mb) (snd mb) method))
               (combine mots bkg),
           map (fun mb => snd (fix_mot_bkg_zeros (fst mb) (snd mb) method))
               (combine mots bkg)).
Proof.
  induction mots as [|m ms IH]; intros bkg Hne; [reflexivity|].
  destruct bkg as [|b bs]; [reflexivity|].
  inversion Hne as [|? ? Hm Hms]; subst.
  cbn [prepare_motifs combine map].
  destruct m as [|c m']; [easy|]. cbn [length Nat.eqb].
  rewrite (IH bs Hms). cbn [obind fst snd].
  now destruct (fix_mot_bkg_zeros (c :: m') b method).
Qed.

Lemma needs_smoothing_ALLR : needs_smoothing "ALLR".
Proof. right; right; left; reflexivity. Qed.


(** A metric on two single columns that hold data, under "sum". *)
Lemma compare_with_columns_sum (f : list R -> list R -> R) (c1 c2 : list R) :
  is_data c1 = true -> is_data c2 = true ->
  compare_with f [c1] [c2] "sum" = Some (0 + f c1 c2).
Proof.
  intros H1 H2. unfold compare_with, calc_final_score, per_column.
  rewrite enum_sum. cbn [combine map fst snd]. rewrite H1, H2.
  reflexivity.
Qed.





(** ** Mean information content of a window *)

Lemma mic_sums_filter (tic : list R) :
  forall a n,
    fold_left (fun st x => if Rleb 0 x then (fst st + x, S (snd st)) else st)
              tic (a, n)
    = (a + accumulate (filter (Rleb 0) tic),
       (n + length (filter (Rleb 0) tic))%nat).
Proof.
  induction tic as [|x t IH]; intros a n; cbn [fold_left filter].
  - rewrite accumulate_nil. cbn [length]. f_equal; [lra | lia].
  - destruct (Rleb 0 x); rewrite IH; cbn [fst snd length];
      [rewrite accumulate_cons; f_equal; [lra | lia] | reflexivity].
Qed.

(** [calc_mic] is the mean of the IC values that are 0 or more. *)
Lemma calc_mic_filter (tic : list R) :
  calc_mic tic
  = if (length (filter (Rleb 0) tic) =? 0)%nat then None
    else Some (accumulate (filter (Rleb 0) tic)
               / INR (length (filter (Rleb 0) tic))).
Proof.
  unfold calc_mic, mic_sums. rewrite mic_sums_filter.
  rewrite Rplus_0_l, Nat.add_0_l. reflexivity.
Qed.

Lemma split_as_maps {A B : Type} (l : list (A * B)) :
  split l = (map fst l, map snd l).
Proof.
  induction l as [|[a b] t IH]; cbn [split map fst snd]; [reflexivity|].
  now rewrite IH.
Qed.

Lemma combine_maps {A B : Type} (l : list (A * B)) :
  combine (map fst l) (map snd l) = l.
Proof.
  induction l as [|[a b] t IH]; cbn [combine map fst snd]; [reflexivity|].
  now rewrite IH.
Qed.

Lemma map_snd_filter {A : Type} (P : A * R -> bool) (Q : R -> bool)
    (l : list (A * R)) :
  Forall (fun p => P p = Q (snd p)) l ->
  map snd (filter P l) = filter Q (map snd l).
Proof.
  induction 1 as [|p t Hp _ IH]; cbn [filter map]; [reflexivity|].
  rewrite Hp. destruct (Q (snd p)); cbn [map]; now rewrite IH.
Qed.

Lemma Forall2_window {A B : Type} (P : A -> B -> Prop) (i n : nat) :
  forall l l', Forall2 P l l' -> Forall2 P (window i n l) (window i n l').
Proof.
  unfold window. intros l l' H.
  assert (Hs : Forall2 P (skipn i l) (skipn i l')).
  { revert i. induction H as [|a b t t' Hab Ht IH]; intros [|i];
      cbn [skipn]; try (constructor; assumption). apply IH. }
  clear H. revert n.
  induction Hs as [|a b t t' Hab _ IH]; intros [|n]; cbn [firstn];
    constructor; auto.
Qed.

Lemma Forall2_combine {A B : Type} (P : A -> B -> Prop) :
  forall l l', Forall2 P l l' ->
               length l = length l'
               /\ Forall (fun p => P (fst p) (snd p)) (combine l l').
Proof.
  induction 1 as [|a b t t' Hab _ [IHl IHf]]; cbn [combine length];
    split; auto.
Qed.

Lemma Forall2_repeat {A B : Type} (P : A -> B -> Prop) (a : A) (b : B)
    (n : nat) :
  P a b -> Forall2 P (repeat a n) (repeat b n).
Proof. intros H. induction n; cbn [repeat]; constructor; auto. Qed.

Lemma padding_col_not_data (nrow : nat) (rest : list R) :
  (0 < nrow)%nat -> is_data (padding_col nrow ++ rest) = false.
Proof.
  intros H. destruct nrow as [|k]; [lia|].
  unfold is_data, col0, padding_col. cbn [repeat app nth].
  apply Rleb_false. lra.
Qed.

(** After [fix_lowic_pos] with a positive threshold, a column holds data
    exactly when its IC value is 0 or more. *)
Lemma fix_lowic_side_mean (nrow : nat) (posic : R) (tmot : motif)
    (tic : list R) :
  (0 < nrow)%nat -> 0 < posic ->
  Forall2 (col_ok nrow posic) tmot tic ->
  let (m, i) := fix_lowic_side nrow posic tmot tic in
  calc_mic i = mean_ic_as_specified m i.
Proof.
  intros Hn Hp Hok. unfold fix_lowic_side. rewrite split_as_maps.
  rewrite calc_mic_filter. unfold mean_ic_as_specified.
  rewrite combine_maps.
  rewrite (map_snd_filter _ (Rleb 0)); [reflexivity|].
  apply Forall_map.
  apply Forall2_combine in Hok. destruct Hok as [_ Hok].
  eapply Forall_impl; [|exact Hok].
  intros [col ic] [Hlen Hdata]. cbn [fst snd] in *.
  destruct (Rltb ic posic) eqn:E; cbn [fst snd].
  - rewrite padding_col_not_data by assumption.
    symmetry. apply Rleb_false. lra.
  - apply Rltb_false in E.
    destruct Hdata as [Hd | Hlow]; [|lra].
    rewrite Hd. symmetry. apply Rleb_true. lra.
Qed.

Lemma motif_with_ic_cols_ok (nrow : nat) (posic : R) (mot : motif)
    (ic : list R) :
  motif_with_ic nrow mot ic -> Forall2 (col_ok nrow posic) mot ic.
Proof.
  intros (_ & Hlen & Hcols). revert ic Hlen.
  induction Hcols as [|col t [Hc Hd] _ IH]; intros [|x ic] Hlen;
    cbn [length] in Hlen; try discriminate; constructor.
  - split; [exact Hc | now left].
  - apply IH. lia.
Qed.

Lemma motif_with_ic_nrow (nrow : nat) (mot : motif) (ic : list R) :
  motif_with_ic nrow mot ic -> length (nth 0 mot []) = nrow.
Proof.
  intros (Hne & _ & Hcols). destruct mot as [|c t]; [easy|].
  apply Forall_inv in Hcols. cbn [nth]. exact (proj1 Hcols).
Qed.

Lemma padded_cols_ok (nrow toadd : nat) (posic : R) (mot : motif)
    (ic : list R) :
  0 < posic ->
  Forall2 (col_ok nrow posic) mot ic ->
  Forall2 (col_ok nrow posic) (pad_motif nrow toadd mot) (pad_ic toadd ic).
Proof.
  intros Hp H. unfold pad_motif, pad_ic.
  assert (Hpad : Forall2 (col_ok nrow posic)
                   (repeat (padding_col nrow) toadd) (repeat 0 toadd)).
  { apply Forall2_repeat. split; [apply repeat_length | now right]. }
  repeat apply Forall2_app; assumption.
Qed.

Lemma equalize_cols_ok (nrow : nat) (posic overlap : R) (mot1 mot2 : motif)
    (ic1 ic2 : list R) :
  0 < posic ->
  motif_with_ic nrow mot1 ic1 -> motif_with_ic nrow mot2 ic2 ->
  let '(m1, m2, e1, e2) := equalize_mot_cols mot1 mot2 ic1 ic2 overlap in
  Forall2 (col_ok nrow posic) m1 e1 /\ Forall2 (col_ok nrow posic) m2 e2.
Proof.
  intros Hp H1 H2. rewrite equalize_mot_cols_cases. cbv zeta.
  rewrite (motif_with_ic_nrow _ _ _ H1).
  pose proof (motif_with_ic_cols_ok nrow posic _ _ H1) as K1.
  pose proof (motif_with_ic_cols_ok nrow posic _ _ H2) as K2.
  destruct (_ || _); [now split|].
  destruct (_ <? _)%nat; split; try assumption;
    now apply padded_cols_ok.
Qed.

Lemma equalize_lengths (overlap : R) (mot1 mot2 : motif) (ic1 ic2 : list R) :
  let '(m1, m2, _, _) := equalize_mot_cols mot1 mot2 ic1 ic2 overlap in
  (length mot1 <= length m1)%nat /\ (length mot2 <= length m2)%nat.
Proof.
  rewrite equalize_mot_cols_cases. cbv zeta.
  destruct (_ || _); [lia|].
  destruct (_ <? _)%nat; rewrite pad_motif_length; lia.
Qed.

Lemma Forall_window {A : Type} (P : A -> Prop) (i n : nat) (l : list A) :
  Forall P l -> Forall P (window i n l).
Proof.
  intros H. unfold window.
  rewrite <- (firstn_skipn i l) in H. apply Forall_app in H.
  destruct H as [_ H].
  rewrite <- (firstn_skipn n (skipn i l)) in H. apply Forall_app in H.
  exact (proj1 H).
Qed.

Lemma filter_all {A : Type} (f : A -> bool) (l : list A) :
  Forall (fun x => f x = true) l -> filter f l = l.
Proof.
  induction 1 as [|x t Hx _ IH]; cbn [filter]; [reflexivity|].
  now rewrite Hx, IH.
Qed.

Lemma window_length {A : Type} (i n : nat) (l : list A) :
  length (window i n l) = Nat.min n (length l - i).
Proof. unfold window. now rewrite length_firstn, length_skipn. Qed.

Lemma window_first_col_length (nrow : nat) (posic : R) (i n : nat)
    (m : motif) (e : list R) :
  Forall2 (col_ok nrow posic) m e ->
  (0 < n)%nat -> (i < length m)%nat ->
  length (nth 0 (window i n m) []) = nrow.
Proof.
  intros H Hn Hi.
  pose proof (Forall2_window _ i n _ _ H) as Hw.
  pose proof (window_length i n m) as Hl.
  destruct (window i n m) as [|c t]; cbn [length] in Hl; [lia|].
  inversion Hw as [|? ? ? ? Hc _]; subst. cbn [nth]. exact (proj1 Hc).
Qed.

Lemma Forall2_maps {A B C : Type} (P : B -> C -> Prop) (f : A -> B)
    (g : A -> C) (l : list A) :
  Forall (fun a => P (f a) (g a)) l -> Forall2 P (map f l) (map g l).
Proof. induction 1; cbn [map]; constructor; auto. Qed.

Lemma Forall2_length_eq {A B : Type} (P : A -> B -> Prop) (l : list A)
    (l' : list B) :
  Forall2 P l l' -> length l = length l'.
Proof. induction 1; cbn [length]; congruence. Qed.

(** After [fix_lowic_pos] with a positive threshold a padding column has
    the IC value -1. *)
Lemma fix_lowic_side_padding (nrow : nat) (posic : R) (tmot : motif)
    (tic : list R) :
  (0 < nrow)%nat -> 0 < posic ->
  Forall2 (col_ok nrow posic) tmot tic ->
  let (m, i) := fix_lowic_side nrow posic tmot tic in
  Forall2 (fun col ic => is_data col = false -> ic = -1) m i.
Proof.
  intros Hn Hp Hok. unfold fix_lowic_side. rewrite split_as_maps.
  apply Forall2_maps. apply Forall_map.
  apply Forall2_combine in Hok. destruct Hok as [_ Hok].
  eapply Forall_impl; [|exact Hok].
  intros [col ic] [Hlen Hdata]. cbn [fst snd] in *.
  destruct (Rltb ic posic) eqn:E; cbn [fst snd]; [reflexivity|].
  apply Rltb_false in E. destruct Hdata as [Hd | Hlow]; [|lra].
  rewrite Hd. discriminate.
Qed.

(** What [equalize_mot_cols] leaves when every column of the two motifs
    holds data: a padding column has the IC value 0. *)
Lemma equalize_cols_plain (nrow : nat) (overlap : R) (mot1 mot2 : motif)
    (ic1 ic2 : list R) :
  motif_with_ic nrow mot1 ic1 -> motif_with_ic nrow mot2 ic2 ->
  let '(m1, m2, e1, e2) := equalize_mot_cols mot1 mot2 ic1 ic2 overlap in
  Forall2 (fun col ic => is_data col = false -> ic = 0) m1 e1
  /\ Forall2 (fun col ic => is_data col = false -> ic = 0) m2 e2.
Proof.
  intros H1 H2.
  assert (Hdata : forall mot ic,
             motif_with_ic nrow mot ic ->
             Forall2 (fun col x => is_data col = false -> x = 0) mot ic).
  { intros mot ic (_ & Hlen & Hcols). revert ic Hlen.
    induction Hcols as [|col t [Hc Hd] _ IH]; intros [|x ic] Hlen;
      cbn [length] in Hlen; try discriminate; constructor.
    - rewrite Hd. discriminate.
    - apply IH. lia. }
  rewrite equalize_mot_cols_cases. cbv zeta.
  assert (Hp : forall t,
             Forall2 (fun col x => is_data col = false -> x = 0)
               (repeat (padding_col (length (nth 0 mot1 []))) t)
               (repeat 0 t))
    by (intros t; now apply Forall2_repeat).
  destruct (_ || _); [split; now apply Hdata|].
  destruct (_ <? _)%nat; split; try (now apply Hdata);
    unfold pad_motif, pad_ic; repeat apply Forall2_app; auto.
Qed.

(** No IC value is negative after equalization if none was before. *)
Lemma equalize_ic_nonneg (overlap : R) (mot1 mot2 : motif)
    (ic1 ic2 : list R) :
  let '(_, _, e1, e2) := equalize_mot_cols mot1 mot2 ic1 ic2 overlap in
  (Forall (fun x => 0 <= x) ic1 -> Forall (fun x => 0 <= x) e1)
  /\ (Forall (fun x => 0 <= x) ic2 -> Forall (fun x => 0 <= x) e2).
Proof.
  rewrite equalize_mot_cols_cases. cbv zeta.
  assert (Hz : forall t, Forall (fun x => 0 <= x) (repeat 0 t)).
  { intros t. apply Forall_forall. intros x Hx.
    apply repeat_spec in Hx. subst x. lra. }
  destruct (_ || _); [now split|].
  destruct (_ <? _)%nat; split; intros H; try assumption;
    unfold pad_ic; repeat (apply Forall_app; split); auto.
Qed.

Lemma calc_mic_all (tic : list R) :
  tic <> [] -> Forall (fun x => 0 <= x) tic ->
  calc_mic tic = Some (accumulate tic / INR (length tic)).
Proof.
  intros Hne Hall. rewrite calc_mic_filter.
  rewrite filter_all
    by (eapply Forall_impl; [|exact Hall]; cbv beta; intros x Hx;
        now apply Rleb_true).
  destruct tic as [|x t]; [easy | reflexivity].
Qed.

(** C4, as amended.  The mean IC of a window is the sum of its IC values
    that are 0 or more, divided by their number.  When a positive
    minimum-position-IC threshold is set, every padding column of the
    window, whether it comes from equalization or from the threshold,
    carries the IC value -1, so the mean is that of the non-padding
    columns alone.  Without that threshold the padding columns, which
    equalization introduced, carry the IC value 0 and count in the
    denominator: when no IC value of the motif is negative, the mean is the
    sum of the window's IC values divided by the number of all its
    columns.  The motifs are as the entry points build them, and the
    minimum overlap is [overlap_exact] for their widths. *)
Theorem window_mean_ic_spec :
  forall (nrow : nat) (mot1 mot2 : motif) (ic1 ic2 : list R)
         (overlap posic : R) (i j : nat),
    (0 < nrow)%nat ->
    motif_with_ic nrow mot1 ic1 ->
    motif_with_ic nrow mot2 ic2 ->
    overlap_exact overlap (length mot1) (length mot2) ->
    let '(m1, m2, e1, e2) := equalize_mot_cols mot1 mot2 ic1 ic2 overlap in
    let minw := Nat.min (length m1) (length m2) in
    (i < 1 + length m1 - minw)%nat ->
    (j < 1 + length m2 - minw)%nat ->
    let '(tm1, tm2, ti1, ti2) :=
      alignment_window m1 m2 e1 e2 minw posic (i, j) in
    (calc_mic ti1
     = (if (length (filter (Rleb 0) ti1) =? 0)%nat then None
        else Some (accumulate (filter (Rleb 0) ti1)
                   / INR (length (filter (Rleb 0) ti1))))
     /\ calc_mic ti2
        = (if (length (filter (Rleb 0) ti2) =? 0)%nat then None
           else Some (accumulate (filter (Rleb 0) ti2)
                      / INR (length (filter (Rleb 0) ti2)))))
    /\ (0 < posic ->
        Forall2 (fun col ic => is_data col = false -> ic = -1) tm1 ti1
        /\ Forall2 (fun col ic => is_data col = false -> ic = -1) tm2 ti2
        /\ calc_mic ti1 = mean_ic_as_specified tm1 ti1
        /\ calc_mic ti2 = mean_ic_as_specified tm2 ti2)
    /\ (posic <= 0 ->
        Forall2 (fun col ic => is_data col = false -> ic = 0) tm1 ti1
        /\ Forall2 (fun col ic => is_data col = false -> ic = 0) tm2 ti2
        /\ (Forall (fun x => 0 <= x) ic1 ->
            calc_mic ti1 = Some (accumulate ti1 / INR minw))
        /\ (Forall (fun x => 0 <= x) ic2 ->
            calc_mic ti2 = Some (accumulate ti2 / INR minw))).
Proof.
  intros nrow mot1 mot2 ic1 ic2 overlap posic i j Hn H1 H2 _.
  pose proof (equalize_lengths overlap mot1 mot2 ic1 ic2) as Hlen.
  pose proof (fun Hp => equalize_cols_ok nrow posic overlap mot1 mot2 ic1 ic2
                          Hp H1 H2) as Hok.
  pose proof (equalize_cols_plain nrow overlap mot1 mot2 ic1 ic2 H1 H2)
    as Hpad.
  pose proof (equalize_ic_nonneg overlap mot1 mot2 ic1 ic2) as Hpos.
  assert (Hm1 : (0 < length mot1)%nat)
    by (destruct H1 as (Hne & _); destruct mot1; [easy | cbn; lia]).
  assert (Hm2 : (0 < length mot2)%nat)
    by (destruct H2 as (Hne & _); destruct mot2; [easy | cbn; lia]).
  destruct (equalize_mot_cols mot1 mot2 ic1 ic2 overlap)
    as [[[m1 m2] e1] e2].
  intros minw Hi Hj.
  assert (Hminw : (0 < minw)%nat) by (subst minw; lia).
  destruct (alignment_window m1 m2 e1 e2 minw posic (i, j))
    as [[[tm1 tm2] ti1] ti2] eqn:Ew.
  split; [split; apply calc_mic_filter|].
  split.
  - intros Hp. destruct (Hok Hp) as [K1 K2]. clear Hok.
    unfold alignment_window in Ew. cbn [fst snd] in Ew.
    replace (Rltb 0 posic) with true in Ew
      by (symmetry; now apply Rltb_true).
    unfold fix_lowic_pos in Ew.
    rewrite (window_first_col_length nrow posic i minw m1 e1 K1 Hminw) in Ew
      by lia.
    pose proof (fix_lowic_side_mean nrow posic _ _ Hn Hp
                  (Forall2_window _ i minw _ _ K1)) as F1.
    pose proof (fix_lowic_side_mean nrow posic _ _ Hn Hp
                  (Forall2_window _ j minw _ _ K2)) as F2.
    pose proof (fix_lowic_side_padding nrow posic _ _ Hn Hp
                  (Forall2_window _ i minw _ _ K1)) as G1.
    pose proof (fix_lowic_side_padding nrow posic _ _ Hn Hp
                  (Forall2_window _ j minw _ _ K2)) as G2.
    destruct (fix_lowic_side nrow posic (window i minw m1) (window i minw e1))
      as [a1 b1].
    destruct (fix_lowic_side nrow posic (window j minw m2) (window j minw e2))
      as [a2 b2].
    injection Ew as <- <- <- <-. repeat split; assumption.
  - intros Hp. destruct Hpad as [P1 P2]. destruct Hpos as [N1 N2].
    unfold alignment_window in Ew. cbn [fst snd] in Ew.
    replace (Rltb 0 posic) with false in Ew
      by (symmetry; now apply Rltb_false).
    injection Ew as <- <- <- <-.
    assert (L1 : length e1 = length m1)
      by (symmetry; exact (Forall2_length_eq _ _ _ P1)).
    assert (L2 : length e2 = length m2)
      by (symmetry; exact (Forall2_length_eq _ _ _ P2)).
    assert (W1 : length (window i minw e1) = minw)
      by (rewrite window_length; lia).
    assert (W2 : length (window j minw e2) = minw)
      by (rewrite window_length; lia).
    assert (Hne : forall l : list R, length l = minw -> l <> [])
      by (intros l Hl E; rewrite E in Hl; cbn [length] in Hl; lia).
    split; [now apply Forall2_window|].
    split; [now apply Forall2_window|].
    split; intros Hic.
    + rewrite calc_mic_all; [now rewrite W1 | now apply Hne |].
      apply Forall_window. now apply N1.
    + rewrite calc_mic_all; [now rewrite W2 | now apply Hne |].
      apply Forall_window. now apply N2.
Qed.

Lemma is_data_1000 : is_data [1; 0; 0; 0] = true.
Proof. unfold is_data, col0. cbn [nth]. apply Rleb_true. lra. Qed.

Lemma is_data_padding4 : is_data [-1; -1; -1; -1] = false.
Proof. unfold is_data, col0. cbn [nth]. apply Rleb_false. lra. Qed.

Lemma flat_motif_with_ic (n : nat) (ic : list R) :
  (0 < n)%nat -> length ic = n -> motif_with_ic 4 (flat_motif n) ic.
Proof.
  intros Hn Hl. unfold motif_with_ic, flat_motif. repeat split.
  - destruct n; [lia | discriminate].
  - now rewrite repeat_length.
  - apply Forall_forall. intros col Hin. apply repeat_spec in Hin. subst.
    split; [reflexivity | apply is_data_1000].
Qed.

Lemma equalize_2_4_one :
  equalize_mot_cols (flat_motif 2) (flat_motif 4) [2; 2] [2; 2; 2; 2] 1
  = (pad_motif 4 3 (flat_motif 2), flat_motif 4, pad_ic 3 [2; 2],
     [2; 2; 2; 2]).
Proof.
  rewrite equalize_mot_cols_cases.
  replace 1 with (INR 1) by reflexivity.
  rewrite toadd_pair_absolute by lia. reflexivity.
Qed.

Lemma overlap_exact_one (ncol1 ncol2 : nat) : overlap_exact 1 ncol1 ncol2.
Proof. exact (overlap_exact_count 1 ncol1 ncol2 ltac:(lia)). Qed.

(** Widths 2 and 4, minimum overlap 1.  With the threshold 1, in the first
    window the three leading padding columns get the IC value -1 and the
    mean is that of the one column that holds data.  Without a threshold
    the mean is the sum of the four IC values of the window divided by
    4. *)
Lemma window_mean_ic_spec_witness :
  (let '(m1, m2, e1, e2) :=
     equalize_mot_cols (flat_motif 2) (flat_motif 4) [2; 2] [2; 2; 2; 2] 1 in
   let '(tm1, _, ti1, _) :=
     alignment_window m1 m2 e1 e2 (Nat.min (length m1) (length m2)) 1
       (0%nat, 0%nat) in
   calc_mic ti1 = mean_ic_as_specified tm1 ti1)
  /\ (let '(m1, m2, e1, e2) :=
        equalize_mot_cols (flat_motif 2) (flat_motif 4) [2; 2] [2; 2; 2; 2] 1 in
      let '(_, _, ti1, _) :=
        alignment_window m1 m2 e1 e2 (Nat.min (length m1) (length m2)) 0
          (0%nat, 0%nat) in
      calc_mic ti1
      = Some (accumulate ti1 / INR (Nat.min (length m1) (length m2)))).
Proof.
  pose proof (fun posic =>
                window_mean_ic_spec 4 (flat_motif 2) (flat_motif 4) [2; 2]
                  [2; 2; 2; 2] 1 posic 0 0 ltac:(lia)
                  (flat_motif_with_ic 2 [2; 2] ltac:(lia) eq_refl)
                  (flat_motif_with_ic 4 [2; 2; 2; 2] ltac:(lia) eq_refl)
                  (overlap_exact_one _ _)) as H.
  rewrite equalize_2_4_one in *. cbv zeta in H.
  assert (Hi : (0 < 1 + length (pad_motif 4 3 (flat_motif 2))
                - Nat.min (length (pad_motif 4 3 (flat_motif 2)))
                          (length (flat_motif 4)))%nat)
    by (cbn; lia).
  assert (Hj : (0 < 1 + length (flat_motif 4)
                - Nat.min (length (pad_motif 4 3 (flat_motif 2)))
                          (length (flat_motif 4)))%nat)
    by (cbn; lia).
  split.
  - specialize (H 1 Hi Hj).
    destruct (alignment_window _ _ _ _ _ _ _) as [[[tm1 tm2] ti1] ti2].
    apply (proj1 (proj2 H)). lra.
  - specialize (H 0 Hi Hj).
    destruct (alignment_window _ _ _ _ _ _ _) as [[[tm1 tm2] ti1] ti2].
    apply (proj2 (proj2 H)); [lra|].
    repeat (apply Forall_cons; [lra|]). apply Forall_nil.
Defined.

(** C4, as the specification states it, fails on the code.  Widths 2 and 4,
    minimum overlap 1, no threshold: the first motif is padded to [P P P c c P
    P P] with the IC values [0 0 0 2 2 0 0 0]; the first window is [P P P c]
    with IC values [0 0 0 2], and its mean is 2 / 4: the three padding columns
    count in the denominator.  Over the non-padding columns the mean is 2. *)
Lemma window_mean_ic_counterexample :
  let '(m1, m2, e1, e2) :=
    equalize_mot_cols (flat_motif 2) (flat_motif 4) [2; 2] [2; 2; 2; 2] 1 in
  let '(tm1, _, ti1, _) :=
    alignment_window m1 m2 e1 e2 (Nat.min (length m1) (length m2)) 0
      (0%nat, 0%nat) in
  tm1 = [[-1; -1; -1; -1]; [-1; -1; -1; -1]; [-1; -1; -1; -1]; [1; 0; 0; 0]]
  /\ ti1 = [0; 0; 0; 2]
  /\ calc_mic ti1 = Some (1 / 2)
  /\ mean_ic_as_specified tm1 ti1 = Some 2.
Proof.
  rewrite equalize_2_4_one. unfold alignment_window.
  replace (Rltb 0 0) with false by (symmetry; apply Rltb_false; lra).
  cbn [fst snd].
  change (window 0 (Nat.min (length (pad_motif 4 3 (flat_motif 2)))
                            (length (flat_motif 4)))
                 (pad_motif 4 3 (flat_motif 2)))
    with [[-1; -1; -1; -1]; [-1; -1; -1; -1]; [-1; -1; -1; -1]; [1; 0; 0; 0]].
  change (window 0 (Nat.min (length (pad_motif 4 3 (flat_motif 2)))
                            (length (flat_motif 4)))
                 (pad_ic 3 [2; 2]))
    with [0; 0; 0; 2].
  split; [reflexivity | split; [reflexivity | split]].
  - rewrite calc_mic_filter. cbn [filter]. rdecide. cbn [length Nat.eqb].
    rewrite !accumulate_cons, accumulate_nil. f_equal. cbn [INR]. lra.
  - unfold mean_ic_as_specified. cbn [combine filter fst snd].
    rewrite is_data_padding4, is_data_1000. cbn [map length Nat.eqb].
    rewrite accumulate_cons, accumulate_nil. f_equal. cbn [INR snd]. lra.
Qed.

(** ** Selection of the best score *)

Lemma Rltb_opp (x y : R) : Rltb x y = Rltb (- y) (- x).
Proof.
  destruct (Rltb x y) eqn:E; symmetry.
  - apply Rltb_true in E. apply Rltb_true. lra.
  - apply Rltb_false in E. apply Rltb_false. lra.
Qed.

Lemma min_element_from_spec :
  forall (rest pre : list R) (i best : nat) (bestv : R),
    length pre = i -> (best < i)%nat -> nth best pre 0 = bestv ->
    Forall (fun x => bestv <= x) pre ->
    let k := min_element_from rest i best bestv in
    (k < length (pre ++ rest))%nat
    /\ Forall (fun x => nth k (pre ++ rest) 0 <= x) (pre ++ rest).
Proof.
  induction rest as [|x t IH]; intros pre i best bestv Hlen Hb Hv Hall.
  - cbn [min_element_from]. rewrite app_nil_r. split; [lia|].
    now rewrite Hv.
  - cbn [min_element_from].
    replace (pre ++ x :: t) with ((pre ++ [x]) ++ t)
      by (now rewrite <- app_assoc).
    destruct (Rltb x bestv) eqn:E.
    + apply Rltb_true in E.
      apply IH.
      * rewrite length_app. cbn [length]. lia.
      * lia.
      * rewrite <- Hlen. now rewrite nth_middle.
      * apply Forall_app. split; [|constructor; [lra | constructor]].
        eapply Forall_impl; [|exact Hall]. cbv beta. intros; lra.
    + apply Rltb_false in E.
      apply IH.
      * rewrite length_app. cbn [length]. lia.
      * lia.
      * rewrite app_nth1 by lia. exact Hv.
      * apply Forall_app. split; [exact Hall|].
        constructor; [exact E | constructor].
Qed.

Lemma max_as_min (rest : list R) :
  forall i best bestv,
    max_element_from rest i best bestv
    = min_element_from (map Ropp rest) i best (- bestv).
Proof.
  induction rest as [|x t IH]; intros i best bestv;
    cbn [max_element_from min_element_from map]; [reflexivity|].
  rewrite <- Rltb_opp. destruct (Rltb bestv x); apply IH.
Qed.

(** [*std::min_element] is a smallest element of a non-empty vector. *)
Lemma min_element_spec (v : list R) :
  v <> [] ->
  In (nth (min_element v) v 0) v
  /\ Forall (fun x => nth (min_element v) v 0 <= x) v.
Proof.
  destruct v as [|x t]; [easy|]. intros _. unfold min_element.
  destruct (min_element_from_spec t [x] 1 0 x) as [Hk Hall];
    try reflexivity; try lia; [constructor; [lra | constructor]|].
  cbn [app] in *. split; [now apply nth_In | exact Hall].
Qed.

Lemma max_element_spec (v : list R) :
  v <> [] ->
  In (nth (max_element v) v 0) v
  /\ Forall (fun x => x <= nth (max_element v) v 0) v.
Proof.
  intros Hne.
  assert (Hidx : max_element v = min_element (map Ropp v)).
  { destruct v as [|x t]; [reflexivity|]. apply max_as_min. }
  assert (Hne' : map Ropp v <> [])
    by (destruct v; [easy | discriminate]).
  destruct (min_element_spec (map Ropp v) Hne') as [Hin Hall].
  rewrite <- Hidx in *.
  assert (Hk : (max_element v < length v)%nat).
  { destruct (Nat.lt_ge_cases (max_element v) (length v)) as [H|H];
      [exact H|].
    rewrite nth_overflow in Hin by (now rewrite length_map).
    rewrite nth_overflow in Hall by (now rewrite length_map).
    apply in_map_iff in Hin. destruct Hin as (y & Hy & Hyin).
    rewrite Hidx. rewrite <- (length_map Ropp).
    destruct (map Ropp v) as [|z zs] eqn:Ez; [easy|].
    unfold min_element.
    destruct (min_element_from_spec zs [z] 1 0 z) as [Hlt _];
      try reflexivity; try lia; [constructor; [lra | constructor]|].
    exact Hlt. }
  split; [now apply nth_In|].
  apply Forall_forall. intros x Hx.
  rewrite Forall_forall in Hall.
  specialize (Hall (- x) (in_map Ropp v x Hx)).
  replace 0 with (- 0) in Hall by lra.
  rewrite map_nth in Hall. lra.
Qed.

Lemma distance_codes (method : string) :
  In method distance_metrics ->
  is_distance (enum_get METRICS_enum method) = true.
Proof.
  cbn [distance_metrics In].
  intros [<- | [<- | [<- | [<- | [<- | [<- | []]]]]]]; reflexivity.
Qed.

Lemma similarity_codes (method : string) :
  In method similarity_metrics ->
  is_distance (enum_get METRICS_enum method) = false
  /\ is_similarity (enum_get METRICS_enum method) = true.
Proof.
  cbn [similarity_metrics In].
  intros [<- | [<- | [<- | [<- | [<- | []]]]]]; split; reflexivity.
Qed.

Lemma return_best_ans_distance (ans : list R) (method : string) :
  In method distance_metrics -> ans <> [] ->
  In (return_best_ans ans method) ans
  /\ Forall (fun x => return_best_ans ans method <= x) ans.
Proof.
  intros Hm Hne. unfold return_best_ans.
  rewrite (distance_codes _ Hm). now apply min_element_spec.
Qed.

Lemma return_best_ans_similarity (ans : list R) (method : string) :
  In method similarity_metrics -> ans <> [] ->
  In (return_best_ans ans method) ans
  /\ Forall (fun x => x <= return_best_ans ans method) ans.
Proof.
  intros Hm Hne. unfold return_best_ans.
  destruct (similarity_codes _ Hm) as [-> ->]. now apply max_element_spec.
Qed.

(** ** Alignment search: the score array *)

Lemma map_opt_length {A B : Type} (f : A -> option B) :
  forall l r, map_opt f l = Some r -> length r = length l.
Proof.
  induction l as [|a t IH]; intros r H; cbn [map_opt] in H.
  - now injection H as <-.
  - destruct (f a) as [b|]; cbn [obnd] in H; [|discriminate].
    destruct (map_opt f t) as [bs|]; cbn [obnd] in H; [|discriminate].
    injection H as <-. cbn [length]. now rewrite (IH bs).
Qed.

Lemma map_opt_total {A B : Type} (f : A -> option B) (l : list A) :
  (forall a, exists b, f a = Some b) -> exists r, map_opt f l = Some r.
Proof.
  intros Hf. induction l as [|a t [bs IH]]; cbn [map_opt]; [eauto|].
  destruct (Hf a) as [b ->]. rewrite IH. cbn [obnd]. eauto.
Qed.

Lemma offsets_length (fori forj : nat) :
  length (offsets fori forj) = (fori * forj)%nat.
Proof.
  unfold offsets. generalize 0%nat at 2 as start.
  induction fori as [|n IH]; intros start; cbn [seq flat_map];
    [reflexivity|].
  rewrite length_app, length_map, length_seq, IH. lia.
Qed.

Lemma alignment_scores_length mot1 mot2 method moverlap ic1 ic2 minic norm
    posic bkg1 bkg2 nsites1 nsites2 strat offs :
  alignment_scores mot1 mot2 method moverlap ic1 ic2 minic norm posic bkg1
    bkg2 nsites1 nsites2 strat = Some offs ->
  length offs = offset_count mot1 mot2 ic1 ic2 moverlap
  /\ offs <> [].
Proof.
  unfold alignment_scores, offset_count.
  destruct (equalize_mot_cols mot1 mot2 ic1 ic2 moverlap)
    as [[[m1 m2] e1] e2].
  intros H. apply map_opt_length in H. rewrite offsets_length in H.
  split; [exact H|].
  intros ->. cbn [length] in H.
  assert (0 < (1 + length m1 - Nat.min (length m1) (length m2))
              * (1 + length m2 - Nat.min (length m1) (length m2)))%nat
    by (apply Nat.mul_pos_pos; lia).
  lia.
Qed.

(** Outside the median strategy every aggregation returns. *)
Lemma calc_final_score_total scores strat n good :
  enum_get SCORESTRAT_enum strat <> 4%Z ->
  exists s, calc_final_score scores strat n good = Some s.
Proof.
  intros H. unfold calc_final_score.
  destruct (enum_get SCORESTRAT_enum strat) as [|p|p]; eauto.
  repeat (match goal with q : positive |- _ => destruct q end; eauto).
  easy.
Qed.

Lemma get_compare_ans_total tmot1 tmot2 lowic alignlen tlen method nsites1
    nsites2 bkg1 bkg2 strat :
  enum_get SCORESTRAT_enum strat <> 4%Z ->
  exists s, get_compare_ans tmot1 tmot2 lowic alignlen tlen method nsites1
              nsites2 bkg1 bkg2 strat = Some s.
Proof.
  intros H. unfold get_compare_ans.
  assert (Hc : forall f, exists s, compare_with f tmot1 tmot2 strat = Some s)
    by (intros f; now apply calc_final_score_total).
  unfold compare_eucl, compare_kl, compare_pcc, compare_sw, compare_allr,
    compare_bhat, compare_hell, compare_is, compare_seucl, compare_man,
    compare_allr_ll.
  destruct (enum_get METRICS_enum method) as [|p|p]; eauto.
  repeat (match goal with q : positive |- _ => destruct q end; eauto);
    destruct lowic; eauto;
    match goal with
    | |- context [compare_with ?f _ _ _] =>
        destruct (Hc f) as [s ->]; cbn [obnd]; eauto
    end.
Qed.

Lemma alignment_scores_total mot1 mot2 method moverlap ic1 ic2 minic norm
    posic bkg1 bkg2 nsites1 nsites2 strat :
  enum_get SCORESTRAT_enum strat <> 4%Z ->
  exists offs,
    alignment_scores mot1 mot2 method moverlap ic1 ic2 minic norm posic bkg1
      bkg2 nsites1 nsites2 strat = Some offs.
Proof.
  intros H. unfold alignment_scores.
  destruct (equalize_mot_cols mot1 mot2 ic1 ic2 moverlap)
    as [[[m1 m2] e1] e2].
  apply map_opt_total. intros ij. unfold alignment_score.
  destruct (alignment_window _ _ _ _ _ _ _) as [[[tm1 tm2] ti1] ti2].
  now apply get_compare_ans_total.
Qed.

(** The call for the reverse complement passes [RC = false]: it is the
    offsets' scores and their best, whatever depth is granted. *)
Lemma compare_motif_pair_rec_no_rc (depth : nat) mot1 mot2 method moverlap
    ic1 ic2 minic norm posic bkg1 bkg2 nsites1 nsites2 strat :
  compare_motif_pair_rec (S depth) mot1 mot2 method moverlap false ic1 ic2
    minic norm posic bkg1 bkg2 nsites1 nsites2 strat
  = option_map (fun offs => (offs, return_best_ans offs method))
      (alignment_scores mot1 mot2 method moverlap ic1 ic2 minic norm posic
         bkg1 bkg2 nsites1 nsites2 strat).
Proof.
  cbn [compare_motif_pair_rec obnd].
  destruct (alignment_scores _ _ _ _ _ _ _ _ _ _ _ _ _ _) as [offs|];
    cbn [obnd option_map]; [|reflexivity].
  now rewrite app_nil_r.
Qed.


Lemma compare_motif_pair_ans_total mot1 mot2 method moverlap RC ic1 ic2 minic
    norm posic bkg1 bkg2 nsites1 nsites2 strat :
  enum_get SCORESTRAT_enum strat <> 4%Z ->
  exists ans,
    compare_motif_pair_ans mot1 mot2 method moverlap RC ic1 ic2 minic norm
      posic bkg1 bkg2 nsites1 nsites2 strat = Some ans.
Proof.
  intros H. unfold compare_motif_pair_ans.
  destruct (alignment_scores_total mot1 mot2 method moverlap ic1 ic2 minic
              norm posic bkg1 bkg2 nsites1 nsites2 strat H) as [offs E].
  destruct RC.
  - destruct (alignment_scores_total mot1 (get_motif_rc mot2) method moverlap
                ic1 (rev ic2) minic norm posic bkg1 bkg2 nsites1 nsites2
                strat H) as [rcoffs Erc].
    cbn [compare_motif_pair_rec]. rewrite Erc, E. cbn [obnd option_map fst].
    eauto.
  - rewrite compare_motif_pair_rec_no_rc, E. cbn [option_map fst]. eauto.
Qed.









(** *** The same search with the scores that are no numbers *)

Lemma quotient_number (x : R) (n : nat) :
  (0 < n)%nat -> quotient x n = Number (x / INR n).
Proof.
  intros Hn. unfold quotient.
  replace (n =? 0)%nat with false; [reflexivity|].
  symmetry. apply Nat.eqb_neq. lia.
Qed.

Lemma scaled_number (x : R) (a b : nat) :
  (0 < b)%nat -> scaled (Number x) a b = Number (x * INR a / INR b).
Proof. intros Hb. unfold scaled. now apply quotient_number. Qed.

Lemma calc_final_score_x_agrees scores strat n good :
  (0 < n)%nat ->
  calc_final_score_x scores strat n good
  = option_map Number (calc_final_score scores strat n good).
Proof.
  intros Hn. unfold calc_final_score_x, calc_final_score, score_amean_x,
    score_amean.
  destruct (enum_get SCORESTRAT_enum strat) as [|q|q]; try reflexivity.
  repeat (match goal with q : positive |- _ => destruct q end;
          try reflexivity).
  cbn [option_map]. now rewrite quotient_number.
Qed.

Lemma get_compare_ans_x_agrees tmot1 tmot2 lowic alignlen tlen method nsites1
    nsites2 bkg1 bkg2 strat :
  (0 < get_alignlen tmot1 tmot2)%nat -> (0 < alignlen)%nat ->
  (0 < tlen)%nat ->
  get_compare_ans_x tmot1 tmot2 lowic alignlen tlen method nsites1 nsites2
    bkg1 bkg2 strat
  = option_map Number
      (get_compare_ans tmot1 tmot2 lowic alignlen tlen method nsites1 nsites2
         bkg1 bkg2 strat).
Proof.
  intros Hg Ha Ht. unfold get_compare_ans_x, get_compare_ans.
  assert (Hc : forall f,
             compare_with_x f tmot1 tmot2 strat
             = option_map Number (compare_with f tmot1 tmot2 strat)).
  { intros f. unfold compare_with_x, compare_with.
    now apply calc_final_score_x_agrees. }
  unfold compare_eucl, compare_kl, compare_pcc, compare_sw, compare_allr,
    compare_bhat, compare_hell, compare_is, compare_seucl, compare_man,
    compare_allr_ll.
  destruct (enum_get METRICS_enum method) as [|q|q]; try reflexivity.
  repeat (match goal with q : positive |- _ => destruct q end;
          try reflexivity);
    destruct lowic; try reflexivity; rewrite Hc;
    match goal with
    | |- context [compare_with ?f _ _ _] =>
        destruct (compare_with f tmot1 tmot2 strat) as [v|];
        cbn [obnd option_map]; [now rewrite scaled_number | reflexivity]
    end.
Qed.

Lemma map_opt_agrees {A : Type} (f : A -> option R) (g : A -> option score)
    (l : list A) :
  Forall (fun a => g a = option_map Number (f a)) l ->
  map_opt g l = option_map (map Number) (map_opt f l).
Proof.
  induction 1 as [|a t Ha _ IH]; cbn [map_opt]; [reflexivity|].
  rewrite Ha, IH. destruct (f a) as [v|]; cbn [obnd option_map];
    [|reflexivity].
  now destruct (map_opt f t).
Qed.

Lemma alignment_scores_x_agrees mot1 mot2 method moverlap ic1 ic2 minic norm
    posic bkg1 bkg2 nsites1 nsites2 strat :
  mot1 <> [] ->
  windows_comparable mot1 mot2 ic1 ic2 moverlap posic ->
  alignment_scores_x mot1 mot2 method moverlap ic1 ic2 minic norm posic bkg1
    bkg2 nsites1 nsites2 strat
  = option_map (map Number)
      (alignment_scores mot1 mot2 method moverlap ic1 ic2 minic norm posic
         bkg1 bkg2 nsites1 nsites2 strat).
Proof.
  intros Hne Hw. unfold alignment_scores_x, alignment_scores,
    windows_comparable in *.
  assert (Ht : (0 < Nat.max (length mot1) (length mot2))%nat)
    by (destruct mot1; [easy | cbn [length]; lia]).
  destruct (equalize_mot_cols mot1 mot2 ic1 ic2 moverlap)
    as [[[m1 m2] e1] e2].
  apply map_opt_agrees. eapply Forall_impl; [|exact Hw]. cbv beta.
  intros ij Hij. unfold alignment_score_x, alignment_score.
  destruct (alignment_window m1 m2 e1 e2 _ posic ij)
    as [[[tm1 tm2] ti1] ti2].
  apply get_compare_ans_x_agrees; try assumption.
  now destruct norm.
Qed.

Lemma min_element_from_x_numbers (rest : list R) :
  forall i best bestv,
    min_element_from_x (map Number rest) i best (Number bestv)
    = min_element_from rest i best bestv.
Proof.
  induction rest as [|x t IH]; intros i best bestv;
    cbn [map min_element_from_x min_element_from score_lt]; [reflexivity|].
  destruct (Rltb x bestv); apply IH.
Qed.

Lemma max_element_from_x_numbers (rest : list R) :
  forall i best bestv,
    max_element_from_x (map Number rest) i best (Number bestv)
    = max_element_from rest i best bestv.
Proof.
  induction rest as [|x t IH]; intros i best bestv;
    cbn [map max_element_from_x max_element_from score_lt]; [reflexivity|].
  destruct (Rltb bestv x); apply IH.
Qed.

Lemma return_best_ans_x_numbers (ans : list R) (method : string) :
  return_best_ans_x (map Number ans) method
  = Number (return_best_ans ans method).
Proof.
  unfold return_best_ans_x, return_best_ans.
  assert (Hmin : min_element_x (map Number ans) = min_element ans).
  { destruct ans as [|x t]; [reflexivity|]. cbn [map min_element_x].
    apply min_element_from_x_numbers. }
  assert (Hmax : max_element_x (map Number ans) = max_element ans).
  { destruct ans as [|x t]; [reflexivity|]. cbn [map max_element_x].
    apply max_element_from_x_numbers. }
  rewrite Hmin, Hmax.
  destruct (is_distance _); [apply map_nth|].
  destruct (is_similarity _); [apply map_nth | reflexivity].
Qed.

(** Where every window has a comparable column, the search with the
    scores that are no numbers returns the number of the search above. *)
Lemma compare_motif_pair_x_agrees mot1 mot2 method moverlap RC ic1 ic2 minic
    norm posic bkg1 bkg2 nsites1 nsites2 strat :
  mot1 <> [] ->
  windows_comparable mot1 mot2 ic1 ic2 moverlap posic ->
  (RC = true ->
   windows_comparable mot1 (get_motif_rc mot2) ic1 (rev ic2) moverlap posic) ->
  compare_motif_pair_x mot1 mot2 method moverlap RC ic1 ic2 minic norm posic
    bkg1 bkg2 nsites1 nsites2 strat
  = option_map Number
      (compare_motif_pair mot1 mot2 method moverlap RC ic1 ic2 minic norm
         posic bkg1 bkg2 nsites1 nsites2 strat).
Proof.
  intros Hne Hw Hrc. unfold compare_motif_pair_x, compare_motif_pair.
  cbn [compare_motif_pair_rec_x compare_motif_pair_rec].
  rewrite (alignment_scores_x_agrees mot1 mot2) by assumption.
  destruct RC.
  - rewrite (alignment_scores_x_agrees mot1 (get_motif_rc mot2))
      by (try assumption; now apply Hrc).
    destruct (alignment_scores mot1 (get_motif_rc mot2) _ _ _ _ _ _ _ _ _ _
                _ _) as [rcoffs|]; cbn [obnd option_map]; [|reflexivity].
    destruct (alignment_scores mot1 mot2 _ _ _ _ _ _ _ _ _ _ _ _)
      as [offs|]; cbn [obnd option_map snd]; [|reflexivity].
    rewrite !app_nil_r, return_best_ans_x_numbers.
    replace (map Number offs ++ [Number (return_best_ans rcoffs method)])
      with (map Number (offs ++ [return_best_ans rcoffs method]))
      by (now rewrite map_app).
    now rewrite return_best_ans_x_numbers.
  - cbn [obnd].
    destruct (alignment_scores mot1 mot2 _ _ _ _ _ _ _ _ _ _ _ _)
      as [offs|]; cbn [obnd option_map snd]; [|reflexivity].
    now rewrite !app_nil_r, return_best_ans_x_numbers.
Qed.

(** ** Two motifs of one column each *)

Lemma toadd_pair_single (c1 c2 : list R) :
  toadd_pair [c1] [c2] 1 = (0%nat, 0%nat).
Proof.
  replace 1 with (INR 1) by reflexivity.
  rewrite toadd_pair_absolute by lia. reflexivity.
Qed.

(** One column against one column, minimum overlap 1, no thresholds, no
    normalisation, no reverse complement: one offset, whose score is the
    result. *)
Lemma compare_motif_pair_single (c1 c2 : list R) (x1 x2 : R)
    (method : string) (bkg1 bkg2 : list R) (nsites1 nsites2 : R)
    (strat : string) :
  0 <= x1 -> 0 <= x2 ->
  compare_motif_pair [c1] [c2] method 1 false [x1] [x2] 0 false 0 bkg1 bkg2
    nsites1 nsites2 strat
  = option_map (fun s => return_best_ans [s] method)
      (get_compare_ans [c1] [c2] false 1 1 method nsites1 nsites2 bkg1 bkg2
         strat).
Proof.
  intros H1 H2. unfold compare_motif_pair.
  rewrite compare_motif_pair_rec_no_rc. unfold alignment_scores.
  rewrite equalize_mot_cols_cases, toadd_pair_single.
  cbn [fst snd Nat.eqb orb length Nat.min Nat.max Nat.add Nat.sub offsets seq
       flat_map map app map_opt].
  unfold alignment_score, alignment_window.
  replace (Rltb 0 0) with false by (symmetry; apply Rltb_false; lra).
  cbn [fst snd window skipn firstn].
  rewrite !calc_mic_filter. cbn [filter].
  replace (Rleb 0 x1) with true by (symmetry; now apply Rleb_true).
  replace (Rleb 0 x2) with true by (symmetry; now apply Rleb_true).
  cbn [length Nat.eqb mic_below].
  rewrite !accumulate_cons, !accumulate_nil.
  replace (Rltb ((x1 + 0) / INR 1) 0) with false
    by (symmetry; apply Rltb_false; cbn [INR]; lra).
  replace (Rltb ((x2 + 0) / INR 1) 0) with false
    by (symmetry; apply Rltb_false; cbn [INR]; lra).
  cbn [orb].
  destruct (get_compare_ans _ _ _ _ _ _ _ _ _ _ _) as [s|];
    reflexivity.
Qed.

Lemma return_best_ans_single_ALLR (s : R) : return_best_ans [s] "ALLR" = s.
Proof. reflexivity. Qed.

(** ALLR of one column against one column under "sum". *)
Lemma get_compare_ans_single_ALLR (c1 c2 bkg1 bkg2 : list R)
    (nsites1 nsites2 : R) :
  is_data c1 = true -> is_data c2 = true ->
  get_compare_ans [c1] [c2] false 1 1 "ALLR" nsites1 nsites2 bkg1 bkg2 "sum"
  = Some ((0 + col_allr bkg1 bkg2 nsites1 nsites2 c1 c2) * INR 1 / INR 1).
Proof.
  intros H1 H2. unfold get_compare_ans.
  change (enum_get METRICS_enum "ALLR") with 9%Z. cbv iota beta.
  unfold compare_allr. rewrite compare_with_columns_sum by assumption.
  reflexivity.
Qed.

(** ** Batch comparison by index pairs *)

Lemma smoothed_A : klfix motif_A = [[0.49 + 0.01; 0.49 + 0.01]].
Proof. reflexivity. Qed.

Lemma bkgfix_A : bkgfix bkg_A = bkg_A.
Proof. apply bkgfix_without_zero. repeat constructor; lra. Qed.

Lemma bkgfix_B : bkgfix bkg_B = bkg_B.
Proof. apply bkgfix_without_zero. repeat constructor; lra. Qed.

Lemma is_data_smoothed_A : is_data [0.49 + 0.01; 0.49 + 0.01] = true.
Proof. unfold is_data, col0. cbn [nth]. apply Rleb_true. lra. Qed.

(** The ALLR of the smoothed column with itself against [bkg_A] on both
    sides: every logarithm is that of 1. *)
Lemma col_allr_A_A :
  col_allr bkg_A bkg_A 100 100 [0.49 + 0.01; 0.49 + 0.01]
    [0.49 + 0.01; 0.49 + 0.01] = 0.
Proof.
  unfold col_allr, bkg_A. cbn [combine map fst snd].
  replace ((0.49 + 0.01) / 0.5) with 1 by lra. rewrite ln_1.
  rewrite !accumulate_cons, accumulate_nil. lra.
Qed.

Lemma ln_ratio_sum_pos : 0 < ln ((0.49 + 0.01) / 0.25) + ln ((0.49 + 0.01) / 0.75).
Proof.
  rewrite <- ln_mult by lra. rewrite <- ln_1. apply ln_increasing; lra.
Qed.

(** The same against [bkg_A] for the first motif and [bkg_B] for the
    second. *)
Lemma col_allr_A_B :
  0 < col_allr bkg_A bkg_B 100 100 [0.49 + 0.01; 0.49 + 0.01]
        [0.49 + 0.01; 0.49 + 0.01].
Proof.
  unfold col_allr, bkg_A, bkg_B. cbn [combine map fst snd].
  replace ((0.49 + 0.01) / 0.5) with 1 by lra. rewrite ln_1.
  rewrite !accumulate_cons, accumulate_nil.
  pose proof ln_ratio_sum_pos as H.
  set (L1 := ln ((0.49 + 0.01) / 0.25)) in *.
  set (L2 := ln ((0.49 + 0.01) / 0.75)) in *.
  lra.
Qed.

(** C2 (the code departs from the specification).  Motifs 0 and 1 are the same
    one-column motif, with the backgrounds (0.5, 0.5) and (0.25, 0.75).
    For the index pair (0, 1) under ALLR, [compare_motifs_cpp] returns 0:
    the score with (0.5, 0.5) as both backgrounds.  With the background of
    motif 1 as the second one the score of this pair is positive, and that
    is what [compare_motifs_all_cpp] returns for the same pair. *)
Theorem compare_motifs_cpp_second_background :
  compare_motifs_cpp [motif_A; motif_A] [0%Z] [1%Z] "ALLR" 1 false
    [bkg_A; bkg_B] 2 false 0 false 0 [100; 100] "sum" = Ret [0]
  /\ (exists s,
         compare_motif_pair (klfix motif_A) (klfix motif_A) "ALLR" 1 false
           [accumulate [0.49 + 0.01; 0.49 + 0.01]]
           [accumulate [0.49 + 0.01; 0.49 + 0.01]] 0 false 0
           (bkgfix bkg_A) (bkgfix bkg_B) 100 100 "sum" = Some s
         /\ 0 < s)
  /\ (exists s00 s01 s11,
         compare_motifs_all_cpp [motif_A; motif_A] "ALLR" 1 false
           [bkg_A; bkg_B] 2 false 0 false 0 [100; 100] "sum"
         = Ret [[s00; s01]; [s11]]
         /\ 0 < s01).
Proof.
  assert (Hic : 0 <= accumulate [0.49 + 0.01; 0.49 + 0.01])
    by (rewrite !accumulate_cons, accumulate_nil; lra).
  split; [|split]; cycle 2.
  - unfold compare_motifs_all_cpp.
    replace (Rltb 1 0) with false by (symmetry; apply Rltb_false; lra).
    unfold check_common.
    replace (Rltb 0 0) with false by (symmetry; apply Rltb_false; lra).
    cbn [Z.eqb Pos.eqb orb negb length Nat.eqb obind].
    rewrite prepare_motifs_all by (repeat constructor; discriminate).
    cbn [obind fst snd combine map].
    rewrite !fix_mot_bkg_zeros_smooths by apply needs_smoothing_ALLR.
    cbn [fst snd]. rewrite smoothed_A, bkgfix_A, bkgfix_B.
    unfold icscores_of, internal_posIC.
    cbn [combine map fst snd Z.eqb Pos.eqb map_out length Nat.sub seq
         at_nat nth_error obind].
    rewrite !compare_motif_pair_single by assumption.
    rewrite !get_compare_ans_single_ALLR by apply is_data_smoothed_A.
    cbn [option_map lift obind].
    rewrite !return_best_ans_single_ALLR.
    do 3 eexists. split; [reflexivity|].
    pose proof col_allr_A_B as H. cbn [INR]. lra.
  - unfold compare_motifs_cpp.
    replace (Rltb 1 0) with false by (symmetry; apply Rltb_false; lra).
    unfold check_common.
    replace (Rltb 0 0) with false by (symmetry; apply Rltb_false; lra).
    cbn [Z.eqb Pos.eqb orb negb length Nat.eqb obind].
    rewrite prepare_motifs_all by (repeat constructor; discriminate).
    cbn [obind fst snd combine map].
    rewrite !fix_mot_bkg_zeros_smooths by apply needs_smoothing_ALLR.
    cbn [fst snd]. rewrite smoothed_A, bkgfix_A, bkgfix_B.
    unfold icscores_of, internal_posIC.
    cbn [combine map fst snd Z.eqb Pos.eqb map_out].
    unfold at_int. cbn [fst snd Z.ltb Z.compare].
    change (Z.to_nat 0) with 0%nat. change (Z.to_nat 1) with 1%nat.
    cbn [at_nat nth_error obind].
    rewrite compare_motif_pair_single by assumption.
    rewrite get_compare_ans_single_ALLR by apply is_data_smoothed_A.
    rewrite col_allr_A_A. cbn [option_map lift obind].
    rewrite return_best_ans_single_ALLR.
    do 2 f_equal. cbn [INR]. lra.
  - rewrite smoothed_A, bkgfix_A, bkgfix_B.
    rewrite compare_motif_pair_single by assumption.
    rewrite get_compare_ans_single_ALLR by apply is_data_smoothed_A.
    cbn [option_map]. rewrite return_best_ans_single_ALLR.
    eexists. split; [reflexivity|].
    pose proof col_allr_A_B as H. cbn [INR]. lra.
Qed.

(** ** Merging a motif with itself *)

Lemma combine_self {A : Type} (l : list A) :
  combine l l = map (fun x => (x, x)) l.
Proof. induction l as [|a t IH]; cbn [combine map]; now rewrite ?IH. Qed.

Lemma data_not_padding (col : list R) :
  is_data col = true -> is_padding col = false.
Proof.
  unfold is_data, is_padding. intros H. apply Rleb_true in H.
  apply Rltb_false. lra.
Qed.




Lemma both_padding_pads (nrow : nat) :
  (0 < nrow)%nat -> both_padding (padding_col nrow, padding_col nrow) = true.
Proof.
  intros H. unfold both_padding. cbn [fst snd].
  now rewrite padding_col_is_padding.
Qed.




Lemma skipn_pads {A : Type} (a : A) (t : nat) (l : list A) :
  skipn t (repeat a t ++ l) = l.
Proof.
  rewrite skipn_app, repeat_length, Nat.sub_diag.
  rewrite skipn_all2 by (rewrite repeat_length; lia). reflexivity.
Qed.

Lemma firstn_exact {A : Type} (l1 l2 : list A) (n : nat) :
  n = length l1 -> firstn n (l1 ++ l2) = l1.
Proof.
  intros ->. rewrite firstn_app, Nat.sub_diag, firstn_all.
  cbn [firstn]. apply app_nil_r.
Qed.


Lemma toadd_pair_same (mot : motif) (overlap : R) :
  snd (toadd_pair mot mot overlap) = fst (toadd_pair mot mot overlap).
Proof.
  unfold toadd_pair, overlap_targets. now destruct (Rltb overlap 1).
Qed.




(** ** Euclidean distance between columns that agree *)



Lemma sum_rows_self (c : list R) :
  sum_rows (fun a b => Rsqr (a - b)) c c = 0.
Proof.
  unfold sum_rows. rewrite combine_self. generalize 0 at 1 2 as acc.
  induction c as [|a t IH]; intros acc; cbn [map fold_left fst snd];
    [reflexivity|].
  rewrite IH. unfold Rsqr. lra.
Qed.

Lemma col_eucl_self (c : list R) : col_eucl c c = 0.
Proof. unfold col_eucl. rewrite sum_rows_self. apply sqrt_0. Qed.


(** ** A motif of two equal columns merged with itself, minimum overlap 1 *)












(** ** A motif of two different columns merged with itself, minimum
    overlap 1 *)












(** ** A search with windows that have no comparable column *)









(** * Further properties of the code *)

(** ** Reverse complement *)

(** X1.  The reverse complement is an involution: applied twice it gives
    the motif back.  It keeps the width of the motif and the length of
    every column, and column [k] of the result is column [width - 1 - k]
    read backwards. *)
Theorem get_motif_rc_involutive :
  forall mot : motif,
    get_motif_rc (get_motif_rc mot) = mot
    /\ length (get_motif_rc mot) = length mot
    /\ map (@length R) (get_motif_rc mot) = rev (map (@length R) mot)
    /\ (forall k, (k < length mot)%nat ->
          nth k (get_motif_rc mot) [] = rev (nth (length mot - S k) mot [])).
Proof.
  intros mot. unfold get_motif_rc. repeat split.
  - rewrite <- map_rev, rev_involutive, map_map.
    rewrite <- (map_id mot) at 2. apply map_ext. apply rev_involutive.
  - now rewrite length_map, length_rev.
  - rewrite map_map, <- map_rev. apply map_ext. apply length_rev.
  - intros k Hk. change [] with (rev (@nil R)) at 1.
    rewrite map_nth. f_equal. now apply rev_nth.
Qed.

(** ** Symmetry of the metrics *)

Lemma combine_swap {A B : Type} (l : list A) (l' : list B) :
  combine l' l = map (fun ab => (snd ab, fst ab)) (combine l l').
Proof.
  revert l'. induction l as [|a t IH]; intros [|b t']; cbn [combine map];
    try reflexivity.
  cbn [fst snd]. now rewrite IH.
Qed.

Lemma sum_rows_sym (g : R -> R -> R) (c1 c2 : list R) :
  (forall a b, g a b = g b a) ->
  sum_rows g c1 c2 = sum_rows g c2 c1.
Proof.
  intros Hg. unfold sum_rows. rewrite (combine_swap c1 c2).
  generalize 0 as acc. induction (combine c1 c2) as [|[a b] t IH];
    intros acc; cbn [map fold_left fst snd]; [reflexivity|].
  now rewrite IH, Hg.
Qed.

Lemma compare_with_sym (f f' : list R -> list R -> R) (mot1 mot2 : motif)
    (strat : string) :
  (forall c1 c2, f c1 c2 = f' c2 c1) ->
  compare_with f mot1 mot2 strat = compare_with f' mot2 mot1 strat.
Proof.
  intros Hf. unfold compare_with, good_mask, per_column.
  rewrite (combine_swap mot1 mot2), !map_map. cbn [fst snd].
  assert (Hmask : map (fun x : list R * list R =>
                         is_data (snd x) && is_data (fst x))
                      (combine mot1 mot2)
                  = map (fun cc => is_data (fst cc) && is_data (snd cc))
                        (combine mot1 mot2))
    by (apply map_ext; intros [c1 c2]; apply andb_comm).
  assert (Hcol : map (fun x : list R * list R =>
                        if is_data (snd x) && is_data (fst x)
                        then f' (snd x) (fst x) else 0)
                     (combine mot1 mot2)
                 = map (fun cc => if is_data (fst cc) && is_data (snd cc)
                                  then f (fst cc) (snd cc) else 0)
                       (combine mot1 mot2)).
  { apply map_ext; intros [c1 c2]. cbn [fst snd].
    now rewrite andb_comm, Hf. }
  now rewrite Hmask, Hcol.
Qed.

Lemma col_allr_sym (bkg1 bkg2 : list R) (nsites1 nsites2 : R)
    (c1 c2 : list R) :
  col_allr bkg1 bkg2 nsites1 nsites2 c1 c2
  = col_allr bkg2 bkg1 nsites2 nsites1 c2 c1.
Proof.
  unfold col_allr.
  assert (Hswap : forall (b : list R) (h : R * R * R -> R),
             map h (combine (combine c2 c1) b)
             = map (fun x => h (snd (fst x), fst (fst x), snd x))
                   (combine (combine c1 c2) b)).
  { intros b h. rewrite (combine_swap c1 c2).
    generalize (combine c1 c2) as l. intros l. revert b.
    induction l as [|[a a'] t IH]; intros [|y b]; cbn [map combine fst snd];
      try reflexivity.
    now rewrite IH. }
  rewrite !Hswap. cbn [fst snd].
  replace (nsites2 + nsites1) with (nsites1 + nsites2) by lra.
  unfold Rdiv. f_equal. ring.
Qed.

(** X2.  For two motifs of the same shape, swapping them does not change
    the score of EUCL, SEUCL, MAN, HELL, BHAT and SW, under any strategy;
    for ALLR and ALLR_LL the same holds when the two backgrounds and the
    two site counts are swapped with the motifs.  In each of these the
    swap exchanges the operands of a subtraction that is then squared or
    taken in absolute value, of a product or of a sum of two terms, and
    nothing else.  KL is not in the list: [compare_kl] adds the two terms
    of a row to the running sum one after the other, and the swap changes
    the order of these additions; IS is not symmetric at all. *)
Theorem metrics_symmetric :
  forall (nrow : nat) (mot1 mot2 : motif) (strat : string),
    same_shape nrow mot1 mot2 ->
    compare_eucl mot1 mot2 strat = compare_eucl mot2 mot1 strat
    /\ compare_seucl mot1 mot2 strat = compare_seucl mot2 mot1 strat
    /\ compare_man mot1 mot2 strat = compare_man mot2 mot1 strat
    /\ compare_hell mot1 mot2 strat = compare_hell mot2 mot1 strat
    /\ compare_bhat mot1 mot2 strat = compare_bhat mot2 mot1 strat
    /\ compare_sw mot1 mot2 strat = compare_sw mot2 mot1 strat
    /\ (forall bkg1 bkg2 nsites1 nsites2,
           compare_allr mot1 mot2 bkg1 bkg2 nsites1 nsites2 strat
           = compare_allr mot2 mot1 bkg2 bkg1 nsites2 nsites1 strat
           /\ compare_allr_ll mot1 mot2 bkg1 bkg2 nsites1 nsites2 strat
              = compare_allr_ll mot2 mot1 bkg2 bkg1 nsites2 nsites1 strat).
Proof.
  intros nrow mot1 mot2 strat _.
  unfold compare_eucl, compare_seucl, compare_man, compare_hell, compare_bhat,
    compare_sw, compare_allr, compare_allr_ll.
  repeat split; intros; apply compare_with_sym; intros c1 c2.
  - unfold col_eucl. f_equal. apply sum_rows_sym.
    intros a b. unfold Rsqr. lra.
  - unfold col_seucl. apply sum_rows_sym. intros a b. unfold Rsqr. lra.
  - unfold col_man. apply sum_rows_sym. intros a b. apply Rabs_minus_sym.
  - unfold col_hell. do 2 f_equal. apply sum_rows_sym.
    intros a b. unfold Rsqr. lra.
  - unfold col_bhat. apply sum_rows_sym. intros a b. now rewrite Rmult_comm.
  - unfold col_sw. f_equal. apply sum_rows_sym.
    intros a b. unfold Rsqr. lra.
  - apply col_allr_sym.
  - unfold col_allr_ll. now rewrite col_allr_sym.
Qed.

Lemma metrics_symmetric_witness :
  compare_eucl motif_cd (flat_motif 2) "a.mean"
  = compare_eucl (flat_motif 2) motif_cd "a.mean".
Proof.
  refine (proj1 (metrics_symmetric 4 motif_cd (flat_motif 2) "a.mean" _)).
  unfold same_shape, motif_cd, flat_motif. cbn [repeat].
  split; [discriminate|]. split; [reflexivity|].
  split; repeat constructor.
Defined.

(** ** A motif compared with itself *)

Lemma per_column_self (f : list R -> list R -> R) (mot : motif) :
  (forall c, f c c = 0) -> per_column f mot mot = map (fun _ => 0) mot.
Proof.
  intros Hf. unfold per_column. rewrite combine_self, map_map.
  apply map_ext. intros c. cbn [fst snd]. rewrite Hf.
  now destruct (is_data c && is_data c).
Qed.

Lemma accumulate_zeros {A : Type} (l : list A) :
  accumulate (map (fun _ => 0) l) = 0.
Proof.
  induction l as [|a t IH]; cbn [map]; [apply accumulate_nil|].
  rewrite accumulate_cons, IH. lra.
Qed.

Lemma keep_good_zeros {A : Type} (l : list A) (good : list bool) :
  Forall (fun x => x <= 0) (keep_good (map (fun _ => 0) l) good).
Proof.
  revert good. induction l as [|a t IH]; intros [|g gs];
    cbn [map keep_good]; try constructor.
  destruct g; [constructor; [lra | apply IH] | apply IH].
Qed.

Lemma compare_with_self (f : list R -> list R -> R) (mot : motif)
    (strat : string) :
  (forall c, f c c = 0) ->
  In strat ["sum"; "a.mean"; "g.mean"]%string ->
  compare_with f mot mot strat = Some 0.
Proof.
  intros Hf Hs. unfold compare_with, calc_final_score.
  rewrite (per_column_self f mot Hf).
  cbn [In] in Hs. destruct Hs as [<- | [<- | [<- | []]]].
  - rewrite enum_sum. unfold score_sum. now rewrite accumulate_zeros.
  - change (enum_get SCORESTRAT_enum "a.mean") with 2%Z. cbv iota.
    unfold score_amean. rewrite accumulate_zeros.
    f_equal. unfold Rdiv. apply Rmult_0_l.
  - rewrite enum_gmean. f_equal. apply score_gmean_none_positive.
    apply keep_good_zeros.
Qed.

Lemma sum_rows_abs_self (c : list R) :
  sum_rows (fun a b => Rabs (a - b)) c c = 0.
Proof.
  unfold sum_rows. rewrite combine_self. generalize 0 at 1 2 as acc.
  induction c as [|a t IH]; intros acc; cbn [map fold_left fst snd];
    [reflexivity|].
  rewrite IH. replace (a - a) with 0 by lra. rewrite Rabs_R0. lra.
Qed.

Lemma sum_rows_hell_self (c : list R) :
  sum_rows (fun a b => Rsqr (sqrt a - sqrt b)) c c = 0.
Proof.
  unfold sum_rows. rewrite combine_self. generalize 0 at 1 2 as acc.
  induction c as [|a t IH]; intros acc; cbn [map fold_left fst snd];
    [reflexivity|].
  rewrite IH. unfold Rsqr. lra.
Qed.

(** X3.  A motif compared column by column with itself is at distance 0
    under EUCL, SEUCL and MAN, for the strategies "sum", "a.mean" and
    "g.mean", padding columns included, and under HELL when no column
    that holds data has a negative entry (of which the code would take the
    square root).  Under "a.mean" one column at least must hold data: the
    mean is a quotient by the number of such columns. *)
Theorem self_distance_zero :
  forall (nrow : nat) (mot : motif) (strat : string),
    same_shape nrow mot mot ->
    In strat ["sum"; "a.mean"; "g.mean"]%string ->
    (strat = "a.mean"%string -> (0 < get_alignlen mot mot)%nat) ->
    compare_eucl mot mot strat = Some 0
    /\ compare_seucl mot mot strat = Some 0
    /\ compare_man mot mot strat = Some 0
    /\ (data_above false 0 mot -> compare_hell mot mot strat = Some 0).
Proof.
  intros nrow mot strat _ Hs _.
  unfold compare_eucl, compare_seucl, compare_man, compare_hell.
  repeat split; try intros _; apply compare_with_self; try assumption;
    intros c.
  - apply col_eucl_self.
  - apply sum_rows_self.
  - apply sum_rows_abs_self.
  - unfold col_hell. rewrite sum_rows_hell_self, sqrt_0.
    unfold Rdiv. apply Rmult_0_l.
Qed.

Lemma self_distance_zero_witness :
  compare_eucl motif_cd motif_cd "a.mean" = Some 0
  /\ compare_hell motif_cd motif_cd "a.mean" = Some 0.
Proof.
  assert (Hshape : same_shape 4 motif_cd motif_cd).
  { unfold same_shape, motif_cd. split; [discriminate|].
    split; [reflexivity|]. split; repeat constructor. }
  assert (Hlen : "a.mean"%string = "a.mean"%string
                 -> (0 < get_alignlen motif_cd motif_cd)%nat).
  { intros _. unfold get_alignlen, count_true, good_mask, motif_cd, is_data,
      col0. cbn [combine map fst snd nth]. rdecide.
    cbn [andb filter length]. lia. }
  assert (Hpos : data_above false 0 motif_cd).
  { unfold data_above, motif_cd.
    repeat (apply Forall_cons;
            [intros _; repeat (apply Forall_cons; [lra|]); apply Forall_nil|]).
    apply Forall_nil. }
  destruct (self_distance_zero 4 motif_cd "a.mean" Hshape
              (or_intror (or_introl eq_refl)) Hlen) as (He & _ & _ & Hh).
  split; [exact He | exact (Hh Hpos)].
Defined.

(** ** Pearson correlation of a uniform column *)

Lemma accumulate_repeat (x : R) (n : nat) :
  accumulate (repeat x n) = INR n * x.
Proof.
  induction n as [|n IH]; [cbn [repeat INR]; rewrite accumulate_nil; lra|].
  cbn [repeat]. rewrite accumulate_cons, IH, S_INR. lra.
Qed.

Lemma col_pcc_uniform_left (a : R) (n : nat) (c2 : list R) :
  col_pcc (repeat a n) c2 = 0.
Proof.
  unfold col_pcc. rewrite map_repeat, !accumulate_repeat, repeat_length.
  replace (INR n * (INR n * Rsqr a) - Rsqr (INR n * a)) with 0
    by (unfold Rsqr; ring).
  rewrite Rmult_0_l, sqrt_0.
  replace (Reqb 0 0) with true by (symmetry; now apply Reqb_true).
  reflexivity.
Qed.

Lemma col_pcc_uniform_right (b : R) (c1 : list R) :
  col_pcc c1 (repeat b (length c1)) = 0.
Proof.
  unfold col_pcc. rewrite map_repeat, !accumulate_repeat.
  replace (INR (length c1) * (INR (length c1) * Rsqr b)
           - Rsqr (INR (length c1) * b)) with 0
    by (unfold Rsqr; ring).
  rewrite Rmult_0_r, sqrt_0.
  replace (Reqb 0 0) with true by (symmetry; now apply Reqb_true).
  reflexivity.
Qed.

(** X4.  The Pearson correlation of the uniform column over an alphabet
    of [2 ^ j] letters (entries [1 / 2 ^ j]: for DNA, four entries 0.25)
    with any column of entries between -1 and 1 is 0, not a quotient by
    zero: the sums and squares of such a uniform column are powers of two
    and their difference is 0, which the test [bot == 0] catches.  When at
    every position one of the two columns is of this kind, PCC under "sum"
    is 0. *)
Theorem pcc_uniform_columns_zero :
  forall (j : nat) (mot1 mot2 : motif),
    same_shape (2 ^ j) mot1 mot2 ->
    Forall (fun col => Forall (fun x => Rabs x <= 1) col) mot1 ->
    Forall (fun col => Forall (fun x => Rabs x <= 1) col) mot2 ->
    Forall (fun cc => fst cc = repeat (/ 2 ^ j) (2 ^ j)
                      \/ snd cc = repeat (/ 2 ^ j) (2 ^ j))
           (combine mot1 mot2) ->
    compare_pcc mot1 mot2 "sum" = Some 0.
Proof.
  intros j mot1 mot2 (_ & _ & Hrows & _) _ _ H.
  unfold compare_pcc, compare_with, calc_final_score.
  rewrite enum_sum. unfold score_sum, per_column. f_equal.
  revert mot2 H. induction Hrows as [|c1 t1 Hc1 _ IH]; intros [|c2 t2] H;
    cbn [combine map fst snd] in *; try apply accumulate_nil.
  apply Forall_cons_iff in H. destruct H as [Hc H]. cbn [fst snd] in Hc.
  rewrite accumulate_cons, (IH t2 H).
  assert (Hz : col_pcc c1 c2 = 0).
  { destruct Hc as [-> | ->];
      [apply col_pcc_uniform_left
      | rewrite <- Hc1; apply col_pcc_uniform_right]. }
  rewrite Hz. destruct (is_data c1 && is_data c2); lra.
Qed.

Lemma pcc_uniform_columns_zero_witness :
  compare_pcc [repeat (/ 2 ^ 2) (2 ^ 2); [1; 0; 0; 0]]
    [[0.7; 0.1; 0.1; 0.1]; repeat (/ 2 ^ 2) (2 ^ 2)] "sum" = Some 0.
Proof.
  assert (Hunit : Forall (fun x => Rabs x <= 1) (repeat (/ 2 ^ 2) (2 ^ 2))).
  { change (2 ^ 2)%nat with 4%nat. cbn [repeat].
    repeat (apply Forall_cons; [apply Rabs_le; lra|]). apply Forall_nil. }
  assert (Hcol : forall a b c d : R,
             Rabs a <= 1 -> Rabs b <= 1 -> Rabs c <= 1 -> Rabs d <= 1 ->
             Forall (fun x => Rabs x <= 1) [a; b; c; d]).
  { intros a b c d Ha Hb Hc Hd.
    repeat (apply Forall_cons; [assumption|]). apply Forall_nil. }
  apply (pcc_uniform_columns_zero 2).
  - unfold same_shape. split; [discriminate|]. split; [reflexivity|].
    split; (apply Forall_cons; [|apply Forall_cons; [|apply Forall_nil]]);
      try apply repeat_length; reflexivity.
  - apply Forall_cons; [exact Hunit|].
    apply Forall_cons; [|apply Forall_nil].
    apply Hcol; apply Rabs_le; lra.
  - apply Forall_cons; [|apply Forall_cons; [exact Hunit|apply Forall_nil]].
    apply Hcol; apply Rabs_le; lra.
  - cbn [combine].
    apply Forall_cons; [left; reflexivity|].
    apply Forall_cons; [right; reflexivity|].
    apply Forall_nil.
Defined.

(** ** The floor of ALLR_LL *)

Lemma col_allr_ll_floor (bkg1 bkg2 : list R) (nsites1 nsites2 : R)
    (c1 c2 : list R) :
  -2 <= col_allr_ll bkg1 bkg2 nsites1 nsites2 c1 c2.
Proof.
  unfold col_allr_ll.
  destruct (Rltb (col_allr bkg1 bkg2 nsites1 nsites2 c1 c2) (-2)) eqn:E;
    [lra|].
  now apply Rltb_false in E.
Qed.

(** X5.  Under "sum" the ALLR_LL score of two motifs is never below -2
    times the number of columns at which both hold data: every such column
    contributes its ALLR value or -2, whichever is larger, and the other
    columns contribute 0.  This is for motifs and backgrounds as the
    smoothing pass leaves them, with positive entries only in the columns
    that hold data and in the backgrounds, one background entry per row,
    and positive site counts: every logarithm and every quotient of the
    ALLR value is then that of positive numbers. *)
Theorem allr_ll_sum_floor :
  forall (nrow : nat) (mot1 mot2 : motif) (bkg1 bkg2 : list R)
         (nsites1 nsites2 : R),
    same_shape nrow mot1 mot2 ->
    data_above true 0 mot1 -> data_above true 0 mot2 ->
    length bkg1 = nrow -> length bkg2 = nrow ->
    Forall (fun x => 0 < x) bkg1 -> Forall (fun x => 0 < x) bkg2 ->
    0 < nsites1 -> 0 < nsites2 ->
    exists s,
      compare_allr_ll mot1 mot2 bkg1 bkg2 nsites1 nsites2 "sum" = Some s
      /\ -2 * INR (get_alignlen mot1 mot2) <= s.
Proof.
  intros nrow mot1 mot2 bkg1 bkg2 nsites1 nsites2 _ _ _ _ _ _ _ _ _.
  unfold compare_allr_ll, compare_with, calc_final_score.
  rewrite enum_sum. eexists. split; [reflexivity|].
  unfold score_sum, get_alignlen, count_true, good_mask, per_column.
  induction (combine mot1 mot2) as [|[c1 c2] t IH]; cbn [map filter fst snd].
  - rewrite accumulate_nil. cbn [length INR]. lra.
  - rewrite accumulate_cons.
    pose proof (col_allr_ll_floor bkg1 bkg2 nsites1 nsites2 c1 c2) as Hf.
    destruct (is_data c1 && is_data c2); cbn [length].
    + rewrite S_INR. lra.
    + lra.
Qed.

Lemma allr_ll_sum_floor_witness :
  exists s,
    compare_allr_ll [[0.7; 0.3]; [-1; -1]] [[0.2; 0.8]; [0.5; 0.5]]
      bkg_A bkg_B 100 50 "sum" = Some s
    /\ -2 * INR (get_alignlen [[0.7; 0.3]; [-1; -1]]
                   [[0.2; 0.8]; [0.5; 0.5]]) <= s.
Proof.
  apply (allr_ll_sum_floor 2); unfold bkg_A, bkg_B; try reflexivity;
    try lra.
  - unfold same_shape. split; [discriminate|]. split; [reflexivity|].
    split; repeat constructor.
  - unfold data_above.
    apply Forall_cons;
      [intros _; repeat (apply Forall_cons; [lra|]); apply Forall_nil|].
    apply Forall_cons; [|apply Forall_nil].
    unfold is_data, col0. cbn [nth]. rdecide. discriminate.
  - unfold data_above.
    repeat (apply Forall_cons;
            [intros _; repeat (apply Forall_cons; [lra|]); apply Forall_nil|]).
    apply Forall_nil.
  - repeat (apply Forall_cons; [lra|]). apply Forall_nil.
  - repeat (apply Forall_cons; [lra|]). apply Forall_nil.
Defined.

(** ** Which offset is the best one *)

Lemma min_element_from_first :
  forall (rest pre : list R) (i best : nat) (bestv : R),
    length pre = i -> (best < i)%nat -> nth best pre 0 = bestv ->
    Forall (fun x => bestv <= x) pre ->
    (forall j, (j < best)%nat -> bestv < nth j pre 0) ->
    forall j, (j < min_element_from rest i best bestv)%nat ->
      nth (min_element_from rest i best bestv) (pre ++ rest) 0
      < nth j (pre ++ rest) 0.
Proof.
  induction rest as [|x t IH]; intros pre i best bestv Hlen Hb Hv Hall Hfirst.
  - cbn [min_element_from]. rewrite app_nil_r, Hv. exact Hfirst.
  - cbn [min_element_from].
    replace (pre ++ x :: t) with ((pre ++ [x]) ++ t)
      by (now rewrite <- app_assoc).
    destruct (Rltb x bestv) eqn:E.
    + apply Rltb_true in E. apply IH.
      * rewrite length_app. cbn [length]. lia.
      * lia.
      * rewrite <- Hlen. now rewrite nth_middle.
      * apply Forall_app. split; [|constructor; [lra | constructor]].
        eapply Forall_impl; [|exact Hall]. cbv beta. intros; lra.
      * intros j Hj. rewrite app_nth1 by lia.
        rewrite Forall_forall in Hall.
        assert (bestv <= nth j pre 0) by (apply Hall, nth_In; lia).
        lra.
    + apply Rltb_false in E. apply IH.
      * rewrite length_app. cbn [length]. lia.
      * lia.
      * rewrite app_nth1 by lia. exact Hv.
      * apply Forall_app. split; [exact Hall|].
        constructor; [exact E | constructor].
      * intros j Hj. rewrite app_nth1 by lia. now apply Hfirst.
Qed.

Lemma min_element_first (v : list R) :
  v <> [] ->
  (min_element v < length v)%nat
  /\ forall j, (j < min_element v)%nat ->
       nth (min_element v) v 0 < nth j v 0.
Proof.
  destruct v as [|x t]; [easy|]. intros _. unfold min_element. split.
  - destruct (min_element_from_spec t [x] 1 0 x) as [Hk _];
      try reflexivity; try lia; [constructor; [lra | constructor]|].
    exact Hk.
  - apply (min_element_from_first t [x] 1 0 x); try reflexivity; try lia.
    constructor; [lra | constructor].
Qed.

Lemma max_element_first (v : list R) :
  v <> [] ->
  (max_element v < length v)%nat
  /\ forall j, (j < max_element v)%nat ->
       nth j v 0 < nth (max_element v) v 0.
Proof.
  intros Hne.
  assert (Hidx : max_element v = min_element (map Ropp v)).
  { destruct v as [|x t]; [reflexivity|]. apply max_as_min. }
  assert (Hne' : map Ropp v <> [])
    by (destruct v; [easy | discriminate]).
  destruct (min_element_first (map Ropp v) Hne') as [Hk Hfirst].
  rewrite <- Hidx, length_map in *. split; [exact Hk|].
  intros j Hj. specialize (Hfirst j Hj).
  replace 0 with (- 0) in Hfirst by lra.
  rewrite !map_nth in Hfirst. lra.
Qed.

Lemma enum_get_unknown (method : string) :
  ~ In method (distance_metrics ++ similarity_metrics) ->
  enum_get METRICS_enum method = 0%Z.
Proof.
  intros H. unfold METRICS_enum. cbn [enum_get].
  repeat match goal with
         | |- context [String.eqb ?k method] =>
             let E := fresh "E" in
             destruct (String.eqb_spec k method) as [E|E];
             [exfalso; apply H; rewrite <- E; cbn; tauto|]
         end.
  reflexivity.
Qed.

(** X6.  For a non-empty score array, [return_best_ans_which] gives a
    position inside the array, the score there is the one
    [return_best_ans] gives, and it is the first position with that score:
    every earlier score is strictly larger for the distance metrics and
    strictly smaller for the similarity metrics.  For a method outside
    the table the two functions give -1 and -1111. *)
Theorem best_offset_is_first_best :
  forall (ans : list R) (method : string),
    ans <> [] ->
    (In method distance_metrics ->
     exists k,
       return_best_ans_which ans method = Z.of_nat k
       /\ (k < length ans)%nat
       /\ nth k ans 0 = return_best_ans ans method
       /\ forall j, (j < k)%nat -> return_best_ans ans method < nth j ans 0)
    /\ (In method similarity_metrics ->
        exists k,
          return_best_ans_which ans method = Z.of_nat k
          /\ (k < length ans)%nat
          /\ nth k ans 0 = return_best_ans ans method
          /\ forall j, (j < k)%nat ->
               nth j ans 0 < return_best_ans ans method)
    /\ (~ In method (distance_metrics ++ similarity_metrics) ->
        return_best_ans_which ans method = (-1)%Z
        /\ return_best_ans ans method = -1111.0).
Proof.
  intros ans method Hne. unfold return_best_ans_which, return_best_ans.
  split; [|split].
  - intros Hm. rewrite (distance_codes _ Hm).
    destruct (min_element_first ans Hne) as [Hk Hfirst].
    exists (min_element ans). repeat split; assumption.
  - intros Hm. destruct (similarity_codes _ Hm) as [-> ->].
    destruct (max_element_first ans Hne) as [Hk Hfirst].
    exists (max_element ans). repeat split; assumption.
  - intros Hm. rewrite (enum_get_unknown _ Hm). split; reflexivity.
Qed.

Lemma best_offset_is_first_best_witness :
  (exists k,
      return_best_ans_which [3; 1; 1] "EUCL" = Z.of_nat k
      /\ (k < 3)%nat
      /\ nth k [3; 1; 1] 0 = return_best_ans [3; 1; 1] "EUCL"
      /\ forall j, (j < k)%nat ->
           return_best_ans [3; 1; 1] "EUCL" < nth j [3; 1; 1] 0)
  /\ (exists k,
         return_best_ans_which [3; 1; 1] "PCC" = Z.of_nat k
         /\ (k < 3)%nat
         /\ nth k [3; 1; 1] 0 = return_best_ans [3; 1; 1] "PCC"
         /\ forall j, (j < k)%nat ->
              nth j [3; 1; 1] 0 < return_best_ans [3; 1; 1] "PCC")
  /\ return_best_ans_which [3; 1; 1] "XYZ" = (-1)%Z.
Proof.
  pose proof (best_offset_is_first_best [3; 1; 1] "EUCL"
                ltac:(discriminate)) as (Hd & _ & _).
  pose proof (best_offset_is_first_best [3; 1; 1] "PCC"
                ltac:(discriminate)) as (_ & Hs & _).
  pose proof (best_offset_is_first_best [3; 1; 1] "XYZ"
                ltac:(discriminate)) as (_ & _ & Hu).
  split; [|split].
  - apply Hd. now left.
  - apply Hs. now left.
  - apply Hu. cbn. intros H.
    repeat (destruct H as [H|H]; [discriminate|]). exact H.
Defined.

(** ** Low-information comparisons *)

Lemma accumulate_below (c : R) (l : list R) :
  l <> [] -> Forall (fun x => x < c) l -> accumulate l < INR (length l) * c.
Proof.
  intros Hne H. induction H as [|x t Hx Ht IH]; [easy|].
  rewrite accumulate_cons. cbn [length]. rewrite S_INR.
  destruct t as [|y t'].
  - rewrite accumulate_nil. cbn [length INR]. lra.
  - specialize (IH ltac:(discriminate)). lra.
Qed.

(** A window whose IC values all lie in [0, minic) has a mean under
    [minic]. *)
Lemma calc_mic_below (minic : R) (tic : list R) :
  tic <> [] -> Forall (fun x => 0 <= x < minic) tic ->
  mic_below (calc_mic tic) minic = true.
Proof.
  intros Hne H. rewrite calc_mic_filter.
  rewrite filter_all
    by (eapply Forall_impl; [|exact H]; cbv beta; intros x Hx;
        apply Rleb_true; lra).
  destruct tic as [|x t]; [easy|].
  change (length (x :: t) =? 0)%nat with false. cbv iota.
  cbn [mic_below]. apply Rltb_true.
  assert (Hn : 0 < INR (length (x :: t))) by (apply lt_0_INR; cbn; lia).
  assert (Hacc : accumulate (x :: t) < INR (length (x :: t)) * minic).
  { apply accumulate_below; [discriminate|].
    eapply Forall_impl; [|exact H]. cbv beta. intros; lra. }
  apply Rmult_lt_reg_r with (INR (length (x :: t))); [exact Hn|].
  unfold Rdiv. rewrite Rmult_assoc, Rinv_l by lra. lra.
Qed.

Lemma in_offsets (fori forj i j : nat) :
  In (i, j) (offsets fori forj) -> (i < fori)%nat /\ (j < forj)%nat.
Proof.
  unfold offsets. intros H. apply in_flat_map in H.
  destruct H as (a & Ha & H). apply in_map_iff in H.
  destruct H as (b & Hb & Hin). injection Hb as <- <-.
  apply in_seq in Ha. apply in_seq in Hin. lia.
Qed.

Lemma map_opt_const {A B : Type} (f : A -> option B) (d : B) (l : list A) :
  (forall a, In a l -> f a = Some d) ->
  map_opt f l = Some (map (fun _ => d) l).
Proof.
  induction l as [|a t IH]; intros H; cbn [map_opt map]; [reflexivity|].
  rewrite (H a (or_introl eq_refl)), IH by (intros; apply H; now right).
  reflexivity.
Qed.

Lemma get_compare_ans_lowic tmot1 tmot2 alignlen tlen method nsites1 nsites2
    bkg1 bkg2 strat :
  (In method distance_metrics ->
   get_compare_ans tmot1 tmot2 true alignlen tlen method nsites1 nsites2 bkg1
     bkg2 strat = Some dbl_max)
  /\ (In method similarity_metrics ->
      get_compare_ans tmot1 tmot2 true alignlen tlen method nsites1 nsites2
        bkg1 bkg2 strat = Some (- dbl_max)).
Proof.
  unfold get_compare_ans. generalize dbl_max as d. intros d.
  split; cbn [distance_metrics similarity_metrics In]; intros H;
    repeat (destruct H as [<- | H]; [reflexivity|]); contradiction.
Qed.

Lemma pad_ic_length' (toadd : nat) (ic : list R) :
  length (pad_ic toadd ic) = (toadd * 2 + length ic)%nat.
Proof. unfold pad_ic. rewrite !length_app, !repeat_length. lia. Qed.

(** The first motif's IC values after equalization are the given ones,
    possibly between zeros. *)
Lemma equalize_ic1_below (minic overlap : R) (mot1 mot2 : motif)
    (ic1 ic2 : list R) :
  ic1 <> [] -> length ic1 = length mot1 ->
  Forall (fun x => 0 <= x < minic) ic1 ->
  let '(m1, m2, e1, e2) := equalize_mot_cols mot1 mot2 ic1 ic2 overlap in
  length e1 = length m1 /\ Forall (fun x => 0 <= x < minic) e1.
Proof.
  intros Hne Hlen H. rewrite equalize_mot_cols_cases. cbv zeta.
  destruct (_ || _); [now split|].
  destruct (_ <? _)%nat; [|now split].
  split; [now rewrite pad_ic_length', pad_motif_length, Hlen|].
  assert (Hpos : 0 <= 0 < minic).
  { destruct ic1 as [|x t]; [easy|]. apply Forall_inv in H. lra. }
  assert (Hz : Forall (fun x => 0 <= x < minic)
                 (repeat 0 (fst (toadd_pair mot1 mot2 overlap)))).
  { apply Forall_forall. intros y Hy. apply repeat_spec in Hy. now subst. }
  unfold pad_ic. apply Forall_app. split; [exact Hz|].
  apply Forall_app. split; assumption.
Qed.

Lemma return_best_ans_const (ans : list R) (method : string) (d : R) :
  ans <> [] -> Forall (fun x => x = d) ans ->
  In method (distance_metrics ++ similarity_metrics) ->
  return_best_ans ans method = d.
Proof.
  intros Hne Hall Hm. rewrite Forall_forall in Hall. apply Hall.
  apply in_app_or in Hm. destruct Hm as [Hm | Hm].
  - now apply return_best_ans_distance.
  - now apply return_best_ans_similarity.
Qed.

(** When the IC values of the first motif all lie in [0, minic), every
    offset is a low-information one and gets the value [d] that
    [get_compare_ans] stores for those. *)
Lemma alignment_scores_lowic mot1 mot2 method moverlap ic1 ic2 minic norm
    posic bkg1 bkg2 nsites1 nsites2 strat (d : R) :
  mot1 <> [] -> mot2 <> [] -> length ic1 = length mot1 -> posic <= 0 ->
  Forall (fun x => 0 <= x < minic) ic1 ->
  (forall tm1 tm2 al tl,
      get_compare_ans tm1 tm2 true al tl method nsites1 nsites2 bkg1 bkg2
        strat = Some d) ->
  exists offs,
    alignment_scores mot1 mot2 method moverlap ic1 ic2 minic norm posic bkg1
      bkg2 nsites1 nsites2 strat = Some offs
    /\ offs <> [] /\ Forall (fun x => x = d) offs.
Proof.
  intros Hm1 Hm2 Hlen Hposic Hic Hd.
  assert (Hic_ne : ic1 <> [])
    by (destruct ic1, mot1; try easy; discriminate).
  assert (Hrun : exists offs,
             alignment_scores mot1 mot2 method moverlap ic1 ic2 minic norm
               posic bkg1 bkg2 nsites1 nsites2 strat = Some offs
             /\ Forall (fun x => x = d) offs).
  { unfold alignment_scores.
    pose proof (equalize_ic1_below minic moverlap mot1 mot2 ic1 ic2 Hic_ne
                  Hlen Hic) as He.
    pose proof (equalize_lengths moverlap mot1 mot2 ic1 ic2) as Hl.
    destruct (equalize_mot_cols mot1 mot2 ic1 ic2 moverlap)
      as [[[m1 m2] e1] e2].
    destruct He as [He1 He]. destruct Hl as [Hl1 Hl2].
    assert (H1 : (0 < length mot1)%nat)
      by (destruct mot1; [easy | cbn; lia]).
    assert (H2 : (0 < length mot2)%nat)
      by (destruct mot2; [easy | cbn; lia]).
    eexists. split.
    - apply map_opt_const with (d := d). intros [i j] Hin.
      apply in_offsets in Hin. destruct Hin as [Hi _].
      unfold alignment_score, alignment_window.
      replace (Rltb 0 posic) with false
        by (symmetry; now apply Rltb_false).
      cbn [fst snd].
      rewrite (calc_mic_below minic (window i _ e1)).
      + cbn [orb]. apply Hd.
      + intros Hw. apply (f_equal (@length _)) in Hw.
        rewrite window_length in Hw. cbn [length] in Hw. lia.
      + now apply Forall_window.
    - apply Forall_forall. intros x Hx. apply in_map_iff in Hx.
      now destruct Hx as (_ & <- & _). }
  destruct Hrun as (offs & Hoffs & Hall). exists offs.
  repeat split; try assumption.
  now destruct (alignment_scores_length _ _ _ _ _ _ _ _ _ _ _ _ _ _ _ Hoffs).
Qed.

(** X7.  When every IC value of the first motif lies in [0, minic) (one
    value per column on both sides) and no minimum position IC is set, every alignment is a low-information one:
    the comparison returns the largest double for a distance metric and
    its negative for a similarity metric, with or without the reverse
    complement and under every strategy, the median included (the metric
    itself is not evaluated). *)
Theorem low_information_comparison_sentinel :
  forall mot1 mot2 method moverlap RC ic1 ic2 minic norm posic bkg1 bkg2
         nsites1 nsites2 strat,
    mot1 <> [] -> mot2 <> [] ->
    length ic1 = length mot1 -> length ic2 = length mot2 ->
    posic <= 0 ->
    Forall (fun x => 0 <= x < minic) ic1 ->
    (In method distance_metrics ->
     compare_motif_pair mot1 mot2 method moverlap RC ic1 ic2 minic norm posic
       bkg1 bkg2 nsites1 nsites2 strat = Some dbl_max)
    /\ (In method similarity_metrics ->
        compare_motif_pair mot1 mot2 method moverlap RC ic1 ic2 minic norm
          posic bkg1 bkg2 nsites1 nsites2 strat = Some (- dbl_max)).
Proof.
  intros mot1 mot2 method moverlap RC ic1 ic2 minic norm posic bkg1 bkg2
    nsites1 nsites2 strat Hm1 Hm2 Hlen _ Hposic Hic.
  assert (Hgen : forall d,
    In method (distance_metrics ++ similarity_metrics) ->
    (forall tm1 tm2 al tl,
        get_compare_ans tm1 tm2 true al tl method nsites1 nsites2 bkg1 bkg2
          strat = Some d) ->
    compare_motif_pair mot1 mot2 method moverlap RC ic1 ic2 minic norm posic
      bkg1 bkg2 nsites1 nsites2 strat = Some d).
  { intros d Hm Hd. unfold compare_motif_pair.
    destruct (alignment_scores_lowic mot1 mot2 method moverlap ic1 ic2 minic
                norm posic bkg1 bkg2 nsites1 nsites2 strat d Hm1 Hm2 Hlen
                Hposic Hic Hd) as (offs & Hoffs & Hne & Hall).
    destruct RC.
    - assert (Hrc2 : get_motif_rc mot2 <> []).
      { intros E. apply (f_equal (@length _)) in E.
        unfold get_motif_rc in E. rewrite length_map, length_rev in E.
        destruct mot2; [easy | discriminate]. }
      destruct (alignment_scores_lowic mot1 (get_motif_rc mot2) method
                  moverlap ic1 (rev ic2) minic norm posic bkg1 bkg2 nsites1
                  nsites2 strat d Hm1 Hrc2 Hlen Hposic Hic Hd)
        as (rcoffs & Hrcoffs & Hrcne & Hrcall).
      cbn [compare_motif_pair_rec]. rewrite Hrcoffs, Hoffs.
      cbn [obnd option_map fst snd]. rewrite app_nil_r. f_equal.
      rewrite (return_best_ans_const rcoffs method d) by assumption.
      apply return_best_ans_const; try assumption.
      + now destruct offs.
      + apply Forall_app. split; [exact Hall|]. now constructor.
    - rewrite compare_motif_pair_rec_no_rc, Hoffs. cbn [option_map snd].
      f_equal. now apply return_best_ans_const. }
  split; intros Hm; apply Hgen.
  - apply in_or_app. now left.
  - intros. now apply get_compare_ans_lowic.
  - apply in_or_app. now right.
  - intros. now apply get_compare_ans_lowic.
Qed.

Lemma low_information_comparison_sentinel_witness :
  compare_motif_pair motif_cd (flat_motif 3) "EUCL" 1 true [0.5; 0.5]
    [2; 2; 2] 1 false 0 [0.25; 0.25; 0.25; 0.25] [0.25; 0.25; 0.25; 0.25]
    100 100 "median" = Some dbl_max
  /\ compare_motif_pair motif_cd (flat_motif 3) "PCC" 1 true [0.5; 0.5]
       [2; 2; 2] 1 false 0 [0.25; 0.25; 0.25; 0.25] [0.25; 0.25; 0.25; 0.25]
       100 100 "median" = Some (- dbl_max).
Proof.
  assert (Hic : Forall (fun x => 0 <= x < 1) [0.5; 0.5])
    by (repeat (apply Forall_cons; [lra|]); apply Forall_nil).
  split.
  - apply (low_information_comparison_sentinel motif_cd (flat_motif 3) "EUCL"
             1 true [0.5; 0.5] [2; 2; 2] 1 false 0);
      try discriminate; try reflexivity; try lra; try exact Hic.
    now left.
  - apply (low_information_comparison_sentinel motif_cd (flat_motif 3) "PCC"
             1 true [0.5; 0.5] [2; 2; 2] 1 false 0);
      try discriminate; try reflexivity; try lra; try exact Hic.
    now left.
Defined.

(** ** The median *)

Lemma insert_sorted_Forall (P : R -> Prop) (x : R) (l : list R) :
  P x -> Forall P l -> Forall P (insert_sorted x l).
Proof.
  intros Hx H. induction H as [|y t Hy Ht IH]; cbn [insert_sorted].
  - now constructor.
  - destruct (Rleb x y); repeat constructor; assumption.
Qed.

Lemma insert_sorted_ascending (x : R) (l : list R) :
  ascending l -> ascending (insert_sorted x l).
Proof.
  induction 1 as [|y t Hy Ht IH]; cbn [insert_sorted].
  - repeat constructor.
  - destruct (Rleb x y) eqn:E.
    + apply Rleb_true in E. constructor.
      * constructor; [exact E|].
        eapply Forall_impl; [|exact Hy]. cbv beta. intros; lra.
      * now constructor.
    + apply Rleb_false in E. constructor; [|exact IH].
      apply insert_sorted_Forall; [lra | exact Hy].
Qed.

Lemma sort_R_ascending (l : list R) : ascending (sort_R l).
Proof.
  unfold sort_R. induction l as [|x t IH]; cbn [fold_right];
    [constructor | now apply insert_sorted_ascending].
Qed.

Lemma insert_sorted_count (f : R -> bool) (x : R) (l : list R) :
  length (filter f (insert_sorted x l)) = length (filter f (x :: l)).
Proof.
  induction l as [|y t IH]; cbn [insert_sorted]; [reflexivity|].
  destruct (Rleb x y); [reflexivity|].
  cbn [filter] in *. destruct (f y), (f x); cbn [length] in *; lia.
Qed.

Lemma sort_R_count (f : R -> bool) (l : list R) :
  length (filter f (sort_R l)) = length (filter f l).
Proof.
  unfold sort_R. induction l as [|x t IH]; cbn [fold_right]; [reflexivity|].
  rewrite insert_sorted_count. cbn [filter].
  destruct (f x); cbn [length]; now rewrite IH.
Qed.

(** In an ascending list the entries up to position [j] are at most the
    entry there, and the entries from [j] on are at least it. *)
Lemma ascending_split (s : list R) :
  ascending s ->
  forall (j : nat) (v : R),
    nth_error s j = Some v ->
    Forall (fun x => x <= v) (firstn (S j) s)
    /\ Forall (fun x => v <= x) (skipn j s).
Proof.
  induction 1 as [|x l Hx Hl IH]; intros j v Hj; [now destruct j|].
  destruct j as [|j]; cbn [nth_error] in Hj.
  - injection Hj as <-. cbn [firstn skipn]. split.
    + constructor; [lra | constructor].
    + constructor; [lra | exact Hx].
  - destruct (IH j v Hj) as [H1 H2]. cbn [skipn]. split; [|exact H2].
    change (firstn (S (S j)) (x :: l)) with (x :: firstn (S j) l).
    constructor; [|exact H1].
    rewrite Forall_forall in Hx. apply Hx. eapply nth_error_In. exact Hj.
Qed.

Lemma count_at_least (f : R -> bool) (k : nat) (s : list R) :
  Forall (fun x => f x = true) (firstn k s) -> (k <= length s)%nat ->
  (k <= length (filter f s))%nat.
Proof.
  intros H Hk.
  assert (E : filter f s = firstn k s ++ filter f (skipn k s)).
  { rewrite <- (filter_all f (firstn k s) H), <- filter_app.
    now rewrite firstn_skipn. }
  rewrite E, length_app, length_firstn. lia.
Qed.

Lemma count_at_least_tail (f : R -> bool) (k : nat) (s : list R) :
  Forall (fun x => f x = true) (skipn k s) ->
  (length s - k <= length (filter f s))%nat.
Proof.
  intros H.
  assert (E : filter f s = filter f (firstn k s) ++ skipn k s).
  { rewrite <- (filter_all f (skipn k s) H), <- filter_app.
    now rewrite firstn_skipn. }
  rewrite E, length_app, length_skipn. lia.
Qed.

Lemma at_size_nth_error {A : Type} (v : list A) (i : Z) (a : A) :
  at_size v i = Some a -> (0 <= i)%Z /\ nth_error v (Z.to_nat i) = Some a.
Proof.
  unfold at_size. destruct (0 <=? i)%Z eqn:E; cbn [andb]; [|discriminate].
  apply Z.leb_le in E. destruct (i <? _)%Z; [|discriminate]. now split.
Qed.

(** X8.  For a non-empty score array (of a size a [std::size_t] holds)
    [score_median] returns a value that at least half of the scores do not
    exceed and at least half of the scores are not below. *)
Theorem score_median_is_a_median :
  forall scores : list R,
    scores <> [] ->
    (Z.of_nat (length scores) < SIZE_MOD)%Z ->
    exists m,
      score_median scores = Some m
      /\ (length scores
          <= 2 * length (filter (fun x => Rleb x m) scores))%nat
      /\ (length scores
          <= 2 * length (filter (fun x => Rleb m x) scores))%nat.
Proof.
  intros scores Hne Hsize.
  destruct (score_median_nonempty scores Hne) as [m Hm].
  exists m. split; [exact Hm|].
  rewrite <- !(sort_R_count _ scores).
  pose proof (sort_R_ascending scores) as Hasc.
  pose proof (sort_R_length scores) as Hlen.
  assert (Hpos : (0 < length scores)%nat)
    by (destruct scores; [easy | cbn [length]; lia]).
  assert (Hsorted :
    let size := Z.of_nat (length scores) in
    (if (size mod 2 =? 0)%Z then
       a <-? at_size (sort_R scores) (size_sub (size / 2) 1) ;;
       b <-? at_size (sort_R scores) (size / 2) ;;
       Some ((a + b) / 2)
     else at_size (sort_R scores) (size / 2)) = Some m).
  { unfold score_median in Hm.
    destruct (Z.of_nat (length scores) =? 1)%Z eqn:E1; [|exact Hm].
    apply Z.eqb_eq in E1.
    destruct scores as [|x [|y t]]; cbn [length] in E1; try lia.
    exact Hm. }
  cbv zeta in Hsorted.
  set (s := sort_R scores) in *.
  set (n := length scores) in *.
  assert (Hdiv : (Z.of_nat n / 2 = Z.of_nat (n / 2))%Z)
    by (now rewrite Nat2Z.inj_div).
  assert (Hmod : (Z.of_nat n mod 2 = Z.of_nat (n mod 2))%Z)
    by (now rewrite Nat2Z.inj_mod).
  pose proof (Nat.div_mod_eq n 2) as Hn.
  pose proof (Nat.mod_upper_bound n 2 ltac:(lia)) as Hr.
  rewrite Hdiv, Hmod in Hsorted.
  destruct (Z.of_nat (n mod 2) =? 0)%Z eqn:E2.
  - apply Z.eqb_eq in E2.
    assert (Hk : (1 <= n / 2)%nat) by lia.
    assert (Hsub : size_sub (Z.of_nat (n / 2)) 1 = Z.of_nat (n / 2 - 1)).
    { unfold size_sub. rewrite Z.mod_small; lia. }
    rewrite Hsub in Hsorted.
    destruct (at_size s (Z.of_nat (n / 2 - 1))) as [a|] eqn:Ea;
      [|discriminate].
    destruct (at_size s (Z.of_nat (n / 2))) as [b|] eqn:Eb; [|discriminate].
    cbn [obnd] in Hsorted. injection Hsorted as <-.
    apply at_size_nth_error in Ea, Eb.
    destruct Ea as [_ Ea], Eb as [_ Eb]. rewrite Nat2Z.id in Ea, Eb.
    destruct (ascending_split s Hasc _ _ Ea) as [Ha1 Ha2].
    destruct (ascending_split s Hasc _ _ Eb) as [Hb1 Hb2].
    assert (Hab : a <= b).
    { rewrite Forall_forall in Hb1. apply Hb1.
      apply nth_error_In with (n := (n / 2 - 1)%nat).
      rewrite nth_error_firstn.
      replace (n / 2 - 1 <? S (n / 2))%nat with true
        by (symmetry; apply Nat.ltb_lt; lia).
      exact Ea. }
    replace (S (n / 2 - 1)) with (n / 2)%nat in Ha1 by lia.
    split.
    + assert (H : (n / 2 <= length (filter (fun x => Rleb x ((a + b) / 2)) s))%nat).
      { apply count_at_least; [|lia].
        eapply Forall_impl; [|exact Ha1]. cbv beta. intros x Hx.
        apply Rleb_true. lra. }
      lia.
    + assert (H : (length s - n / 2
                   <= length (filter (fun x => Rleb ((a + b) / 2) x) s))%nat).
      { apply count_at_least_tail.
        eapply Forall_impl; [|exact Hb2]. cbv beta. intros x Hx.
        apply Rleb_true. lra. }
      lia.
  - apply Z.eqb_neq in E2.
    apply at_size_nth_error in Hsorted. destruct Hsorted as [_ Em].
    rewrite Nat2Z.id in Em.
    destruct (ascending_split s Hasc _ _ Em) as [H1 H2].
    assert (Hin : (n / 2 < length s)%nat)
      by (apply nth_error_Some; congruence).
    split.
    + assert (H : (S (n / 2) <= length (filter (fun x => Rleb x m) s))%nat).
      { apply count_at_least; [|lia].
        eapply Forall_impl; [|exact H1]. cbv beta. intros x Hx.
        now apply Rleb_true. }
      lia.
    + assert (H : (length s - n / 2
                   <= length (filter (fun x => Rleb m x) s))%nat).
      { apply count_at_least_tail.
        eapply Forall_impl; [|exact H2]. cbv beta. intros x Hx.
        now apply Rleb_true. }
      lia.
Qed.

Lemma score_median_is_a_median_witness :
  exists m,
    score_median [3; 1; 2; 5] = Some m
    /\ (length [3; 1; 2; 5]%R
        <= 2 * length (filter (fun x => Rleb x m) [3; 1; 2; 5]%R))%nat
    /\ (length [3; 1; 2; 5]%R
        <= 2 * length (filter (fun x => Rleb m x) [3; 1; 2; 5]%R))%nat.
Proof.
  apply (score_median_is_a_median [3; 1; 2; 5]); [discriminate|].
  reflexivity.
Defined.

(** ** Merging backgrounds *)

Lemma accumulate_weighted (w d : R) :
  forall l1 l2 : list R,
    length l1 = length l2 ->
    accumulate (map (fun ab => (fst ab * w + snd ab) / d) (combine l1 l2))
    = (accumulate l1 * w + accumulate l2) / d.
Proof.
  induction l1 as [|a t IH]; intros [|b u] Hlen; try discriminate.
  - cbn [combine map]. rewrite accumulate_nil. unfold Rdiv. ring.
  - cbn [combine map fst snd]. rewrite !accumulate_cons, IH
      by (cbn [length] in Hlen; lia).
    unfold Rdiv. ring.
Qed.

Lemma weighted_nonneg (w : R) :
  0 <= w ->
  forall l1 l2 : list R,
    Forall (fun x => 0 <= x) l1 -> Forall (fun x => 0 <= x) l2 ->
    Forall (fun x => 0 <= x)
      (map (fun ab => (fst ab * w + snd ab) / (w + 1)) (combine l1 l2)).
Proof.
  intros Hw l1 l2 H1. revert l2.
  induction H1 as [|a t Ha _ IH]; intros l2 H2; [constructor|].
  destruct H2 as [|b u Hb Hu]; [constructor|].
  cbn [combine map fst snd]. constructor; [|now apply IH].
  apply Rmult_le_pos; [nra|]. left. apply Rinv_0_lt_compat. lra.
Qed.

(** X9.  [merge_bkg_pair] reads [bkg2] past its end when it is the shorter
    one.  For two backgrounds of the same length that hold non-negative
    entries summing to 1, and a weight of 0 or more, the merged background
    has that length, holds non-negative entries and sums to 1 again. *)
Theorem merge_bkg_pair_distribution :
  forall (bkg1 bkg2 : list R) (weight : Z),
    ((length bkg2 < length bkg1)%nat ->
     merge_bkg_pair bkg1 bkg2 weight = None)
    /\ (length bkg1 = length bkg2 ->
        (0 <= weight)%Z ->
        Forall (fun x => 0 <= x) bkg1 -> accumulate bkg1 = 1 ->
        Forall (fun x => 0 <= x) bkg2 -> accumulate bkg2 = 1 ->
        exists newbkg,
          merge_bkg_pair bkg1 bkg2 weight = Some newbkg
          /\ length newbkg = length bkg1
          /\ Forall (fun x => 0 <= x) newbkg
          /\ accumulate newbkg = 1).
Proof.
  intros bkg1 bkg2 weight. unfold merge_bkg_pair. split.
  - intros H.
    replace (length bkg1 <=? length bkg2)%nat with false
      by (symmetry; apply Nat.leb_gt; lia).
    reflexivity.
  - intros Hlen Hw H1 S1 H2 S2.
    replace (length bkg1 <=? length bkg2)%nat with true
      by (symmetry; apply Nat.leb_le; lia).
    assert (Hw' : 0 <= IZR weight) by now apply IZR_le.
    eexists. split; [reflexivity|]. repeat split.
    + rewrite length_map, length_combine. lia.
    + now apply weighted_nonneg.
    + rewrite accumulate_weighted by exact Hlen. rewrite S1, S2.
      field. lra.
Qed.

Lemma merge_bkg_pair_distribution_witness :
  merge_bkg_pair [0.25; 0.25; 0.25; 0.25] [0.5; 0.5] 1 = None
  /\ exists newbkg,
       merge_bkg_pair [0.25; 0.75] [0.5; 0.5] 2 = Some newbkg
       /\ length newbkg = length [0.25; 0.75]
       /\ Forall (fun x => 0 <= x) newbkg
       /\ accumulate newbkg = 1.
Proof.
  split.
  - apply (merge_bkg_pair_distribution [0.25; 0.25; 0.25; 0.25] [0.5; 0.5] 1).
    cbn [length]. lia.
  - apply (merge_bkg_pair_distribution [0.25; 0.75] [0.5; 0.5] 2).
    + reflexivity.
    + lia.
    + repeat (apply Forall_cons; [lra|]). apply Forall_nil.
    + unfold accumulate. cbn [fold_left]. lra.
    + repeat (apply Forall_cons; [lra|]). apply Forall_nil.
    + unfold accumulate. cbn [fold_left]. lra.
Defined.

(** ** The merged motif *)

Lemma is_data_not_padding (col : list R) :
  is_data col = negb (is_padding col).
Proof.
  unfold is_data, is_padding.
  destruct (Rltb (col0 col) 0) eqn:E.
  - apply Rltb_true in E. apply Rleb_false. lra.
  - apply Rltb_false in E. apply Rleb_true. lra.
Qed.

Lemma averaged_col_is_data (w : R) (c1 c2 : list R) :
  0 <= w -> is_data c1 = true -> is_data c2 = true ->
  is_data (map (fun ab => (fst ab * w + snd ab) / (w + 1)) (combine c1 c2))
  = true.
Proof.
  intros Hw H1 H2. unfold is_data, col0 in *.
  apply Rleb_true in H1, H2. apply Rleb_true.
  destruct c1 as [|a t]; [cbn [combine map nth]; lra|].
  destruct c2 as [|b u]; [cbn [combine map nth]; lra|].
  cbn [combine map nth fst snd] in *.
  apply Rmult_le_pos; [nra|]. left. apply Rinv_0_lt_compat. lra.
Qed.

(** X10.  The merged motif holds no padding column: of two aligned motifs
    of the same width, with columns of [nrow] entries, exactly the columns
    that are padding in both are left out, and every column of the result
    has [nrow] entries the first of which is not negative (the weight
    being 0 or more). *)
Theorem get_merged_motif_has_no_padding :
  forall (nrow : nat) (mot1 mot2 : motif) (weight : Z),
    (0 <= weight)%Z ->
    length mot1 = length mot2 ->
    Forall (fun col => length col = nrow) mot1 ->
    Forall (fun col => length col = nrow) mot2 ->
    let out := get_merged_motif mot1 mot2 weight in
    Forall (fun col => is_data col = true /\ length col = nrow) out
    /\ length out
       = length (filter (fun cc => negb (both_padding cc))
                        (combine mot1 mot2)).
Proof.
  intros nrow mot1 mot2 weight Hw Hlen H1 H2. cbv zeta.
  assert (Hw' : 0 <= IZR weight) by now apply IZR_le.
  unfold get_merged_motif. revert mot2 Hlen H2.
  induction H1 as [|c1 t1 Hc1 _ IH]; intros [|c2 t2] Hlen H2;
    try discriminate.
  - cbn [combine flat_map filter length]. split; [constructor | reflexivity].
  - apply Forall_cons_iff in H2. destruct H2 as [Hc2 Ht2].
    destruct (IH t2 ltac:(cbn [length] in Hlen; lia) Ht2) as [IH1 IH2].
    cbn [combine flat_map filter fst snd]. unfold both_padding.
    cbn [fst snd]. rewrite !is_data_not_padding.
    destruct (is_padding c1) eqn:P1, (is_padding c2) eqn:P2;
      cbn [andb negb app length]; rewrite ?IH2;
      (split; [|reflexivity]); try exact IH1;
      constructor; try exact IH1.
    + split; [now rewrite is_data_not_padding, P2 | exact Hc2].
    + split; [now rewrite is_data_not_padding, P1 | exact Hc1].
    + split.
      * apply averaged_col_is_data;
          [exact Hw' | now rewrite is_data_not_padding, P1
          | now rewrite is_data_not_padding, P2].
      * rewrite length_map, length_combine, Hc1, Hc2. apply Nat.min_id.
Qed.

Lemma get_merged_motif_has_no_padding_witness :
  let out :=
    get_merged_motif [[-1; -1]; [0.5; 0.5]; [-1; -1]]
                     [[-1; -1]; [1; 0]; [0; 1]] 1 in
  Forall (fun col => is_data col = true /\ length col = 2%nat) out
  /\ length out
     = length (filter (fun cc => negb (both_padding cc))
                 (combine [[-1; -1]; [0.5; 0.5]; [-1; -1]]
                          [[-1; -1]; [1; 0]; [0; 1]])).
Proof.
  apply (get_merged_motif_has_no_padding 2
           [[-1; -1]; [0.5; 0.5]; [-1; -1]] [[-1; -1]; [1; 0]; [0; 1]] 1).
  - lia.
  - reflexivity.
  - repeat (apply Forall_cons; [reflexivity|]). apply Forall_nil.
  - repeat (apply Forall_cons; [reflexivity|]). apply Forall_nil.
Defined.

(** ** Placing a motif among padding columns *)

Lemma count_left_empty_pads (nrow : nat) (rest : motif) :
  (0 < nrow)%nat ->
  forall k : nat,
    count_left_empty (repeat (padding_col nrow) k ++ rest)
    = (k + count_left_empty rest)%nat.
Proof.
  intros Hn. induction k as [|k IH]; [reflexivity|].
  cbn [repeat app count_left_empty].
  now rewrite padding_col_is_padding, IH.
Qed.

(** X11.  [add_motif_columns] writes outside its output when the shift is
    negative or the motif does not fit; otherwise the output has [tlen]
    columns, its leading padding columns (as [count_left_empty] counts
    them, for a motif that starts with a column holding data) are as many
    as the shift, and the motif is found back after them. *)
Theorem add_motif_columns_round_trip :
  forall (mot : motif) (tlen : nat) (add : Z),
    ((add < 0 \/ Z.of_nat tlen < add + Z.of_nat (length mot))%Z ->
     add_motif_columns mot tlen add = None)
    /\ ((0 <= add)%Z ->
        (add + Z.of_nat (length mot) <= Z.of_nat tlen)%Z ->
        (0 < length (nth 0 mot []))%nat ->
        is_data (nth 0 mot []) = true ->
        exists out,
          add_motif_columns mot tlen add = Some out
          /\ length out = tlen
          /\ count_left_empty out = Z.to_nat add
          /\ firstn (length mot) (skipn (Z.to_nat add) out) = mot).
Proof.
  intros mot tlen add. unfold add_motif_columns. split.
  - intros H.
    replace ((0 <=? add)
             && (add + Z.of_nat (length mot) <=? Z.of_nat tlen))%Z
      with false; [reflexivity|].
    symmetry. apply andb_false_iff.
    destruct H as [H | H]; [left; apply Z.leb_gt | right; apply Z.leb_gt];
      lia.
  - intros Hadd Hfit Hn Hdata.
    replace ((0 <=? add)
             && (add + Z.of_nat (length mot) <=? Z.of_nat tlen))%Z
      with true
      by (symmetry; apply andb_true_iff; split; apply Z.leb_le; lia).
    eexists. split; [reflexivity|]. repeat split.
    + rewrite !length_app, !repeat_length. lia.
    + rewrite count_left_empty_pads by exact Hn.
      destruct mot as [|c t]; [cbn [nth length] in Hn; lia|].
      cbn [nth] in Hdata. cbn [app count_left_empty].
      rewrite (data_not_padding c Hdata). lia.
    + rewrite skipn_pads. now apply firstn_exact.
Qed.

Lemma add_motif_columns_round_trip_witness :
  add_motif_columns motif_cd 3 2 = None
  /\ exists out,
       add_motif_columns motif_cd 5 2 = Some out
       /\ length out = 5%nat
       /\ count_left_empty out = Z.to_nat 2
       /\ firstn (length motif_cd) (skipn (Z.to_nat 2) out) = motif_cd.
Proof.
  split.
  - apply (add_motif_columns_round_trip motif_cd 3 2). right.
    cbn [motif_cd length]. lia.
  - apply (add_motif_columns_round_trip motif_cd 5 2).
    + lia.
    + cbn [motif_cd length]. lia.
    + cbn [motif_cd nth length]. lia.
    + cbn [motif_cd nth]. unfold is_data, col0. cbn [nth].
      apply Rleb_true. lra.
Defined.

(** ** Clearing the padding values *)

Lemma neg_one_to_zero_rectangular (mot : motif) :
  rectangular mot ->
  neg_one_to_zero mot = map (map (fun x => if Rltb x 0 then 0 else x)) mot.
Proof.
  unfold rectangular, neg_one_to_zero.
  generalize (length (nth 0 mot [])) as nrow.
  intros nrow H. apply map_ext_Forall.
  induction H as [|col t Hc _ IH]; constructor; [|exact IH].
  rewrite <- Hc, firstn_all, skipn_all. apply app_nil_r.
Qed.

Lemma clear_negative_nonneg (x : R) : 0 <= (if Rltb x 0 then 0 else x).
Proof.
  destruct (Rltb x 0) eqn:E; [lra|]. apply Rltb_false in E. lra.
Qed.

Lemma clear_negative_fixed (x : R) :
  0 <= x -> (if Rltb x 0 then 0 else x) = x.
Proof.
  intros H. replace (Rltb x 0) with false; [reflexivity|].
  symmetry. apply Rltb_false. lra.
Qed.

Lemma rectangular_map (f : R -> R) (mot : motif) :
  rectangular mot -> rectangular (map (map f) mot).
Proof.
  unfold rectangular. intros H.
  replace (length (nth 0 (map (map f) mot) []))
    with (length (nth 0 mot [])).
  - apply Forall_map. eapply Forall_impl; [|exact H]. cbv beta.
    intros col Hc. now rewrite length_map.
  - destruct mot as [|c t]; cbn [map nth]; [reflexivity|].
    now rewrite length_map.
Qed.

(** X12.  On a motif whose columns have the same number of entries,
    [neg_one_to_zero] leaves no negative entry, keeps the shape and every
    entry that is not negative, and changes nothing when applied again. *)
Theorem neg_one_to_zero_clears_negatives :
  forall mot : motif,
    rectangular mot ->
    let out := neg_one_to_zero mot in
    Forall (Forall (fun x => 0 <= x)) out
    /\ map (@length R) out = map (@length R) mot
    /\ (forall i j : nat,
           0 <= nth j (nth i mot []) 0 ->
           nth j (nth i out []) 0 = nth j (nth i mot []) 0)
    /\ neg_one_to_zero out = out.
Proof.
  intros mot Hrect. cbv zeta.
  rewrite (neg_one_to_zero_rectangular mot Hrect).
  set (f := fun x : R => if Rltb x 0 then 0 else x).
  repeat split.
  - apply Forall_map. apply Forall_forall. intros col _.
    apply Forall_map. apply Forall_forall. intros x _.
    apply clear_negative_nonneg.
  - rewrite map_map. apply map_ext. intros col. apply length_map.
  - intros i j Hij.
    change (@nil R) with (map f []) at 1. rewrite map_nth.
    destruct (Nat.lt_ge_cases j (length (nth i mot []))) as [Hj | Hj].
    + rewrite (nth_indep _ 0 (f 0)) by now rewrite length_map.
      rewrite map_nth. now apply clear_negative_fixed.
    + now rewrite !nth_overflow by (rewrite ?length_map; lia).
  - rewrite neg_one_to_zero_rectangular by now apply rectangular_map.
    rewrite map_map. apply map_ext. intros col. rewrite map_map.
    apply map_ext. intros x. unfold f.
    apply clear_negative_fixed. apply clear_negative_nonneg.
Qed.

Lemma neg_one_to_zero_clears_negatives_witness :
  let out := neg_one_to_zero [[-1; -1]; [0.5; 0.5]] in
  Forall (Forall (fun x => 0 <= x)) out
  /\ map (@length R) out = map (@length R) [[-1; -1]; [0.5; 0.5]]
  /\ (forall i j : nat,
         0 <= nth j (nth i [[-1; -1]; [0.5; 0.5]] []) 0 ->
         nth j (nth i out []) 0 = nth j (nth i [[-1; -1]; [0.5; 0.5]] []) 0)
  /\ neg_one_to_zero out = out.
Proof.
  apply (neg_one_to_zero_clears_negatives [[-1; -1]; [0.5; 0.5]]).
  repeat (apply Forall_cons; [reflexivity|]). apply Forall_nil.
Defined.

(** ** The comparison matrix *)

Lemma at_nat_Ret {A : Type} (v : list A) (i : nat) (a : A) :
  at_nat v i = Ret a <-> nth_error v i = Some a.
Proof.
  unfold at_nat. destruct (nth_error v i); split; intros H;
    try discriminate; congruence.
Qed.

Lemma matrix_set_cell (m : matrix) (i j : nat) (v : R) :
  (i < side m)%nat -> (j < side m)%nat ->
  exists m',
    matrix_set m (Z.of_nat i) (Z.of_nat j) v = Ret m'
    /\ side m' = side m
    /\ forall a b,
         cell m' a b
         = if ((a =? i) && (b =? j))%nat then v else cell m a b.
Proof.
  intros Hi Hj. unfold matrix_set.
  replace ((0 <=? Z.of_nat i) && (Z.of_nat i <? Z.of_nat (side m))
           && (0 <=? Z.of_nat j) && (Z.of_nat j <? Z.of_nat (side m)))%Z
    with true.
  - eexists. split; [reflexivity|]. cbn [side cell].
    split; [reflexivity|]. intros a b. now rewrite !Nat2Z.id.
  - symmetry. rewrite !andb_true_iff. repeat split;
      try apply Z.leb_le; try apply Z.ltb_lt; lia.
Qed.

(** What the loop of [get_comparison_matrix] keeps: the side, the
    symmetry, and that a cell holds 0.0 or a score listed for it. *)
Lemma comparison_matrix_loop_keeps (n : nat) (ans : list R)
    (index1 index2 : list Z) :
  Forall (fun z => (0 <= z < Z.of_nat n)%Z) index1 ->
  Forall (fun z => (0 <= z < Z.of_nat n)%Z) index2 ->
  let listed (a b : nat) (v : R) :=
    exists k i1 i2,
      nth_error ans k = Some v /\ nth_error index1 k = Some i1
      /\ nth_error index2 k = Some i2
      /\ ((a = Z.to_nat i1 /\ b = Z.to_nat i2)
          \/ (a = Z.to_nat i2 /\ b = Z.to_nat i1)) in
  forall (rest : list R) (i : nat) (out : matrix),
    (forall k v, nth_error rest k = Some v ->
                 nth_error ans (i + k) = Some v) ->
    (i + length rest <= length index1)%nat ->
    (i + length rest <= length index2)%nat ->
    side out = n ->
    (forall a b, cell out a b = cell out b a) ->
    (forall a b, cell out a b = 0 \/ listed a b (cell out a b)) ->
    exists out',
      comparison_matrix_loop rest index1 index2 i out = Ret out'
      /\ side out' = n
      /\ (forall a b, cell out' a b = cell out' b a)
      /\ (forall a b, cell out' a b = 0 \/ listed a b (cell out' a b)).
Proof.
  intros H1 H2 listed.
  induction rest as [|v rest IH]; intros i out Hans Hl1 Hl2 Hside Hsym Hcell.
  - exists out. now repeat split.
  - cbn [length] in Hl1, Hl2. cbn [comparison_matrix_loop].
    destruct (nth_error index1 i) as [i1|] eqn:E1;
      [|apply nth_error_None in E1; lia].
    destruct (nth_error index2 i) as [i2|] eqn:E2;
      [|apply nth_error_None in E2; lia].
    rewrite (proj2 (at_nat_Ret index1 i i1) E1).
    rewrite (proj2 (at_nat_Ret index2 i i2) E2). cbn [obind].
    assert (R1 : (0 <= i1 < Z.of_nat n)%Z).
    { rewrite Forall_forall in H1. apply H1. eapply nth_error_In. exact E1. }
    assert (R2 : (0 <= i2 < Z.of_nat n)%Z).
    { rewrite Forall_forall in H2. apply H2. eapply nth_error_In. exact E2. }
    destruct (matrix_set_cell out (Z.to_nat i1) (Z.to_nat i2) v)
      as (out1 & Eo1 & S1 & C1); try lia.
    rewrite !Z2Nat.id in Eo1 by lia. rewrite Eo1. cbn [obind].
    destruct (matrix_set_cell out1 (Z.to_nat i2) (Z.to_nat i1) v)
      as (out2 & Eo2 & S2 & C2); try lia.
    rewrite !Z2Nat.id in Eo2 by lia. rewrite Eo2. cbn [obind].
    assert (Hv : nth_error ans i = Some v).
    { specialize (Hans 0%nat v eq_refl). now rewrite Nat.add_0_r in Hans. }
    apply IH.
    + intros k w Hk. replace (S i + k)%nat with (i + S k)%nat by lia.
      now apply Hans.
    + lia.
    + lia.
    + congruence.
    + intros a b. rewrite !C2, !C1.
      destruct (a =? Z.to_nat i2)%nat eqn:A2,
               (b =? Z.to_nat i1)%nat eqn:B1,
               (a =? Z.to_nat i1)%nat eqn:A1,
               (b =? Z.to_nat i2)%nat eqn:B2;
        cbn [andb]; try reflexivity; apply Hsym.
    + intros a b. rewrite C2, C1.
      destruct ((a =? Z.to_nat i2) && (b =? Z.to_nat i1))%nat eqn:A.
      * right. apply andb_true_iff in A. destruct A as [A B].
        apply Nat.eqb_eq in A, B. exists i, i1, i2. tauto.
      * destruct ((a =? Z.to_nat i1) && (b =? Z.to_nat i2))%nat eqn:B.
        -- right. apply andb_true_iff in B. destruct B as [B C].
           apply Nat.eqb_eq in B, C. exists i, i1, i2. tauto.
        -- apply Hcell.
Qed.

(** X13.  Given two index lists as long as the score list, with entries
    that are positions among the names, [get_comparison_matrix] returns a
    square matrix over the names which is symmetric, and every cell of
    which holds 0.0 or a score whose index pair is that cell's row and
    column in one order or the other. *)
Theorem get_comparison_matrix_symmetric :
  forall (ans : list R) (index1 index2 : list Z) (nnames : nat),
    length index1 = length ans -> length index2 = length ans ->
    Forall (fun z => (0 <= z < Z.of_nat nnames)%Z) index1 ->
    Forall (fun z => (0 <= z < Z.of_nat nnames)%Z) index2 ->
    exists out,
      get_comparison_matrix ans index1 index2 nnames = Ret out
      /\ side out = nnames
      /\ (forall a b, cell out a b = cell out b a)
      /\ (forall a b,
             cell out a b = 0
             \/ exists k i1 i2,
                  nth_error ans k = Some (cell out a b)
                  /\ nth_error index1 k = Some i1
                  /\ nth_error index2 k = Some i2
                  /\ ((a = Z.to_nat i1 /\ b = Z.to_nat i2)
                      \/ (a = Z.to_nat i2 /\ b = Z.to_nat i1))).
Proof.
  intros ans index1 index2 nnames L1 L2 H1 H2. unfold get_comparison_matrix.
  apply (comparison_matrix_loop_keeps nnames ans index1 index2 H1 H2);
    cbn [matrix_zero side cell]; try lia; try reflexivity; auto.
Qed.

Lemma get_comparison_matrix_symmetric_witness :
  exists out,
    get_comparison_matrix [0.5; 0.25] [0; 0]%Z [1; 2]%Z 3 = Ret out
    /\ side out = 3%nat
    /\ (forall a b, cell out a b = cell out b a)
    /\ (forall a b,
           cell out a b = 0
           \/ exists k i1 i2,
                nth_error [0.5; 0.25] k = Some (cell out a b)
                /\ nth_error [0; 0]%Z k = Some i1
                /\ nth_error [1; 2]%Z k = Some i2
                /\ ((a = Z.to_nat i1 /\ b = Z.to_nat i2)
                    \/ (a = Z.to_nat i2 /\ b = Z.to_nat i1))).
Proof.
  apply (get_comparison_matrix_symmetric [0.5; 0.25] [0; 0]%Z [1; 2]%Z 3);
    try reflexivity;
    repeat (apply Forall_cons; [lia|]); apply Forall_nil.
Defined.

(** ** Merging a list of one motif *)

Lemma prepare_motifs_unchecked_single (who : string) (m : motif)
    (bkg : list (list R)) (method : string) :
  (exists msg, prepare_motifs_unchecked who [m] bkg method = Stop msg)
  \/ prepare_motifs_unchecked who [m] bkg method = OutOfBounds
  \/ exists m' bkg',
       prepare_motifs_unchecked who [m] bkg method = Ret ([m'], bkg').
Proof.
  cbn [prepare_motifs_unchecked].
  destruct (length m =? 0)%nat; [left; eexists; reflexivity|].
  destruct bkg as [|b bs]; [right; now left|].
  cbn [obind fst snd]. destruct (fix_mot_bkg_zeros m b method) as [m' b'].
  right. right. eexists. eexists. reflexivity.
Qed.

(** X14.  [merge_motifs_cpp] needs two motifs: with a list of one it never
    returns a result.  It stops on a negative threshold or an empty
    motif, and otherwise reads past the end of a vector ([nsites[1]],
    [vmots[1]] or the missing background). *)
Theorem merge_motifs_cpp_single_motif :
  forall (m : motif) (method : string) (RC : bool)
         (minoverlap minic posic : R) (bkg : list (list R))
         (relative norm : bool) (nsites : list R) (strat : string),
    (exists msg,
        merge_motifs_cpp [m] method RC minoverlap minic posic bkg relative
          norm nsites strat = Stop msg)
    \/ merge_motifs_cpp [m] method RC minoverlap minic posic bkg relative
         norm nsites strat = OutOfBounds.
Proof.
  intros m method RC minoverlap minic posic bkg relative norm nsites strat.
  unfold merge_motifs_cpp.
  destruct (Rltb minic 0); [left; eexists; reflexivity|].
  destruct (Rltb posic 0); [left; eexists; reflexivity|].
  cbn [length Nat.eqb].
  destruct (prepare_motifs_unchecked_single
              "encountered an empty motif [compare_motifs_all_cpp()]" m bkg
              method) as [[msg ->] | [-> | (m' & bkg' & ->)]];
    [left; eexists; reflexivity | now right |].
  cbn [obind fst snd]. right.
  unfold at_nat at 1. destruct (nth_error nsites 0); [|reflexivity].
  cbn [obind]. unfold at_nat at 1.
  destruct (nth_error nsites 1); reflexivity.
Qed.

(** ** The row search of the P-value lookup *)

Lemma find_row_sound (target : list Z) (n1 n2 : Z) :
  forall (rest : list Z) (j : nat) (r : Z),
    find_row rest target n1 n2 j = Ret (Some r) ->
    exists i : nat,
      r = Z.of_nat (j + i) /\ nth_error rest i = Some n1
      /\ nth_error target (j + i) = Some n2.
Proof.
  induction rest as [|s rest IH]; intros j r H; cbn [find_row] in H;
    [discriminate|].
  assert (Hnext : find_row rest target n1 n2 (S j) = Ret (Some r) ->
                  exists i : nat,
                    r = Z.of_nat (j + i)
                    /\ nth_error (s :: rest) i = Some n1
                    /\ nth_error target (j + i) = Some n2).
  { intros H'. destruct (IH _ _ H') as (i & -> & Hs & Ht).
    exists (S i). replace (j + S i)%nat with (S j + i)%nat by lia.
    now repeat split. }
  destruct (n1 =? s)%Z eqn:E1; [|now apply Hnext].
  apply Z.eqb_eq in E1. unfold at_nat in H.
  destruct (nth_error target j) as [t|] eqn:Et; [|discriminate].
  cbn [obind] in H.
  destruct (n2 =? t)%Z eqn:E2; [|now apply Hnext].
  apply Z.eqb_eq in E2. injection H as <-. exists 0%nat.
  rewrite Nat.add_0_r. cbn [nth_error]. repeat split; congruence.
Qed.

(** X15.  A row that the search of [pval_extractor] returns is -1 or the
    position of a table row whose two widths are the widths asked for,
    both raised by the same number of steps, and lie strictly below the
    last widths of the table: a row holding the table's last width is
    never returned. *)
Theorem row_search_sound :
  forall (fuel : nat) (subject target : list Z) (n1 n2 row r : Z),
    row_search fuel subject target n1 n2 row = Ret r ->
    r = (-1)%Z
    \/ exists (k : Z) (smax tmax : Z),
         (0 <= k)%Z /\ (0 <= r)%Z
         /\ nth_error subject (Z.to_nat r) = Some (n1 + k)%Z
         /\ nth_error target (Z.to_nat r) = Some (n2 + k)%Z
         /\ at_last subject = Ret smax /\ at_last target = Ret tmax
         /\ (n1 + k < smax)%Z /\ (n2 + k < tmax)%Z.
Proof.
  induction fuel as [|fuel IH]; intros subject target n1 n2 row r H;
    cbn [row_search] in H; [discriminate|].
  destruct (find_row subject target n1 n2 0) as [found| | | |] eqn:Ef;
    try discriminate.
  cbn [obind] in H.
  destruct ((n1 =? INT_MAX) || (n2 =? INT_MAX))%Z; [discriminate|].
  destruct (at_last subject) as [smax| | | |] eqn:Es; try discriminate.
  destruct (at_last target) as [tmax| | | |] eqn:Et; try discriminate.
  cbn [obind] in H.
  destruct found as [j|].
  - destruct ((n1 + 1 >? smax) || (n2 + 1 >? tmax))%Z eqn:Elast;
      injection H as <-; [now left|].
    apply orb_false_iff in Elast. destruct Elast as [L1 L2].
    rewrite Z.gtb_ltb in L1, L2. apply Z.ltb_ge in L1, L2.
    destruct (find_row_sound _ _ _ _ _ _ Ef) as (i & -> & Hs & Ht).
    right. exists 0%Z, smax, tmax. rewrite Nat2Z.id, !Z.add_0_r.
    cbn [Nat.add] in *. repeat split; try assumption; try lia.
  - destruct (IH _ _ _ _ _ _ H)
      as [-> | (k & smax' & tmax' & Hk & Hr & Hs & Ht & Es' & Et' & B1 & B2)];
      [now left|].
    right. exists (k + 1)%Z, smax', tmax'.
    replace (n1 + (k + 1))%Z with (n1 + 1 + k)%Z by lia.
    replace (n2 + (k + 1))%Z with (n2 + 1 + k)%Z by lia.
    repeat split; try assumption; try lia; congruence.
Qed.

Lemma row_search_sound_witness :
  (0 = -1)%Z
  \/ exists (k : Z) (smax tmax : Z),
       (0 <= k)%Z /\ (0 <= 0)%Z
       /\ nth_error [5; 7; 9]%Z (Z.to_nat 0) = Some (4 + k)%Z
       /\ nth_error [6; 8; 9]%Z (Z.to_nat 0) = Some (5 + k)%Z
       /\ at_last [5; 7; 9]%Z = Ret smax /\ at_last [6; 8; 9]%Z = Ret tmax
       /\ (4 + k < smax)%Z /\ (5 + k < tmax)%Z.
Proof.
  apply (row_search_sound 3 [5; 7; 9]%Z [6; 8; 9]%Z 4 5 7 0).
  reflexivity.
Defined.

(** ** The two comparison entry points *)

Lemma map_out_spec {A B : Type} (f : A -> outcome B) :
  forall (l : list A) (r : list B),
    map_out f l = Ret r ->
    length r = length l
    /\ forall i a, nth_error l i = Some a ->
                   exists b, nth_error r i = Some b /\ f a = Ret b.
Proof.
  induction l as [|x t IH]; intros r H; cbn [map_out] in H.
  - injection H as <-. split; [reflexivity|]. now intros [|i].
  - destruct (f x) as [b| | | |] eqn:Eb; try discriminate. cbn [obind] in H.
    destruct (map_out f t) as [bs| | | |] eqn:Ebs; try discriminate.
    cbn [obind] in H. injection H as <-.
    destruct (IH bs eq_refl) as [Hl Hn]. split; [cbn [length]; lia|].
    intros [|i] a Ha; cbn [nth_error] in *.
    + injection Ha as <-. now exists b.
    + now apply Hn.
Qed.

Lemma map_out_total {A B : Type} (f : A -> outcome B) (l : list A) :
  (forall a, In a l -> exists b, f a = Ret b) ->
  exists r, map_out f l = Ret r.
Proof.
  induction l as [|x t IH]; intros H; cbn [map_out]; [now exists []|].
  destruct (H x (or_introl eq_refl)) as [b ->]. cbn [obind].
  destruct IH as [bs ->]; [intros a Ha; apply H; now right|].
  cbn [obind]. now eexists.
Qed.

Lemma check_common_passes (type : Z) (minic posic : R) (mots : list motif)
    (bkg : list (list R)) :
  (type = 1 \/ type = 2)%Z -> 0 <= minic -> 0 <= posic ->
  mots <> [] -> length bkg = length mots ->
  check_common type minic posic mots bkg = Ret tt.
Proof.
  intros Ht Hm Hp Hne Hlen. unfold check_common.
  replace ((type =? 1) || (type =? 2))%Z with true
    by (destruct Ht as [-> | ->]; reflexivity).
  cbn [negb].
  replace (Rltb minic 0) with false by (symmetry; apply Rltb_false; lra).
  replace (Rltb posic 0) with false by (symmetry; apply Rltb_false; lra).
  rewrite Hlen, Nat.eqb_refl. cbn [negb].
  destruct mots; [easy | reflexivity].
Qed.

Lemma compare_motif_pair_total mot1 mot2 method moverlap RC ic1 ic2 minic
    norm posic bkg1 bkg2 nsites1 nsites2 strat :
  enum_get SCORESTRAT_enum strat <> 4%Z ->
  exists s,
    compare_motif_pair mot1 mot2 method moverlap RC ic1 ic2 minic norm posic
      bkg1 bkg2 nsites1 nsites2 strat = Some s.
Proof.
  intros H.
  destruct (compare_motif_pair_ans_total mot1 mot2 method moverlap RC ic1 ic2
              minic norm posic bkg1 bkg2 nsites1 nsites2 strat H) as [ans E].
  unfold compare_motif_pair_ans in E. unfold compare_motif_pair.
  destruct (compare_motif_pair_rec _ _ _ _ _ _ _ _ _ _ _ _ _ _ _ _)
    as [[a s]|]; [|discriminate].
  now exists s.
Qed.

Lemma at_nat_total {A : Type} (v : list A) (i : nat) :
  (i < length v)%nat -> exists a, at_nat v i = Ret a.
Proof.
  intros H. unfold at_nat. destruct (nth_error v i) as [a|] eqn:E;
    [now exists a|]. apply nth_error_None in E. lia.
Qed.

Lemma prepare_motifs_Ret (who : string) (method : string) :
  forall (mots : list motif) (bkg : list (list R)) prep,
    prepare_motifs who mots bkg method = Ret prep ->
    prep
    = (map (fun mb => fst (fix_mot_bkg_zeros (fst mb) (snd mb) method))
           (combine mots bkg),
       map (fun mb => snd (fix_mot_bkg_zeros (fst mb) (snd mb) method))
           (combine mots bkg)).
Proof.
  induction mots as [|m ms IH]; intros bkg prep H; cbn [prepare_motifs] in H.
  - now injection H as <-.
  - destruct bkg as [|b bs]; [now injection H as <-|].
    destruct (length m =? 0)%nat; [discriminate|].
    destruct (prepare_motifs who ms bs method) as [rest| | | |] eqn:E;
      try discriminate.
    cbn [obind] in H. rewrite (IH bs rest E) in H.
    cbn [combine map fst snd].
    destruct (fix_mot_bkg_zeros m b method) as [m' b'].
    cbn [fst snd] in H. now injection H as <-.
Qed.

Lemma check_common_Ret (type : Z) (minic posic : R) (mots : list motif)
    (bkg : list (list R)) (u : unit) :
  check_common type minic posic mots bkg = Ret u -> length mots = length bkg.
Proof.
  unfold check_common.
  destruct (negb _); [discriminate|].
  destruct (Rltb minic 0); [discriminate|].
  destruct (Rltb posic 0); [discriminate|].
  destruct (length mots =? 0)%nat; [discriminate|].
  destruct (length bkg =? 0)%nat; [discriminate|].
  destruct (length mots =? length bkg)%nat eqn:E; [|discriminate].
  intros _. now apply Nat.eqb_eq.
Qed.

(** [compare_motifs_all_cpp] returns for validated input and a strategy
    other than the median. *)
Lemma compare_motifs_all_cpp_returns :
  forall (mots : list motif) (method : string) (minoverlap : R) (RC : bool)
         (bkg : list (list R)) (type : Z) (relative : bool) (minic : R)
         (norm : bool) (posic : R) (nsites : list R) (strat : string),
    (type = 1 \/ type = 2)%Z -> 0 <= minic -> 0 <= posic ->
    mots <> [] -> length bkg = length mots ->
    Forall (fun m => m <> []) mots ->
    (length mots <= length nsites)%nat ->
    enum_get SCORESTRAT_enum strat <> 4%Z ->
    exists rows,
      compare_motifs_all_cpp mots method minoverlap RC bkg type relative
        minic norm posic nsites strat = Ret rows.
Proof.
  intros mots method minoverlap RC bkg type relative minic norm posic nsites
    strat Ht Hm Hp Hne Hlen Hmots Hns Hstrat.
  unfold compare_motifs_all_cpp.
  rewrite check_common_passes by assumption. cbn [obind].
  rewrite prepare_motifs_all by assumption. cbn [obind fst snd].
  set (vmots := map _ (combine mots bkg)).
  set (bkg' := map _ (combine mots bkg)).
  set (mo := if Rltb minoverlap 0 then 1 else minoverlap).
  assert (Lv : length vmots = length mots).
  { unfold vmots. rewrite length_map, length_combine. lia. }
  assert (Lb : length bkg' = length mots).
  { unfold bkg'. rewrite length_map, length_combine. lia. }
  assert (Li : length (icscores_of vmots bkg' type relative) = length mots).
  { unfold icscores_of. rewrite length_map, length_combine. lia. }
  rewrite Lv. apply map_out_total.
  intros i Hi. apply in_seq in Hi. apply map_out_total.
  intros j Hj. apply in_seq in Hj.
  destruct (at_nat_total vmots i) as [m1 ->]; [lia|].
  destruct (at_nat_total vmots j) as [m2 ->]; [lia|].
  destruct (at_nat_total (icscores_of vmots bkg' type relative) i)
    as [ic1 ->]; [lia|].
  destruct (at_nat_total (icscores_of vmots bkg' type relative) j)
    as [ic2 ->]; [lia|].
  destruct (at_nat_total bkg' i) as [b1 ->]; [lia|].
  destruct (at_nat_total bkg' j) as [b2 ->]; [lia|].
  destruct (at_nat_total nsites i) as [n1 ->]; [lia|].
  destruct (at_nat_total nsites j) as [n2 ->]; [lia|].
  cbn [obind].
  destruct (compare_motif_pair_total m1 m2 method mo RC ic1 ic2 minic norm
              posic b1 b2 n1 n2 strat Hstrat) as [s ->].
  now exists s.
Qed.

(** The shape of the table [compare_motifs_all_cpp] returns. *)
Lemma compare_motifs_all_cpp_rows :
  forall (mots : list motif) (method : string) (minoverlap : R) (RC : bool)
         (bkg : list (list R)) (type : Z) (relative : bool) (minic : R)
         (norm : bool) (posic : R) (nsites : list R) (strat : string)
         (rows : list (list R)),
    compare_motifs_all_cpp mots method minoverlap RC bkg type relative minic
      norm posic nsites strat = Ret rows ->
    length rows = length mots
    /\ forall i row, nth_error rows i = Some row ->
                     length row = (length mots - i)%nat.
Proof.
  intros mots method minoverlap RC bkg type relative minic norm posic nsites
    strat.
  intros rows Hall. unfold compare_motifs_all_cpp in Hall.
  destruct (check_common type minic posic mots bkg) as [u| | | |] eqn:Echeck;
    try discriminate.
  apply check_common_Ret in Echeck. cbn [obind] in Hall.
  destruct (prepare_motifs _ mots bkg method) as [prep| | | |] eqn:Eprep;
    try discriminate.
  apply prepare_motifs_Ret in Eprep. subst prep. cbn [obind fst snd] in Hall.
  set (vmots := map (fun mb => fst _) (combine mots bkg)) in *.
  assert (Lv : length vmots = length mots).
  { unfold vmots. rewrite length_map, length_combine. lia. }
  rewrite Lv in Hall.
  destruct (map_out_spec _ _ _ Hall) as [Hl Hn].
  rewrite length_seq in Hl. split; [exact Hl|].
  intros i row Hrow.
  assert (Hi : (i < length mots)%nat)
    by (rewrite <- Hl; apply nth_error_Some; congruence).
  destruct (Hn i i) as (row' & Hrow' & Hinner).
  { rewrite nth_error_seq.
    now replace (i <? length mots)%nat with true
      by (symmetry; apply Nat.ltb_lt; lia). }
  assert (row' = row) by congruence. subst row'.
  destruct (map_out_spec _ _ _ Hinner) as [Hl' _].
  now rewrite length_seq in Hl'.
Qed.

(** X16.  For validated input (a type of 1 or 2, thresholds that are not
    negative, as many backgrounds as motifs, no empty motif, a site count
    for every motif), motifs whose columns all have the same number
    [nrow] of entries, one at least, backgrounds of [nrow] entries each,
    and a strategy other than the median, [compare_motifs_all_cpp] returns
    a table; and whenever it returns one, the table is triangular: one row
    per motif, and row [i] holds the scores of motif [i] against the motifs
    [i], [i+1], ..., one for each. *)
Theorem compare_motifs_all_cpp_triangular :
  forall (nrow : nat) (mots : list motif) (method : string) (minoverlap : R)
         (RC : bool) (bkg : list (list R)) (type : Z) (relative : bool)
         (minic : R) (norm : bool) (posic : R) (nsites : list R)
         (strat : string),
    ((type = 1 \/ type = 2)%Z -> 0 <= minic -> 0 <= posic ->
     mots <> [] -> length bkg = length mots ->
     Forall (fun m => m <> []) mots ->
     (0 < nrow)%nat ->
     Forall (fun m => Forall (fun col => length col = nrow) m) mots ->
     Forall (fun b => length b = nrow) bkg ->
     (length mots <= length nsites)%nat ->
     enum_get SCORESTRAT_enum strat <> 4%Z ->
     exists rows,
       compare_motifs_all_cpp mots method minoverlap RC bkg type relative
         minic norm posic nsites strat = Ret rows)
    /\ (forall rows,
          compare_motifs_all_cpp mots method minoverlap RC bkg type relative
            minic norm posic nsites strat = Ret rows ->
          length rows = length mots
          /\ forall i row, nth_error rows i = Some row ->
                           length row = (length mots - i)%nat).
Proof.
  intros nrow mots method minoverlap RC bkg type relative minic norm posic
    nsites strat.
  split.
  - intros Ht Hm Hp Hne Hlen Hmots _ _ _ Hns Hstrat.
    now apply compare_motifs_all_cpp_returns.
  - apply compare_motifs_all_cpp_rows.
Qed.

Lemma compare_motifs_all_cpp_triangular_witness :
  exists rows,
    compare_motifs_all_cpp [motif_cd; flat_motif 3] "EUCL" 1 true
      [repeat 0.25 4; repeat 0.25 4] 1 false 0 false 0 [100; 100] "sum"
    = Ret rows
    /\ length rows = length [motif_cd; flat_motif 3]
    /\ forall i row, nth_error rows i = Some row ->
                     length row = (length [motif_cd; flat_motif 3] - i)%nat.
Proof.
  destruct (compare_motifs_all_cpp_triangular 4 [motif_cd; flat_motif 3]
              "EUCL" 1 true [repeat 0.25 4; repeat 0.25 4] 1 false 0 false 0
              [100; 100] "sum")
    as [Hreturns Hshape].
  destruct Hreturns as [rows Hrows].
  - now left.
  - lra.
  - lra.
  - discriminate.
  - reflexivity.
  - repeat (apply Forall_cons; [discriminate|]). apply Forall_nil.
  - lia.
  - unfold motif_cd, flat_motif. cbn [repeat].
    repeat (apply Forall_cons;
            [repeat (apply Forall_cons; [reflexivity|]); apply Forall_nil|]).
    apply Forall_nil.
  - repeat (apply Forall_cons; [reflexivity|]). apply Forall_nil.
  - cbn [length]. lia.
  - rewrite enum_sum. discriminate.
  - exists rows. split; [exact Hrows|]. now apply Hshape.
Defined.

(** The background [fix_mot_bkg_zeros] leaves does not depend on the
    motif. *)
Lemma fix_mot_bkg_zeros_bkg (m m' : motif) (b : list R) (method : string) :
  snd (fix_mot_bkg_zeros m b method) = snd (fix_mot_bkg_zeros m' b method).
Proof.
  unfold fix_mot_bkg_zeros.
  destruct (enum_get METRICS_enum method) as [|p|p]; try reflexivity.
  repeat (match goal with q : positive |- _ => destruct q end;
          try reflexivity).
Qed.

Lemma nth_error_combine_Some {A B : Type} :
  forall (l1 : list A) (l2 : list B) (i : nat) (a : A) (b : B),
    nth_error (combine l1 l2) i = Some (a, b) ->
    nth_error l1 i = Some a /\ nth_error l2 i = Some b.
Proof.
  induction l1 as [|x t IH]; intros [|y u] i a b H; cbn [combine] in H;
    try (now destruct i).
  destruct i as [|i]; cbn [nth_error] in *.
  - injection H as <- <-. now split.
  - now apply IH.
Qed.

Lemma at_int_of_nat {A : Type} (v : list A) (i : nat) :
  at_int v (Z.of_nat i) = at_nat v i.
Proof.
  unfold at_int.
  replace (Z.of_nat i <? 0)%Z with false by (symmetry; apply Z.ltb_ge; lia).
  now rewrite Nat2Z.id.
Qed.

Lemma prepare_motifs_who (who who' : string) (method : string) :
  forall (mots : list motif) (bkg : list (list R)) prep,
    prepare_motifs who mots bkg method = Ret prep ->
    prepare_motifs who' mots bkg method = Ret prep.
Proof.
  induction mots as [|m ms IH]; intros bkg prep H; cbn [prepare_motifs] in *;
    [exact H|].
  destruct bkg as [|b bs]; [exact H|].
  destruct (length m =? 0)%nat; [discriminate|].
  destruct (prepare_motifs who ms bs method) as [rest| | | |] eqn:E;
    try discriminate.
  now rewrite (IH bs rest E).
Qed.

(** Two motifs given the same background have the same background after
    the preparation. *)
Lemma prepared_bkg_same (method : string) (mots : list motif)
    (bkg : list (list R)) (i k : nat) (b1 b2 : list R) :
  let bkg' := map (fun mb => snd (fix_mot_bkg_zeros (fst mb) (snd mb) method))
                  (combine mots bkg) in
  nth_error bkg' i = Some b1 -> nth_error bkg' k = Some b2 ->
  nth_error bkg k = nth_error bkg i -> b2 = b1.
Proof.
  cbv zeta. rewrite !nth_error_map. intros H1 H2 Hb.
  destruct (nth_error (combine mots bkg) i) as [[m x]|] eqn:E1;
    [|discriminate].
  destruct (nth_error (combine mots bkg) k) as [[m' x']|] eqn:E2;
    [|discriminate].
  cbn [option_map fst snd] in H1, H2.
  injection H1 as <-. injection H2 as <-.
  apply nth_error_combine_Some in E1, E2.
  destruct E1 as [_ E1], E2 as [_ E2].
  assert (x' = x) by congruence. subst x'.
  apply fix_mot_bkg_zeros_bkg.
Qed.

(** X17.  The two comparison entry points agree: the score that
    [compare_motifs_all_cpp] holds in row [i] at position [j] is the one
    [compare_motifs_cpp] returns for the index pair [(i, i + j)], when the
    two motifs were given the same background ([compare_motifs_cpp] hands
    the background of the first motif to both sides). *)
Theorem compare_motifs_all_cpp_agrees_with_pairs :
  forall (mots : list motif) (method : string) (minoverlap : R) (RC : bool)
         (bkg : list (list R)) (type : Z) (relative : bool) (minic : R)
         (norm : bool) (posic : R) (nsites : list R) (strat : string)
         (rows : list (list R)) (i j : nat) (row : list R) (v : R),
    compare_motifs_all_cpp mots method minoverlap RC bkg type relative minic
      norm posic nsites strat = Ret rows ->
    nth_error rows i = Some row ->
    nth_error row j = Some v ->
    nth_error bkg (i + j) = nth_error bkg i ->
    compare_motifs_cpp mots [Z.of_nat i] [Z.of_nat (i + j)] method minoverlap
      RC bkg type relative minic norm posic nsites strat = Ret [v].
Proof.
  intros mots method minoverlap RC bkg type relative minic norm posic nsites
    strat rows i j row v Hall Hrow Hv Hbkg.
  unfold compare_motifs_all_cpp in Hall. unfold compare_motifs_cpp.
  destruct (check_common type minic posic mots bkg) as [[]| | | |];
    try discriminate.
  cbn [obind length Nat.eqb negb] in *.
  destruct (prepare_motifs
              "encountered an empty motif [compare_motifs_all_cpp()]" mots
              bkg method) as [prep| | | |] eqn:Eprep; try discriminate.
  rewrite (prepare_motifs_who _
             "encountered an empty motif [compare_motifs_cpp()]" _ _ _ _
             Eprep).
  apply prepare_motifs_Ret in Eprep. subst prep.
  cbn [obind fst snd combine map_out] in *.
  set (vmots := map (fun mb => fst _) (combine mots bkg)) in *.
  set (bkg' := map (fun mb => snd _) (combine mots bkg)) in *.
  set (mo := if Rltb minoverlap 0 then 1 else minoverlap) in *.
  destruct (map_out_spec _ _ _ Hall) as [Hl Hn].
  rewrite length_seq in Hl.
  assert (Hi : (i < length vmots)%nat)
    by (rewrite <- Hl; apply nth_error_Some; congruence).
  destruct (Hn i i) as (row' & Hrow' & Hinner).
  { rewrite nth_error_seq.
    now replace (i <? length vmots)%nat with true
      by (symmetry; apply Nat.ltb_lt; lia). }
  assert (row' = row) by congruence. subst row'.
  destruct (map_out_spec _ _ _ Hinner) as [Hl' Hn'].
  rewrite length_seq in Hl'.
  assert (Hj : (j < length vmots - i)%nat)
    by (rewrite <- Hl'; apply nth_error_Some; congruence).
  destruct (Hn' j (i + j)%nat) as (v' & Hv' & Hbody).
  { rewrite nth_error_seq.
    now replace (j <? length vmots - i)%nat with true
      by (symmetry; apply Nat.ltb_lt; lia). }
  assert (v' = v) by congruence. subst v'.
  rewrite !at_int_of_nat.
  destruct (at_nat vmots i) as [m1| | | |]; try discriminate.
  destruct (at_nat vmots (i + j)) as [m2| | | |]; try discriminate.
  destruct (at_nat (icscores_of vmots bkg' type relative) i)
    as [ic1| | | |]; try discriminate.
  destruct (at_nat (icscores_of vmots bkg' type relative) (i + j))
    as [ic2| | | |]; try discriminate.
  destruct (at_nat bkg' i) as [b1| | | |] eqn:Eb1; try discriminate.
  destruct (at_nat bkg' (i + j)) as [b2| | | |] eqn:Eb2; try discriminate.
  destruct (at_nat nsites i) as [n1| | | |]; try discriminate.
  destruct (at_nat nsites (i + j)) as [n2| | | |]; try discriminate.
  cbn [obind] in *.
  apply at_nat_Ret in Eb1, Eb2.
  assert (b2 = b1)
    by (exact (prepared_bkg_same method mots bkg i (i + j) b1 b2 Eb1 Eb2
                 Hbkg)).
  subst b2. now rewrite Hbody.
Qed.

Lemma compare_motifs_all_cpp_agrees_with_pairs_witness :
  exists rows row v,
    compare_motifs_all_cpp [motif_cd; flat_motif 3] "EUCL" 1 true
      [bkg_A; bkg_A] 1 false 0 false 0 [100; 100] "sum" = Ret rows
    /\ nth_error rows 0 = Some row
    /\ nth_error row 1 = Some v
    /\ compare_motifs_cpp [motif_cd; flat_motif 3] [Z.of_nat 0]
         [Z.of_nat (0 + 1)] "EUCL" 1 true [bkg_A; bkg_A] 1 false 0 false 0
         [100; 100] "sum" = Ret [v].
Proof.
  destruct (compare_motifs_all_cpp_returns [motif_cd; flat_motif 3] "EUCL" 1
              true [bkg_A; bkg_A] 1 false 0 false 0 [100; 100] "sum")
    as [rows Hrows].
  - now left.
  - lra.
  - lra.
  - discriminate.
  - reflexivity.
  - repeat (apply Forall_cons; [discriminate|]). apply Forall_nil.
  - cbn [length]. lia.
  - rewrite enum_sum. discriminate.
  - destruct (compare_motifs_all_cpp_rows _ _ _ _ _ _ _ _ _ _ _ _ _ Hrows)
      as [Hlen Hshape].
    destruct rows as [|row rest]; [discriminate|].
    pose proof (Hshape 0%nat row eq_refl) as Hrow. cbn [length Nat.sub] in Hrow.
    destruct row as [|v0 [|v row']]; try discriminate.
    exists ((v0 :: v :: row') :: rest), (v0 :: v :: row'), v.
    repeat split; try assumption.
    exact (compare_motifs_all_cpp_agrees_with_pairs
             [motif_cd; flat_motif 3] "EUCL" 1 true [bkg_A; bkg_A] 1 false 0
             false 0 [100; 100] "sum" ((v0 :: v :: row') :: rest) 0 1
             (v0 :: v :: row') v Hrows eq_refl eq_refl eq_refl).
Defined.

(** ** The smoothing pass in the entry points *)









(** ** What the smoothing is for *)

Lemma bkgfix_positive (bkg : list R) :
  Forall (fun x => 0 <= x) bkg -> Forall (fun x => 0 < x) (bkgfix bkg).
Proof.
  intros H. unfold bkgfix.
  destruct (existsb (fun x => Reqb x 0) bkg) eqn:E.
  - assert (Hn : 0 < INR (length bkg)).
    { apply existsb_exists in E. destruct E as (x & Hin & _).
      apply lt_0_INR. destruct bkg; [easy | cbn [length]; lia]. }
    apply Forall_map. eapply Forall_impl; [|exact H]. cbv beta.
    intros x Hx.
    assert (0 < 0.01 * (1 / INR (length bkg))).
    { apply Rmult_lt_0_compat; [lra|]. unfold Rdiv. rewrite Rmult_1_l.
      now apply Rinv_0_lt_compat. }
    lra.
  - rewrite Forall_forall in *. intros x Hin.
    destruct (Req_dec_T x 0) as [-> | Hx].
    + exfalso. apply not_true_iff_false in E. apply E.
      apply existsb_exists. exists 0. split; [exact Hin|].
      now apply Reqb_true.
    + specialize (H x Hin). lra.
Qed.

(** X18.  For the metrics that take logarithms or quotients of the
    entries (KL, IS, ALLR, ALLR_LL), [fix_mot_bkg_zeros] leaves no zero
    behind: a motif of non-negative entries becomes one of entries of at
    least 0.01, and a background of non-negative entries becomes one of
    positive entries. *)
Theorem smoothing_leaves_no_zero :
  forall (mot : motif) (bkg : list R) (method : string),
    needs_smoothing method ->
    rectangular mot ->
    Forall (Forall (fun x => 0 <= x)) mot ->
    Forall (fun x => 0 <= x) bkg ->
    Forall (Forall (fun x => 0.01 <= x))
           (fst (fix_mot_bkg_zeros mot bkg method))
    /\ Forall (fun x => 0 < x) (snd (fix_mot_bkg_zeros mot bkg method)).
Proof.
  intros mot bkg method Hm Hrect Hmot Hbkg.
  rewrite (fix_mot_bkg_zeros_smooths mot bkg method Hm). cbn [fst snd].
  split; [|now apply bkgfix_positive].
  rewrite (klfix_rectangular mot Hrect).
  apply Forall_map. eapply Forall_impl; [|exact Hmot]. cbv beta.
  intros col Hcol. apply Forall_map.
  eapply Forall_impl; [|exact Hcol]. cbv beta. intros x Hx. lra.
Qed.

Lemma smoothing_leaves_no_zero_witness :
  Forall (Forall (fun x => 0.01 <= x))
         (fst (fix_mot_bkg_zeros motif_cd [0.5; 0; 0.5; 0] "KL"))
  /\ Forall (fun x => 0 < x)
            (snd (fix_mot_bkg_zeros motif_cd [0.5; 0; 0.5; 0] "KL")).
Proof.
  apply (smoothing_leaves_no_zero motif_cd [0.5; 0; 0.5; 0] "KL").
  - now left.
  - repeat (apply Forall_cons; [reflexivity|]). apply Forall_nil.
  - repeat (apply Forall_cons;
            [repeat (apply Forall_cons; [lra|]); apply Forall_nil|]).
    apply Forall_nil.
  - repeat (apply Forall_cons; [lra|]). apply Forall_nil.
Defined.

(** ** Comparing two columns *)

Lemma compare_with_single_sym (f f' : list R -> list R -> R)
    (c1 c2 : list R) (strat : string) :
  f c1 c2 = f' c2 c1 ->
  compare_with f [c1] [c2] strat = compare_with f' [c2] [c1] strat.
Proof.
  intros Hf. unfold compare_with, good_mask, per_column.
  cbn [combine map fst snd]. now rewrite Hf, (andb_comm (is_data c2)).
Qed.

Lemma accumulate_products_sym (c1 c2 : list R) :
  accumulate (map (fun ab => fst ab * snd ab) (combine c2 c1))
  = accumulate (map (fun ab => fst ab * snd ab) (combine c1 c2)).
Proof.
  rewrite (combine_swap c1 c2), map_map. cbn [fst snd]. f_equal.
  apply map_ext. intros [a b]. cbn [fst snd]. ring.
Qed.

Lemma col_pcc_sym (c1 c2 : list R) :
  length c1 = length c2 -> col_pcc c1 c2 = col_pcc c2 c1.
Proof.
  intros Hlen. unfold col_pcc. cbv zeta.
  rewrite (accumulate_products_sym c1 c2), Hlen.
  rewrite (Rmult_comm (accumulate c2) (accumulate c1)).
  rewrite (Rmult_comm
             (INR (length c2) * accumulate (map Rsqr c2)
              - Rsqr (accumulate c2))).
  reflexivity.
Qed.

Lemma enum_get_code_IS (m : string) :
  enum_get METRICS_enum m = 4%Z -> m = "IS"%string.
Proof.
  unfold METRICS_enum. cbn [enum_get]. intros H.
  repeat match type of H with
         | context [String.eqb ?k m] =>
             let E := fresh "E" in
             destruct (String.eqb_spec k m) as [E|E];
             [first [discriminate H | now symmetry]|]
         end.
  discriminate H.
Qed.

Lemma enum_get_code_KL (m : string) :
  enum_get METRICS_enum m = 2%Z -> m = "KL"%string.
Proof.
  unfold METRICS_enum. cbn [enum_get]. intros H.
  repeat match type of H with
         | context [String.eqb ?k m] =>
             let E := fresh "E" in
             destruct (String.eqb_spec k m) as [E|E];
             [first [discriminate H | now symmetry]|]
         end.
  discriminate H.
Qed.

(** X19.  [compare_columns_cpp] is symmetric for every metric but IS and
    KL: for two columns of the same size, swapping them (and with them
    the two backgrounds and the two site counts) gives the same outcome,
    the stops of the validation included.  IS is not symmetric; for KL the
    swap changes the order in which the terms are added to the running
    sum. *)
Theorem compare_columns_cpp_symmetric :
  forall (p1 p2 b1 b2 : list R) (n1 n2 : R) (m : string),
    length p1 = length p2 ->
    m <> "IS"%string ->
    m <> "KL"%string ->
    compare_columns_cpp p1 p2 b1 b2 n1 n2 m
    = compare_columns_cpp p2 p1 b2 b1 n2 n1 m.
Proof.
  intros p1 p2 b1 b2 n1 n2 m Hlen Hm Hm'. unfold compare_columns_cpp.
  rewrite <- Hlen, Nat.eqb_refl. cbn [negb].
  destruct (length p1 <? 2)%nat; [reflexivity|].
  rewrite (orb_comm (negb (length b2 =? length p1)%nat)).
  rewrite (orb_comm (Rleb n2 1)).
  destruct (negb (length b1 =? length p1)%nat
            || negb (length b2 =? length p1)%nat) eqn:Eb;
    destruct (Rleb n1 1 || Rleb n2 1) eqn:En.
  all: unfold compare_eucl, compare_kl, compare_pcc, compare_sw, compare_allr,
         compare_bhat, compare_hell, compare_is, compare_seucl, compare_man,
         compare_allr_ll.
  all: assert (Hsym : forall g : R -> R -> R,
                 (forall a b, g a b = g b a) ->
                 sum_rows g p1 p2 = sum_rows g p2 p1)
         by (intros g Hg; now apply sum_rows_sym).
  all: assert (Hsq : sum_rows (fun a b => Rsqr (a - b)) p1 p2
                     = sum_rows (fun a b => Rsqr (a - b)) p2 p1)
         by (apply Hsym; intros a b; unfold Rsqr; lra).
  all: assert (Heucl : compare_with col_eucl [p1] [p2] "sum"
                       = compare_with col_eucl [p2] [p1] "sum")
         by (apply compare_with_single_sym; unfold col_eucl; now rewrite Hsq).
  all: assert (Hpcc : compare_with col_pcc [p1] [p2] "sum"
                      = compare_with col_pcc [p2] [p1] "sum")
         by (apply compare_with_single_sym; now apply col_pcc_sym).
  all: assert (Hsw : compare_with col_sw [p1] [p2] "sum"
                     = compare_with col_sw [p2] [p1] "sum")
         by (apply compare_with_single_sym; unfold col_sw; now rewrite Hsq).
  all: assert (Hbhat : compare_with col_bhat [p1] [p2] "sum"
                       = compare_with col_bhat [p2] [p1] "sum")
         by (apply compare_with_single_sym; unfold col_bhat; apply Hsym;
             intros a b; now rewrite Rmult_comm).
  all: assert (Hhell : compare_with col_hell [p1] [p2] "sum"
                       = compare_with col_hell [p2] [p1] "sum")
         by (apply compare_with_single_sym; unfold col_hell; do 2 f_equal;
             apply Hsym; intros a b; unfold Rsqr; lra).
  all: assert (Hseucl : compare_with col_seucl [p1] [p2] "sum"
                        = compare_with col_seucl [p2] [p1] "sum")
         by (apply compare_with_single_sym; unfold col_seucl; exact Hsq).
  all: assert (Hman : compare_with col_man [p1] [p2] "sum"
                      = compare_with col_man [p2] [p1] "sum")
         by (apply compare_with_single_sym; unfold col_man; apply Hsym;
             intros a b; apply Rabs_minus_sym).
  all: assert (Hallr : compare_with (col_allr b1 b2 n1 n2) [p1] [p2] "sum"
                       = compare_with (col_allr b2 b1 n2 n1) [p2] [p1] "sum")
         by (apply compare_with_single_sym; apply col_allr_sym).
  all: assert (Hll : compare_with (col_allr_ll b1 b2 n1 n2) [p1] [p2] "sum"
                     = compare_with (col_allr_ll b2 b1 n2 n1) [p2] [p1] "sum")
         by (apply compare_with_single_sym; unfold col_allr_ll;
             now rewrite col_allr_sym).
  all: assert (His : enum_get METRICS_enum m <> 4%Z)
         by (intros E; apply Hm; apply (enum_get_code_IS m E)).
  all: assert (Hnkl : enum_get METRICS_enum m <> 2%Z)
         by (intros E; apply Hm'; apply (enum_get_code_KL m E)).
  all: rewrite ?Heucl, ?Hpcc, ?Hsw, ?Hbhat, ?Hhell, ?Hseucl, ?Hman,
         ?Hallr, ?Hll.
  all: destruct (enum_get METRICS_enum m) as [|p|p]; try reflexivity.
  all: repeat (match goal with q : positive |- _ => destruct q end;
               try reflexivity).
  all: now exfalso.
Qed.

Lemma compare_columns_cpp_symmetric_witness :
  compare_columns_cpp [0.7; 0.3] [0.2; 0.8] bkg_A bkg_B 100 50 "ALLR"
  = compare_columns_cpp [0.2; 0.8] [0.7; 0.3] bkg_B bkg_A 50 100 "ALLR".
Proof.
  apply (compare_columns_cpp_symmetric [0.7; 0.3] [0.2; 0.8] bkg_A bkg_B 100
           50 "ALLR").
  - reflexivity.
  - discriminate.
  - discriminate.
Defined.

(** ** P-values of scores that no comparison produced *)

Section PValueSentinels.

Variables pnorm plogis pweibull : R -> R -> R -> Z -> R.

Lemma pval_loop_length fuel ncols indices1 indices2 tbl ltail :
  forall scores k row pvals,
    pval_loop pnorm plogis pweibull fuel ncols indices1 indices2 tbl ltail
      scores k row = Ret pvals ->
    length pvals = length scores.
Proof.
  induction scores as [|x rest IH]; intros k row pvals H;
    cbn [pval_loop] in H.
  - now injection H as <-.
  - destruct (pval_body _ _ _ _ _ _ _ _ _ _ _ _) as [r| | | |];
      try discriminate.
    cbn [obind] in H.
    destruct (pval_loop _ _ _ _ _ _ _ _ _ _ _ _) as [ps| | | |] eqn:E;
      try discriminate.
    cbn [obind] in H. injection H as <-. cbn [length].
    now rewrite (IH _ _ _ E).
Qed.

Lemma pval_loop_sentinels fuel ncols indices1 indices2 tbl ltail :
  forall scores k row,
    Forall (fun s => Rabs s = dbl_max) scores ->
    pval_loop pnorm plogis pweibull fuel ncols indices1 indices2 tbl ltail
      scores k row = Ret (map (fun _ => 0) scores).
Proof.
  induction scores as [|x rest IH]; intros k row H; cbn [pval_loop map];
    [reflexivity|].
  apply Forall_cons_iff in H. destruct H as [Hx Hrest].
  rewrite (pval_body_sentinel pnorm plogis pweibull) by exact Hx.
  cbn [obind fst snd]. now rewrite IH.
Qed.

(** X20.  [pval_extractor] gives one p-value per score whenever it
    returns; and when every score is the largest double or its negative it
    does return, with 0 in every slot, without reading the widths, the
    indices or the table. *)
Theorem pval_extractor_sentinels_only :
  forall (fuel : nat) (row0 : Z) (ncols : list Z) (scores : list R)
         (indices1 indices2 : list Z) (method : string) (tbl : pval_table),
    (forall pvals,
        pval_extractor pnorm plogis pweibull fuel row0 ncols scores indices1
          indices2 method tbl = Ret pvals ->
        length pvals = length scores)
    /\ (Forall (fun s => Rabs s = dbl_max) scores ->
        pval_extractor pnorm plogis pweibull fuel row0 ncols scores indices1
          indices2 method tbl = Ret (map (fun _ => 0) scores)).
Proof.
  intros fuel row0 ncols scores indices1 indices2 method tbl.
  unfold pval_extractor. split.
  - intros pvals H. eapply pval_loop_length. exact H.
  - apply pval_loop_sentinels.
Qed.

End PValueSentinels.

Lemma pval_extractor_sentinels_only_witness :
  pval_extractor cdf_zero cdf_zero cdf_zero 0 0 [] [dbl_max; - dbl_max] [] []
    "EUCL" table_empty = Ret (map (fun _ => 0) [dbl_max; - dbl_max]).
Proof.
  apply (pval_extractor_sentinels_only cdf_zero cdf_zero cdf_zero 0 0 []
           [dbl_max; - dbl_max] [] [] "EUCL" table_empty).
  apply Forall_cons; [apply Rabs_dbl_max|].
  apply Forall_cons; [apply Rabs_neg_dbl_max | apply Forall_nil].
Defined.

(** ** Bounds on the information content *)

Lemma ln_below (x : R) : 0 < x -> ln x <= x - 1.
Proof.
  intros Hx. pose proof (exp_ineq1_le (ln x)) as H.
  rewrite exp_ln in H by exact Hx. lra.
Qed.

Lemma accumulate_all_zero (h : R -> R) (l : list R) :
  Forall (fun p => h p = 0) l -> accumulate (map h l) = 0.
Proof.
  induction 1 as [|p t Hp _ IH]; cbn [map]; [apply accumulate_nil|].
  rewrite accumulate_cons, Hp, IH. lra.
Qed.

Lemma log2_pow2 (j : nat) : log2 (2 ^ j) = INR j.
Proof.
  pose proof ln_2_pos as H2. unfold log2.
  rewrite ln_pow by lra. field. lra.
Qed.

(** X21.  The information content of a column, as [internal_posIC]
    computes it for a type other than 2.  The relative form, on a column
    of positive entries with a positive background entry for each, is
    never negative: every term is cleared when it is negative.  The other
    form never exceeds the base-2 logarithm of the number of entries when
    the entries lie between 0 and 1; it is that logarithm (2 bits over four
    letters) for a column that holds 1 in one entry and 0 in the others,
    and it is 0 for the uniform column over [2 ^ j] letters. *)
Theorem internal_posIC_bounds :
  forall (pos bkg : list R) (type : Z),
    type <> 2%Z ->
    ((length pos <= length bkg)%nat ->
     Forall (fun p => 0 < p) pos -> Forall (fun b => 0 < b) bkg ->
     0 <= internal_posIC pos bkg type true)
    /\ (Forall (fun p => 0 <= p <= 1) pos ->
        internal_posIC pos bkg type false <= log2 (INR (length pos)))
    /\ (forall k m : nat,
           pos = repeat 0 k ++ 1 :: repeat 0 m ->
           internal_posIC pos bkg type false = log2 (INR (length pos)))
    /\ (forall j : nat,
           pos = repeat (/ 2 ^ j) (2 ^ j) ->
           internal_posIC pos bkg type false = 0).
Proof.
  intros pos bkg type Htype. unfold internal_posIC.
  replace (type =? 2)%Z with false by (symmetry; now apply Z.eqb_neq).
  pose proof ln_2_pos as H2.
  set (h := fun p : R => if Rltb 0 p then - p * log2 p else 0).
  split; [|split; [|split]].
  - intros _ _ _. apply accumulate_nonneg. apply Forall_map.
    apply Forall_forall. intros pb _. apply clear_negative_nonneg.
  - intros Hpos.
    assert (0 <= accumulate (map h pos)); [|lra].
    apply accumulate_nonneg. apply Forall_map.
    eapply Forall_impl; [|exact Hpos]. cbv beta. intros p [Hp0 Hp1].
    unfold h. destruct (Rltb 0 p) eqn:E; [|lra]. apply Rltb_true in E.
    assert (Hln : ln p <= 0).
    { pose proof (ln_below p E). lra. }
    unfold log2, Rdiv.
    replace (- p * (ln p * / ln 2)) with (p * (- ln p) * / ln 2) by ring.
    apply Rmult_le_pos; [apply Rmult_le_pos; lra|].
    left. now apply Rinv_0_lt_compat.
  - intros k m ->.
    rewrite (accumulate_all_zero h); [lra|].
    assert (H0 : h 0 = 0).
    { unfold h. replace (Rltb 0 0) with false; [reflexivity|].
      symmetry. apply Rltb_false. lra. }
    assert (H1 : h 1 = 0).
    { unfold h, log2. rewrite ln_1. destruct (Rltb 0 1); lra. }
    apply Forall_app. split; [|apply Forall_cons; [exact H1|]];
      apply Forall_forall; intros x Hx; apply repeat_spec in Hx;
      now subst x.
  - intros j ->.
    assert (Hp : 0 < 2 ^ j) by (apply pow_lt; lra).
    assert (Hi : 0 < / 2 ^ j) by now apply Rinv_0_lt_compat.
    rewrite map_repeat, accumulate_repeat, repeat_length, pow_INR.
    change (INR 2) with 2. rewrite log2_pow2.
    unfold h. replace (Rltb 0 (/ 2 ^ j)) with true
      by (symmetry; now apply Rltb_true).
    unfold log2. rewrite ln_Rinv by exact Hp. rewrite ln_pow by lra.
    field. split; lra.
Qed.

Lemma internal_posIC_bounds_witness :
  0 <= internal_posIC [0.7; 0.1; 0.1; 0.1] [0.25; 0.25; 0.25; 0.25] 1 true
  /\ internal_posIC [0.7; 0.1; 0.1; 0.1] [0.25; 0.25; 0.25; 0.25] 1 false
     <= log2 (INR (length [0.7; 0.1; 0.1; 0.1]))
  /\ internal_posIC (repeat 0 1 ++ 1 :: repeat 0 2) [] 1 false
     = log2 (INR (length (repeat 0 1 ++ 1 :: repeat 0 2)))
  /\ internal_posIC (repeat (/ 2 ^ 2) (2 ^ 2)) [] 1 false = 0.
Proof.
  assert (Htype : 1%Z <> 2%Z) by discriminate.
  split; [|split; [|split]].
  - apply (proj1 (internal_posIC_bounds [0.7; 0.1; 0.1; 0.1]
                    [0.25; 0.25; 0.25; 0.25] 1 Htype)).
    + cbn [length]. lia.
    + repeat (apply Forall_cons; [lra|]). apply Forall_nil.
    + repeat (apply Forall_cons; [lra|]). apply Forall_nil.
  - apply (proj1 (proj2 (internal_posIC_bounds [0.7; 0.1; 0.1; 0.1]
                           [0.25; 0.25; 0.25; 0.25] 1 Htype))).
    repeat (apply Forall_cons; [lra|]). apply Forall_nil.
  - now apply (proj1 (proj2 (proj2 (internal_posIC_bounds
                                      (repeat 0 1 ++ 1 :: repeat 0 2) [] 1
                                      Htype))) 1%nat 2%nat).
  - now apply (proj2 (proj2 (proj2 (internal_posIC_bounds
                                      (repeat (/ 2 ^ 2) (2 ^ 2)) [] 1
                                      Htype))) 2%nat).
Defined.

(** ** Trimming keeps the data *)

Lemma trim_left_loop_spec (d : list R * list R) :
  forall (cols : list (list R * list R)) (i mlen tleft : Z),
    exists k : nat,
      (k <= length cols)%nat
      /\ trim_left_loop cols i mlen tleft
         = ((mlen - Z.of_nat k)%Z, (tleft + Z.of_nat k)%Z)
      /\ (forall j, (j < k)%nat -> both_padding (nth j cols d) = true)
      /\ ((k < length cols)%nat ->
          (i + Z.of_nat k < mlen - Z.of_nat k)%Z ->
          both_padding (nth k cols d) = false).
Proof.
  assert (Hstay : forall (cols : list (list R * list R)) (i mlen tleft : Z)
                         (res : Z * Z),
             res = (mlen, tleft) ->
             ((0 < length cols)%nat -> (i < mlen)%Z ->
              both_padding (nth 0 cols d) = false) ->
             exists k : nat,
               (k <= length cols)%nat
               /\ res = ((mlen - Z.of_nat k)%Z, (tleft + Z.of_nat k)%Z)
               /\ (forall j, (j < k)%nat ->
                             both_padding (nth j cols d) = true)
               /\ ((k < length cols)%nat ->
                   (i + Z.of_nat k < mlen - Z.of_nat k)%Z ->
                   both_padding (nth k cols d) = false)).
  { intros cols i mlen tleft res -> Hhead. exists 0%nat.
    split; [lia|]. split; [f_equal; lia|].
    split; [intros j Hj; lia|].
    intros Hlt Hb. apply Hhead; lia. }
  induction cols as [|cc rest IH]; intros i mlen tleft.
  - apply Hstay; [reflexivity|]. cbn [length]. lia.
  - cbn [trim_left_loop].
    destruct (i <? mlen)%Z eqn:Ei.
    + destruct (both_padding cc) eqn:Ecc.
      * destruct (IH (i + 1)%Z (mlen - 1)%Z (tleft + 1)%Z)
          as (k & Hk & Hrun & Hpad & Hstop).
        exists (S k). cbn [length].
        split; [lia|]. split; [rewrite Hrun; f_equal; lia|].
        split.
        -- intros [|j] Hj; cbn [nth]; [exact Ecc | apply Hpad; lia].
        -- intros Hlt Hb. cbn [nth]. apply Hstop; lia.
      * apply Hstay; [reflexivity|]. intros _ _. exact Ecc.
    + apply Z.ltb_ge in Ei. apply Hstay; [reflexivity|]. intros _ Hb. lia.
Qed.

Lemma trim_right_loop_spec (d : list R * list R) :
  forall (l : list (list R * list R)) (mlen : Z),
    exists r : nat,
      (r <= length l)%nat
      /\ trim_right_loop l mlen = (mlen - Z.of_nat r)%Z
      /\ (forall j, (j < r)%nat -> both_padding (nth j l d) = true)
      /\ ((r < length l)%nat -> both_padding (nth r l d) = false).
Proof.
  induction l as [|cc rest IH]; intros mlen.
  - exists 0%nat. cbn [trim_right_loop length].
    split; [lia|]. split; [lia|]. split; intros; lia.
  - cbn [trim_right_loop]. destruct (both_padding cc) eqn:Ecc.
    + destruct (IH (mlen - 1)%Z) as (r & Hr & Hrun & Hpad & Hstop).
      exists (S r). cbn [length].
      split; [lia|]. split; [rewrite Hrun; lia|]. split.
      * intros [|j] Hj; cbn [nth]; [exact Ecc | apply Hpad; lia].
      * intros Hlt. cbn [nth]. apply Hstop. lia.
    + exists 0%nat. cbn [length nth].
      split; [lia|]. split; [lia|]. split; [intros; lia|].
      intros _. exact Ecc.
Qed.

Lemma In_window {A : Type} (x : A) (m k : nat) (l : list A) :
  In x (firstn m (skipn k l)) -> In x l.
Proof.
  intros H. rewrite <- (firstn_skipn k l). apply in_or_app. right.
  rewrite <- (firstn_skipn m (skipn k l)). apply in_or_app. now left.
Qed.

Lemma filter_none {A : Type} (f : A -> bool) (l : list A) :
  Forall (fun x => f x = false) l -> filter f l = [].
Proof.
  induction 1 as [|x t Hx _ IH]; cbn [filter]; [reflexivity|].
  now rewrite Hx.
Qed.

Lemma filter_repeat_none {A : Type} (f : A -> bool) (x : A) (n : nat) :
  f x = false -> filter f (repeat x n) = [].
Proof.
  intros H. apply filter_none. apply Forall_forall. intros y Hy.
  apply repeat_spec in Hy. now subst y.
Qed.

(** The window [trim_both_motifs] cuts, on columns that are padding in
    both motifs at the two ends only. *)
Lemma trim_window_keeps_body (pp : list R * list R)
    (body : list (list R * list R)) (a b : nat) :
  both_padding pp = true ->
  Forall (fun cc => both_padding cc = false) body ->
  let cols := repeat pp a ++ body ++ repeat pp b in
  let keep := fun cc => negb (both_padding cc) in
  forall mlen1 tleft,
    trim_left_loop cols 0 (Z.of_nat (length cols)) 0 = (mlen1, tleft) ->
    let mlen := trim_right_loop (rev (firstn (Z.to_nat mlen1) cols)) mlen1 in
    filter keep (if (0 <? mlen)%Z
                 then firstn (Z.to_nat mlen) (skipn (Z.to_nat tleft) cols)
                 else cols)
    = body.
Proof.
  intros Hpp Hbody cols keep mlen1 tleft Hleft mlen. subst mlen.
  set (d := (@nil R, @nil R)).
  set (n := length cols) in *.
  assert (Hn : n = (a + length body + b)%nat).
  { unfold n, cols. rewrite !length_app, !repeat_length. lia. }
  assert (Hkeep_pp : keep pp = false) by (unfold keep; now rewrite Hpp).
  assert (Hkeep_body : filter keep body = body).
  { apply filter_all. eapply Forall_impl; [|exact Hbody]. cbv beta.
    intros cc Hcc. unfold keep. now rewrite Hcc. }
  assert (Hall : filter keep cols = body).
  { unfold cols.
    rewrite !filter_app, !(filter_repeat_none keep pp) by exact Hkeep_pp.
    rewrite Hkeep_body. apply app_nil_r. }
  destruct (0 <? _)%Z eqn:Epos; [|exact Hall].
  apply Z.ltb_lt in Epos.
  (* the columns by position *)
  assert (F1 : forall i, (i < a)%nat -> both_padding (nth i cols d) = true).
  { intros i Hi. unfold cols.
    rewrite app_nth1 by (rewrite repeat_length; lia).
    now rewrite nth_repeat_lt. }
  assert (F2 : forall i, (a <= i < a + length body)%nat ->
                         both_padding (nth i cols d) = false).
  { intros i Hi. unfold cols.
    rewrite app_nth2 by (rewrite repeat_length; lia).
    rewrite repeat_length, app_nth1 by lia.
    rewrite Forall_nth in Hbody. apply Hbody. lia. }
  (* the two loops *)
  destruct (trim_left_loop_spec d cols 0 (Z.of_nat n) 0)
    as (k & Hk & Hrun & Hpad & Hstop).
  rewrite Hleft in Hrun. injection Hrun as -> ->.
  fold n in Hk.
  replace (Z.to_nat (Z.of_nat n - Z.of_nat k)) with (n - k)%nat in * by lia.
  replace (Z.to_nat (0 + Z.of_nat k)) with k by lia.
  set (l := rev (firstn (n - k) cols)) in *.
  assert (Hl : length l = (n - k)%nat).
  { unfold l. rewrite length_rev, length_firstn. fold n. lia. }
  destruct (trim_right_loop_spec d l (Z.of_nat n - Z.of_nat k))
    as (r & Hr & Hright & Hrpad & Hrstop).
  rewrite Hl in Hr, Hrstop.
  assert (Hnth_l : forall j, (j < n - k)%nat ->
                             nth j l d = nth (n - k - S j) cols d).
  { intros j Hj. unfold l. rewrite rev_nth by (rewrite length_firstn; lia).
    rewrite length_firstn. fold n.
    replace (Nat.min (n - k) n) with (n - k)%nat by lia.
    rewrite nth_firstn.
    now replace (n - k - S j <? n - k)%nat with true
      by (symmetry; apply Nat.ltb_lt; lia). }
  rewrite Hright in Epos |- *.
  replace (Z.to_nat (Z.of_nat n - Z.of_nat k - Z.of_nat r))
    with (n - k - r)%nat by lia.
  rewrite ?Nat2Z.id.
  destruct (Nat.eq_dec (length body) 0) as [Hempty | Hlen_body].
  - (* every column is padding in both motifs *)
    apply length_zero_iff_nil in Hempty. rewrite Hempty.
    apply filter_none. apply Forall_forall. intros cc Hcc.
    apply In_window in Hcc. unfold cols in Hcc. rewrite Hempty in Hcc.
    cbn [app] in Hcc.
    apply in_app_or in Hcc.
    destruct Hcc as [Hcc | Hcc]; apply repeat_spec in Hcc; now subst cc.
  - assert (Hpos_body : (0 < length body)%nat) by lia.
    assert (Hka : (k <= a)%nat).
    { destruct (Nat.le_gt_cases k a) as [H | H]; [exact H|].
      specialize (Hpad a H). rewrite F2 in Hpad by lia. discriminate. }
    assert (Hrb : (r <= b)%nat).
    { destruct (Nat.le_gt_cases r b) as [H | H]; [exact H|]. exfalso.
      destruct (Nat.lt_ge_cases k (n - k)) as [Hkm | Hkm].
      - assert (Hnot : both_padding (nth k cols d) = false)
          by (apply Hstop; lia).
        assert (k = a).
        { destruct (Nat.eq_dec k a) as [E | E]; [exact E|].
          rewrite F1 in Hnot by lia. discriminate. }
        subst k.
        specialize (Hrpad (b - a)%nat ltac:(lia)).
        rewrite Hnth_l in Hrpad by lia.
        rewrite F2 in Hrpad by lia. discriminate.
      - assert (Hrm : (r < n - k)%nat) by lia.
        specialize (Hrstop Hrm). rewrite Hnth_l in Hrstop by lia.
        rewrite F1 in Hrstop by lia. discriminate. }
    assert (Hcols : cols
                    = repeat pp k
                      ++ (repeat pp (a - k) ++ body ++ repeat pp (b - r))
                      ++ repeat pp r).
    { unfold cols.
      replace a with (k + (a - k))%nat at 1 by lia.
      replace b with ((b - r) + r)%nat at 1 by lia.
      rewrite !repeat_app, <- !app_assoc. reflexivity. }
    rewrite Hcols, skipn_pads.
    rewrite firstn_exact
      by (rewrite !length_app, !repeat_length; lia).
    rewrite !filter_app, !(filter_repeat_none keep pp) by exact Hkeep_pp.
    rewrite Hkeep_body. apply app_nil_r.
Qed.

Lemma combine_app_same {A B : Type} :
  forall (l1 l1' : list A) (l2 l2' : list B),
    length l1 = length l2 ->
    combine (l1 ++ l1') (l2 ++ l2') = combine l1 l2 ++ combine l1' l2'.
Proof.
  induction l1 as [|a t IH]; intros l1' [|b u] l2' H; try discriminate;
    cbn [app combine]; [reflexivity|].
  rewrite IH by (cbn [length] in H; lia). reflexivity.
Qed.

Lemma combine_repeat {A B : Type} (x : A) (y : B) (n : nat) :
  combine (repeat x n) (repeat y n) = repeat (x, y) n.
Proof. induction n as [|n IH]; cbn [repeat combine]; now rewrite ?IH. Qed.

Lemma combine_skipn {A B : Type} :
  forall (n : nat) (l : list A) (l' : list B),
    skipn n (combine l l') = combine (skipn n l) (skipn n l').
Proof.
  induction n as [|n IH]; intros [|a t] [|b u]; cbn [skipn combine];
    try reflexivity.
  - now destruct (skipn n t).
  - apply IH.
Qed.

(** Columns that are padding in both motifs add nothing to the merged
    motif. *)
Lemma get_merged_motif_filter (mot1 mot2 : motif) (weight : Z) :
  get_merged_motif mot1 mot2 weight
  = flat_map
      (fun cc =>
         let c1 := fst cc in
         let c2 := snd cc in
         if is_padding c1 && is_data c2 then [c2]
         else if is_padding c2 && is_data c1 then [c1]
         else if is_data c1 && is_data c2 then
           [map (fun ab => (fst ab * IZR weight + snd ab) / (IZR weight + 1))
                (combine c1 c2)]
         else [])
      (filter (fun cc => negb (both_padding cc)) (combine mot1 mot2)).
Proof.
  unfold get_merged_motif.
  induction (combine mot1 mot2) as [|[c1 c2] t IH];
    cbn [flat_map filter]; [reflexivity|].
  unfold both_padding at 1. cbn [fst snd].
  destruct (is_padding c1) eqn:P1, (is_padding c2) eqn:P2;
    cbn [andb negb flat_map fst snd]; rewrite ?P1, ?P2, ?IH;
    try reflexivity.
  rewrite !is_data_not_padding, P1, P2. reflexivity.
Qed.

(** The pair [trim_both_motifs] leaves, for two aligned motifs that are
    padding in both only in [a] leading and [b] trailing columns. *)
Lemma trim_both_motifs_padded :
  forall (nrow a b : nat) (body1 body2 : motif),
    (0 < nrow)%nat ->
    length body1 = length body2 ->
    Forall (fun cc => both_padding cc = false) (combine body1 body2) ->
    let pads := fun k => repeat (padding_col nrow) k in
    let trimmed :=
      trim_both_motifs (pads a ++ body1 ++ pads b)
                       (pads a ++ body2 ++ pads b) in
    length (fst trimmed) = length (snd trimmed)
    /\ filter (fun cc => negb (both_padding cc))
              (combine (fst trimmed) (snd trimmed))
       = combine body1 body2.
Proof.
  intros nrow a b body1 body2 Hn Hlen Hbody pads trimmed.
  set (pp := (padding_col nrow, padding_col nrow)).
  set (m1 := pads a ++ body1 ++ pads b) in *.
  set (m2 := pads a ++ body2 ++ pads b) in *.
  assert (Hm : length m1 = length m2).
  { unfold m1, m2, pads. rewrite !length_app, !repeat_length. lia. }
  assert (Hcols : combine m1 m2
                  = repeat pp a ++ combine body1 body2 ++ repeat pp b).
  { unfold m1, m2, pads, pp.
    rewrite combine_app_same by now rewrite !repeat_length.
    rewrite combine_app_same by exact Hlen.
    now rewrite !combine_repeat. }
  assert (Hlenc : length (combine m1 m2) = length m1).
  { rewrite length_combine. lia. }
  pose proof (trim_window_keeps_body pp (combine body1 body2) a b
                (both_padding_pads nrow Hn) Hbody) as Hwin.
  cbv zeta in Hwin. rewrite <- Hcols, Hlenc in Hwin.
  unfold trimmed, trim_both_motifs. fold m1 m2.
  destruct (trim_left_loop (combine m1 m2) 0 (Z.of_nat (length m1)) 0)
    as [mlen1 tleft] eqn:Eleft.
  specialize (Hwin mlen1 tleft eq_refl).
  destruct (0 <? trim_right_loop _ mlen1)%Z; cbn [fst snd].
  - split.
    + rewrite !length_firstn, !length_skipn. lia.
    + rewrite <- combine_firstn, <- combine_skipn. exact Hwin.
  - split; [exact Hm | exact Hwin].
Qed.

(** X22.  [trim_both_motifs] loses no data.  For two aligned motifs that
    are padding in both only in [a] leading and [b] trailing columns, the
    trimmed pair has equal widths and holds, besides columns that are
    padding in both, exactly the columns in between; merging the trimmed
    pair gives what merging those columns gives. *)
Theorem trim_both_motifs_keeps_data :
  forall (nrow a b : nat) (body1 body2 : motif),
    (0 < nrow)%nat ->
    length body1 = length body2 ->
    Forall (fun cc => both_padding cc = false) (combine body1 body2) ->
    let pads := fun k => repeat (padding_col nrow) k in
    let trimmed :=
      trim_both_motifs (pads a ++ body1 ++ pads b)
                       (pads a ++ body2 ++ pads b) in
    length (fst trimmed) = length (snd trimmed)
    /\ filter (fun cc => negb (both_padding cc))
              (combine (fst trimmed) (snd trimmed))
       = combine body1 body2
    /\ forall weight,
         get_merged_motif (fst trimmed) (snd trimmed) weight
         = get_merged_motif body1 body2 weight.
Proof.
  intros nrow a b body1 body2 Hn Hlen Hbody.
  destruct (trim_both_motifs_padded nrow a b body1 body2 Hn Hlen Hbody)
    as [Hwidth Hkept].
  cbv beta zeta in Hwidth, Hkept |- *.
  split; [exact Hwidth|]. split; [exact Hkept|].
  intros weight.
  assert (Hbody' : filter (fun cc => negb (both_padding cc))
                          (combine body1 body2)
                   = combine body1 body2).
  { apply filter_all. eapply Forall_impl; [|exact Hbody]. cbv beta.
    intros cc Hcc. now rewrite Hcc. }
  rewrite get_merged_motif_filter, Hkept.
  rewrite (get_merged_motif_filter body1), Hbody'. reflexivity.
Qed.

Lemma trim_both_motifs_keeps_data_witness :
  let pads := fun k => repeat (padding_col 4) k in
  let trimmed :=
    trim_both_motifs (pads 2%nat ++ motif_cd ++ pads 1%nat)
                     (pads 2%nat ++ flat_motif 2 ++ pads 1%nat) in
  length (fst trimmed) = length (snd trimmed)
  /\ filter (fun cc => negb (both_padding cc))
            (combine (fst trimmed) (snd trimmed))
     = combine motif_cd (flat_motif 2)
  /\ forall weight,
       get_merged_motif (fst trimmed) (snd trimmed) weight
       = get_merged_motif motif_cd (flat_motif 2) weight.
Proof.
  apply (trim_both_motifs_keeps_data 4 2 1 motif_cd (flat_motif 2)).
  - lia.
  - reflexivity.
  - cbn [motif_cd flat_motif repeat combine].
    repeat (apply Forall_cons;
            [unfold both_padding, is_padding, col0; cbn [fst snd nth];
             apply andb_false_iff; left; apply Rltb_false; lra|]).
    apply Forall_nil.
Defined.

(** ** Merging under full overlap *)








(** ** Merging motifs of one width under full overlap: the mean *)















(** ** The orientation chosen for a merge *)




(** ** Allowing the reverse complement *)





(** ** A motif searched against itself *)

Lemma calc_mic_never_negative (tic : list R) :
  mic_below (calc_mic tic) 0 = false.
Proof.
  rewrite calc_mic_filter.
  destruct (length (filter (Rleb 0) tic)) as [|n] eqn:E; [reflexivity|].
  cbn [Nat.eqb mic_below]. apply Rltb_false.
  assert (Hacc : 0 <= accumulate (filter (Rleb 0) tic)).
  { apply accumulate_nonneg. apply Forall_forall. intros x Hx.
    apply filter_In in Hx. now apply Rleb_true. }
  assert (Hn : 0 < INR (S n)) by (apply lt_0_INR; lia).
  apply Rmult_le_pos; [exact Hacc|].
  left. now apply Rinv_0_lt_compat.
Qed.

Lemma sum_rows_nonneg (g : R -> R -> R) (c1 c2 : list R) :
  (forall a b, 0 <= g a b) -> 0 <= sum_rows g c1 c2.
Proof.
  intros Hg. unfold sum_rows.
  assert (H : forall l acc, 0 <= acc ->
                0 <= fold_left (fun acc ab => acc + g (fst ab) (snd ab)) l acc).
  { induction l as [|[a b] t IH]; intros acc Hacc; cbn [fold_left fst snd];
      [exact Hacc|].
    apply IH. specialize (Hg a b). lra. }
  apply H. lra.
Qed.

Lemma per_column_nonneg (f : list R -> list R -> R) (m1 m2 : motif) :
  (forall c1 c2, 0 <= f c1 c2) -> 0 <= accumulate (per_column f m1 m2).
Proof.
  intros Hf. apply accumulate_nonneg. unfold per_column.
  apply Forall_map. apply Forall_forall. intros cc _.
  destruct (is_data (fst cc) && is_data (snd cc)); [apply Hf | lra].
Qed.

(** The four distances that vanish between equal columns, as
    [get_compare_ans] computes them under "sum" without normalisation
    ([alignlen] is [tlen]). *)
Lemma get_compare_ans_vanishing (method : string) (nsites1 nsites2 : R)
    (bkg1 bkg2 : list R) :
  In method ["EUCL"; "SEUCL"; "MAN"; "HELL"]%string ->
  exists f : list R -> list R -> R,
    (forall c, f c c = 0)
    /\ (forall c1 c2, 0 <= f c1 c2)
    /\ forall tm1 tm2 lowic tlen,
         get_compare_ans tm1 tm2 lowic tlen tlen method nsites1 nsites2 bkg1
           bkg2 "sum"
         = Some (if lowic then dbl_max
                 else accumulate (per_column f tm1 tm2) * INR tlen
                      / INR tlen).
Proof.
  intros Hm. cbn [In] in Hm.
  destruct Hm as [<- | [<- | [<- | [<- | []]]]].
  - exists col_eucl. split; [apply col_eucl_self|]. split.
    + intros c1 c2. apply sqrt_pos.
    + intros tm1 tm2 lowic tlen. unfold get_compare_ans.
      change (enum_get METRICS_enum "EUCL") with 1%Z. cbv iota beta zeta.
      destruct lowic; reflexivity.
  - exists col_seucl. split; [apply sum_rows_self|]. split.
    + intros c1 c2. apply sum_rows_nonneg. intros a b. apply Rle_0_sqr.
    + intros tm1 tm2 lowic tlen. unfold get_compare_ans.
      change (enum_get METRICS_enum "SEUCL") with 5%Z. cbv iota beta zeta.
      destruct lowic; reflexivity.
  - exists col_man. split; [apply sum_rows_abs_self|]. split.
    + intros c1 c2. apply sum_rows_nonneg. intros a b. apply Rabs_pos.
    + intros tm1 tm2 lowic tlen. unfold get_compare_ans.
      change (enum_get METRICS_enum "MAN") with 6%Z. cbv iota beta zeta.
      destruct lowic; reflexivity.
  - exists col_hell. split.
    { intros c. unfold col_hell. rewrite sum_rows_hell_self, sqrt_0.
      unfold Rdiv. apply Rmult_0_l. }
    split.
    + intros c1 c2. unfold col_hell. apply Rmult_le_pos; [apply sqrt_pos|].
      left. apply Rinv_0_lt_compat. apply sqrt_lt_R0. lra.
    + intros tm1 tm2 lowic tlen. unfold get_compare_ans.
      change (enum_get METRICS_enum "HELL") with 3%Z. cbv iota beta zeta.
      destruct lowic; reflexivity.
Qed.

Lemma map_opt_spec {A B : Type} (f : A -> option B) :
  forall (l : list A) (r : list B),
    map_opt f l = Some r ->
    (forall b, In b r -> exists a, In a l /\ f a = Some b)
    /\ (forall a, In a l -> exists b, In b r /\ f a = Some b).
Proof.
  induction l as [|x t IH]; intros r H; cbn [map_opt] in H.
  - injection H as <-. split; intros ? [].
  - destruct (f x) as [y|] eqn:Ey; [|discriminate]. cbn [obnd] in H.
    destruct (map_opt f t) as [ys|]; [|discriminate]. cbn [obnd] in H.
    injection H as <-. destruct (IH ys eq_refl) as [H1 H2]. split.
    + intros b [<- | Hb].
      * exists x. split; [now left | exact Ey].
      * destruct (H1 b Hb) as (a & Ha & Hf). exists a.
        split; [now right | exact Hf].
    + intros a [<- | Ha].
      * exists y. split; [now left | exact Ey].
      * destruct (H2 a Ha) as (b & Hb & Hf). exists b.
        split; [now right | exact Hf].
Qed.

Lemma offsets_In (fori forj i j : nat) :
  (i < fori)%nat -> (j < forj)%nat -> In (i, j) (offsets fori forj).
Proof.
  intros Hi Hj. unfold offsets. apply in_flat_map. exists i.
  split; [apply in_seq; lia|]. apply in_map. apply in_seq. lia.
Qed.

Lemma dbl_max_nonneg : 0 <= dbl_max.
Proof. pose proof dbl_max_gt_1. lra. Qed.

(** Under one of the four distances, "sum", no thresholds and no
    normalisation, every offset scores 0 or more. *)
Lemma alignment_scores_nonneg mot1 mot2 method moverlap ic1 ic2 bkg1 bkg2
    nsites1 nsites2 offs :
  mot1 <> [] ->
  In method ["EUCL"; "SEUCL"; "MAN"; "HELL"]%string ->
  alignment_scores mot1 mot2 method moverlap ic1 ic2 0 false 0 bkg1 bkg2
    nsites1 nsites2 "sum" = Some offs ->
  Forall (fun x => 0 <= x) offs.
Proof.
  intros Hne Hm H.
  destruct (get_compare_ans_vanishing method nsites1 nsites2 bkg1 bkg2 Hm)
    as (f & _ & Hf & Hans).
  unfold alignment_scores in H.
  set (tlen := Nat.max (length mot1) (length mot2)) in *.
  assert (Htlen : 0 < INR tlen).
  { apply lt_0_INR. unfold tlen. destruct mot1; [easy | cbn [length]; lia]. }
  destruct (equalize_mot_cols mot1 mot2 ic1 ic2 moverlap)
    as [[[m1 m2] e1] e2].
  apply map_opt_spec in H. destruct H as [H _].
  apply Forall_forall. intros x Hx. destruct (H x Hx) as (ij & _ & Hij).
  unfold alignment_score, alignment_window in Hij.
  replace (Rltb 0 0) with false in Hij
    by (symmetry; apply Rltb_false; lra).
  rewrite Hans in Hij. injection Hij as <-.
  destruct (_ || _); [apply dbl_max_nonneg|].
  match goal with
  | |- context [per_column f ?a ?b] =>
      pose proof (per_column_nonneg f a b Hf) as Hp
  end.
  apply Rmult_le_pos; [apply Rmult_le_pos; lra|].
  left. now apply Rinv_0_lt_compat.
Qed.

(** A motif against itself: the offset of the full overlap scores 0. *)
Lemma alignment_scores_self_zero mot method moverlap ic bkg1 bkg2 nsites1
    nsites2 offs :
  mot <> [] ->
  In method ["EUCL"; "SEUCL"; "MAN"; "HELL"]%string ->
  alignment_scores mot mot method moverlap ic ic 0 false 0 bkg1 bkg2 nsites1
    nsites2 "sum" = Some offs ->
  In 0 offs.
Proof.
  intros Hne Hm H.
  destruct (get_compare_ans_vanishing method nsites1 nsites2 bkg1 bkg2 Hm)
    as (f & Hself & _ & Hans).
  unfold alignment_scores in H. rewrite equalize_mot_cols_cases in H.
  cbv zeta in H. rewrite toadd_pair_same, orb_diag, Nat.ltb_irrefl in H.
  set (t := fst (toadd_pair mot mot moverlap)) in *.
  set (nrow := length (nth 0 mot [])) in *.
  assert (Hscore : forall m2 e2 minw tlen (j : nat),
             window j minw m2 = window 0 minw mot ->
             alignment_score mot m2 ic e2 minw tlen method 0 false 0 bkg1
               bkg2 nsites1 nsites2 "sum" (0%nat, j) = Some 0).
  { intros m2 e2 minw tlen j Hw.
    unfold alignment_score, alignment_window.
    replace (Rltb 0 0) with false by (symmetry; apply Rltb_false; lra).
    cbn [fst snd]. rewrite Hans, !calc_mic_never_negative. cbn [orb].
    rewrite Hw, (per_column_self f _ Hself), accumulate_zeros.
    f_equal. unfold Rdiv. now rewrite !Rmult_0_l. }
  destruct (t =? 0)%nat eqn:Et.
  - apply map_opt_spec in H. destruct H as [_ H].
    destruct (H (0%nat, 0%nat)) as (b & Hb & Hf).
    { apply offsets_In; lia. }
    rewrite Hscore in Hf by reflexivity. now injection Hf as <-.
  - apply Nat.eqb_neq in Et.
    apply map_opt_spec in H. destruct H as [_ H].
    destruct (H (0%nat, t)) as (b & Hb & Hf).
    { rewrite pad_motif_length. apply offsets_In; lia. }
    rewrite Hscore in Hf; [now injection Hf as <-|].
    rewrite pad_motif_length.
    replace (Nat.min (length mot) (t * 2 + length mot)) with (length mot)
      by lia.
    unfold window, pad_motif. rewrite skipn_pads. cbn [skipn].
    rewrite firstn_all. now apply firstn_exact.
Qed.

Lemma best_is_zero (ans : list R) (method : string) :
  In method distance_metrics ->
  Forall (fun x => 0 <= x) ans -> In 0 ans ->
  return_best_ans ans method = 0.
Proof.
  intros Hm Hall Hz.
  destruct (return_best_ans_distance ans method Hm) as [Hin Hmin];
    [now destruct ans|].
  rewrite Forall_forall in Hall, Hmin.
  specialize (Hall _ Hin). specialize (Hmin _ Hz). lra.
Qed.

(** X27.  A motif is at distance 0 from itself: under EUCL, SEUCL, MAN or
    HELL, with the strategy "sum", no thresholds and no normalisation, the
    alignment search of a motif against itself returns 0 for every minimum
    overlap, with or without the reverse complement. *)
Theorem self_comparison_is_zero :
  forall (mot : motif) (method : string) (moverlap : R) (RC : bool)
         (ic bkg1 bkg2 : list R) (nsites1 nsites2 : R),
    mot <> [] -> length ic = length mot -> 0 <= moverlap ->
    In method ["EUCL"; "SEUCL"; "MAN"; "HELL"]%string ->
    compare_motif_pair mot mot method moverlap RC ic ic 0 false 0 bkg1 bkg2
      nsites1 nsites2 "sum" = Some 0.
Proof.
  intros mot method moverlap RC ic bkg1 bkg2 nsites1 nsites2 Hne _ _ Hm.
  assert (Hd : In method distance_metrics).
  { cbn [In] in Hm. unfold distance_metrics. cbn [In]. tauto. }
  assert (Hstrat : enum_get SCORESTRAT_enum "sum" <> 4%Z)
    by (rewrite enum_sum; discriminate).
  unfold compare_motif_pair.
  destruct (alignment_scores_total mot mot method moverlap ic ic 0 false 0
              bkg1 bkg2 nsites1 nsites2 "sum" Hstrat) as [offs Hoffs].
  pose proof (alignment_scores_nonneg _ _ _ _ _ _ _ _ _ _ _ Hne Hm Hoffs)
    as Hall.
  pose proof (alignment_scores_self_zero _ _ _ _ _ _ _ _ _ Hne Hm Hoffs)
    as Hz.
  destruct RC.
  - destruct (alignment_scores_total mot (get_motif_rc mot) method moverlap
                ic (rev ic) 0 false 0 bkg1 bkg2 nsites1 nsites2 "sum" Hstrat)
      as [rc Hrc].
    pose proof (alignment_scores_nonneg _ _ _ _ _ _ _ _ _ _ _ Hne Hm Hrc)
      as Hrall.
    destruct (alignment_scores_length _ _ _ _ _ _ _ _ _ _ _ _ _ _ _ Hrc)
      as [_ Hrne].
    cbn [compare_motif_pair_rec]. rewrite Hrc, Hoffs.
    cbn [obnd option_map fst snd]. rewrite app_nil_r. f_equal.
    apply best_is_zero; [exact Hd | | apply in_or_app; now left].
    apply Forall_app. split; [exact Hall|]. constructor; [|constructor].
    destruct (return_best_ans_distance rc method Hd Hrne) as [Hin _].
    rewrite Forall_forall in Hrall. now apply Hrall.
  - rewrite compare_motif_pair_rec_no_rc, Hoffs. cbn [option_map snd].
    f_equal. now apply best_is_zero.
Qed.

Lemma self_comparison_is_zero_witness :
  compare_motif_pair motif_cd motif_cd "HELL" 1 true [2; 2] [2; 2] 0 false 0
    bkg_A bkg_A 100 100 "sum" = Some 0.
Proof.
  apply (self_comparison_is_zero motif_cd "HELL" 1 true [2; 2] bkg_A bkg_A
           100 100).
  - discriminate.
  - reflexivity.
  - lra.
  - cbn [In]. tauto.
Defined.

(** ** An index that is no position of a motif *)

Lemma check_common_cases (type : Z) (minic posic : R) (mots : list motif)
    (bkg : list (list R)) :
  (exists msg, check_common type minic posic mots bkg = Stop msg)
  \/ check_common type minic posic mots bkg = Ret tt.
Proof.
  unfold check_common.
  repeat match goal with
         | |- context [if ?c then Stop _ else _] =>
             destruct c; [left; eexists; reflexivity|]
         end.
  now right.
Qed.

Lemma prepare_motifs_cases (who method : string) :
  forall (mots : list motif) (bkg : list (list R)),
    (exists msg, prepare_motifs who mots bkg method = Stop msg)
    \/ exists prep,
         prepare_motifs who mots bkg method = Ret prep
         /\ (length (fst prep) <= length mots)%nat.
Proof.
  intros mots bkg.
  destruct (prepare_motifs who mots bkg method) as [prep|msg| | |] eqn:E.
  - right. exists prep. split; [reflexivity|].
    apply prepare_motifs_Ret in E. subst prep.
    cbn [fst]. rewrite length_map, length_combine. lia.
  - left. now exists msg.
  - exfalso. revert bkg E.
    induction mots as [|m ms IH]; intros [|b bs] E;
      cbn [prepare_motifs] in E; try discriminate.
    destruct (length m =? 0)%nat; [discriminate|].
    destruct (prepare_motifs who ms bs method) as [rest| | | |] eqn:Er;
      try discriminate; [|now apply (IH bs)].
    cbn [obind] in E. now destruct (fix_mot_bkg_zeros m b method).
  - exfalso. revert bkg E.
    induction mots as [|m ms IH]; intros [|b bs] E;
      cbn [prepare_motifs] in E; try discriminate.
    destruct (length m =? 0)%nat; [discriminate|].
    destruct (prepare_motifs who ms bs method) as [rest| | | |] eqn:Er;
      try discriminate; [|now apply (IH bs)].
    cbn [obind] in E. now destruct (fix_mot_bkg_zeros m b method).
  - exfalso. revert bkg E.
    induction mots as [|m ms IH]; intros [|b bs] E;
      cbn [prepare_motifs] in E; try discriminate.
    destruct (length m =? 0)%nat; [discriminate|].
    destruct (prepare_motifs who ms bs method) as [rest| | | |] eqn:Er;
      try discriminate; [|now apply (IH bs)].
    cbn [obind] in E. now destruct (fix_mot_bkg_zeros m b method).
Qed.

Lemma at_int_cases {A : Type} (v : list A) (i : Z) :
  (exists a, at_int v i = Ret a) \/ at_int v i = OutOfBounds.
Proof.
  unfold at_int, at_nat. destruct (i <? 0)%Z; [now right|].
  destruct (nth_error v (Z.to_nat i)) as [a|]; [left; now exists a|].
  now right.
Qed.

Lemma at_int_outside {A : Type} (v : list A) (n : nat) (i : Z) :
  (length v <= n)%nat -> (i < 0 \/ Z.of_nat n <= i)%Z ->
  at_int v i = OutOfBounds.
Proof.
  intros Hv Hi. unfold at_int, at_nat.
  destruct (i <? 0)%Z eqn:Eneg; [reflexivity|]. apply Z.ltb_ge in Eneg.
  destruct (nth_error v (Z.to_nat i)) eqn:E; [|reflexivity].
  assert (Z.to_nat i < length v)%nat by (apply nth_error_Some; congruence).
  lia.
Qed.

Lemma map_out_fails {A B : Type} (f : A -> outcome B) :
  (forall x, (exists b, f x = Ret b) \/ f x = OutOfBounds) ->
  forall (l : list A) (k : nat) (a : A),
    nth_error l k = Some a -> f a = OutOfBounds ->
    map_out f l = OutOfBounds.
Proof.
  intros Hf. induction l as [|x t IH]; intros k a Hk Ha;
    [now destruct k|].
  cbn [map_out]. destruct k as [|k]; cbn [nth_error] in Hk.
  - injection Hk as ->. now rewrite Ha.
  - destruct (Hf x) as [[b ->] | ->]; [|reflexivity]. cbn [obind].
    now rewrite (IH k a Hk Ha).
Qed.

(** X28.  [compare_motifs_cpp] does not validate its indices: when an
    entry of [index1] or [index2] is negative or not below the number of
    motifs (a position counted from 1, say), the function returns no
    result; unless the validation stops first, a vector is read outside
    its bounds. *)
Theorem compare_motifs_cpp_bad_index :
  forall (mots : list motif) (index1 index2 : list Z) (method : string)
         (minoverlap : R) (RC : bool) (bkg : list (list R)) (type : Z)
         (relative : bool) (minic : R) (norm : bool) (posic : R)
         (nsites : list R) (strat : string) (k : nat) (i : Z),
    nth_error index1 k = Some i \/ nth_error index2 k = Some i ->
    (i < 0 \/ Z.of_nat (length mots) <= i)%Z ->
    (exists msg,
        compare_motifs_cpp mots index1 index2 method minoverlap RC bkg type
          relative minic norm posic nsites strat = Stop msg)
    \/ compare_motifs_cpp mots index1 index2 method minoverlap RC bkg type
         relative minic norm posic nsites strat = OutOfBounds.
Proof.
  intros mots index1 index2 method minoverlap RC bkg type relative minic norm
    posic nsites strat k i Hk Hi.
  unfold compare_motifs_cpp.
  destruct (check_common_cases type minic posic mots bkg) as [[msg ->] | ->];
    [left; now exists msg|].
  cbn [obind].
  destruct (length index1 =? length index2)%nat eqn:Elen; cbn [negb];
    [|left; eexists; reflexivity].
  apply Nat.eqb_eq in Elen.
  destruct (prepare_motifs_cases
              "encountered an empty motif [compare_motifs_cpp()]" method mots
              bkg) as [[msg ->] | (prep & -> & Hprep)];
    [left; now exists msg|].
  cbn [obind]. right.
  assert (Hpair : exists i1 i2,
             nth_error (combine index1 index2) k = Some (i1, i2)
             /\ (i1 = i \/ i2 = i)).
  { assert (Hlt : (k < length index1)%nat).
    { destruct Hk as [Hk | Hk];
        [|rewrite Elen]; apply nth_error_Some; congruence. }
    destruct (nth_error (combine index1 index2) k) as [[i1 i2]|] eqn:E.
    - exists i1, i2. split; [reflexivity|].
      apply nth_error_combine_Some in E. destruct E as [E1 E2].
      destruct Hk as [Hk | Hk]; [left | right]; congruence.
    - apply nth_error_None in E. rewrite length_combine in E. lia. }
  destruct Hpair as (i1 & i2 & Hpair & Hwhich).
  apply (map_out_fails _) with (k := k) (a := (i1, i2)); [|exact Hpair|].
  - intros [j1 j2]. cbn [fst snd].
    repeat match goal with
           | |- context [obind (at_int ?v ?x) _] =>
               destruct (at_int_cases v x) as [[? ->] | ->]; cbn [obind];
               [|now right]
           end.
    destruct (compare_motif_pair _ _ _ _ _ _ _ _ _ _ _ _ _ _ _) as [s|];
      cbn [lift]; [left; now exists s | now right].
  - cbn [fst snd].
    destruct Hwhich as [-> | ->].
    + now rewrite (at_int_outside (fst prep) (length mots) i Hprep Hi).
    + destruct (at_int_cases (fst prep) i1) as [[m1 ->] | ->];
        [|reflexivity].
      cbn [obind].
      now rewrite (at_int_outside (fst prep) (length mots) i Hprep Hi).
Qed.

Lemma compare_motifs_cpp_bad_index_witness :
  (exists msg,
      compare_motifs_cpp [motif_cd; flat_motif 3] [1]%Z [2]%Z "EUCL" 1 true
        [bkg_A; bkg_A] 1 false 0 false 0 [100; 100] "sum" = Stop msg)
  \/ compare_motifs_cpp [motif_cd; flat_motif 3] [1]%Z [2]%Z "EUCL" 1 true
       [bkg_A; bkg_A] 1 false 0 false 0 [100; 100] "sum" = OutOfBounds.
Proof.
  apply (compare_motifs_cpp_bad_index [motif_cd; flat_motif 3] [1]%Z [2]%Z
           "EUCL" 1 true [bkg_A; bkg_A] 1 false 0 false 0 [100; 100] "sum"
           0 2).
  - right. reflexivity.
  - right. cbn [length]. lia.
Defined.

(** ** A metric that is not in the table *)

Lemma get_compare_ans_unknown tmot1 tmot2 lowic alignlen tlen method nsites1
    nsites2 bkg1 bkg2 strat :
  ~ In method (distance_metrics ++ similarity_metrics) ->
  get_compare_ans tmot1 tmot2 lowic alignlen tlen method nsites1 nsites2 bkg1
    bkg2 strat = Some 0.
Proof.
  intros H. unfold get_compare_ans. now rewrite (enum_get_unknown method H).
Qed.

(** X29.  A metric outside the table is rejected by [compare_columns_cpp]
    only.  The alignment search does not look at the motifs then: every
    offset is given 0.0 and [compare_motif_pair] returns -1111, whatever
    the motifs, the thresholds and the strategy. *)
Theorem unknown_metric_scores :
  forall (mot1 mot2 : motif) (method : string) (moverlap : R) (RC : bool)
         (ic1 ic2 : list R) (minic : R) (norm : bool) (posic : R)
         (bkg1 bkg2 : list R) (nsites1 nsites2 : R) (strat : string),
    ~ In method (distance_metrics ++ similarity_metrics) ->
    compare_motif_pair mot1 mot2 method moverlap RC ic1 ic2 minic norm posic
      bkg1 bkg2 nsites1 nsites2 strat = Some (-1111.0)
    /\ forall p1 p2 b1 b2 n1 n2,
         (2 <= length p1)%nat -> length p1 = length p2 ->
         compare_columns_cpp p1 p2 b1 b2 n1 n2 method = Stop "unknown metric".
Proof.
  intros mot1 mot2 method moverlap RC ic1 ic2 minic norm posic bkg1 bkg2
    nsites1 nsites2 strat Hm.
  assert (Hbest : forall ans, return_best_ans ans method = -1111.0).
  { intros ans. unfold return_best_ans.
    now rewrite (enum_get_unknown method Hm). }
  assert (Hscores : forall m1 m2 e1 e2,
             exists offs,
               alignment_scores m1 m2 method moverlap e1 e2 minic norm posic
                 bkg1 bkg2 nsites1 nsites2 strat = Some offs).
  { intros m1 m2 e1 e2. unfold alignment_scores.
    destruct (equalize_mot_cols m1 m2 e1 e2 moverlap) as [[[a b] c] d].
    apply map_opt_total. intros ij. unfold alignment_score.
    destruct (alignment_window _ _ _ _ _ _ _) as [[[tm1 tm2] t1] t2].
    rewrite get_compare_ans_unknown by exact Hm. now exists 0. }
  split.
  - unfold compare_motif_pair. cbn [compare_motif_pair_rec].
    destruct (Hscores mot1 mot2 ic1 ic2) as [offs ->].
    destruct RC.
    + destruct (Hscores mot1 (get_motif_rc mot2) ic1 (rev ic2)) as [rc ->].
      cbn [obnd option_map fst snd]. now rewrite Hbest.
    + cbn [obnd option_map fst snd]. now rewrite Hbest.
  - intros p1 p2 b1 b2 n1 n2 H2 Hlen. unfold compare_columns_cpp.
    replace (length p1 <? 2)%nat with false
      by (symmetry; apply Nat.ltb_ge; lia).
    rewrite <- Hlen, Nat.eqb_refl. cbn [negb].
    now rewrite (enum_get_unknown method Hm).
Qed.

Lemma unknown_metric_scores_witness :
  compare_motif_pair motif_cd (flat_motif 3) "EUCLID" 1 true [2; 2] [2; 2; 2]
    0 true 0 bkg_A bkg_A 100 100 "median" = Some (-1111.0)
  /\ compare_columns_cpp [0.5; 0.5] [0.25; 0.75] bkg_A bkg_A 100 100 "EUCLID"
     = Stop "unknown metric".
Proof.
  assert (Hm : ~ In "EUCLID"%string (distance_metrics ++ similarity_metrics)).
  { cbn. intros H. repeat (destruct H as [H|H]; [discriminate|]). exact H. }
  destruct (unknown_metric_scores motif_cd (flat_motif 3) "EUCLID" 1 true
              [2; 2] [2; 2; 2] 0 true 0 bkg_A bkg_A 100 100 "median" Hm)
    as [Hpair Hcols].
  split; [exact Hpair|].
  apply Hcols; [cbn [length]; lia | reflexivity].
Defined.
